(** * A discrete-time real-time scheduler (EDF / RMS): model and verification

    The development follows [scheduler.py] (classes [Task], [Scheduler],
    [EDFScheduler], [RMSScheduler]) and the command-line engine of [main.py]
    (class [EDFTaskScheduler]).  Python integers are unbounded and are
    modelled by [Z]; list positions are natural numbers.  Python exceptions
    are the errors of a small result monad. *)

From Stdlib Require Import ZArith Lia Bool Sorted.
From stdpp Require Import base tactics option list strings sorting.

Open Scope Z_scope.

(** ** Exceptions and the result monad *)

Inductive exn : Type :=
  | TypeError      (* "<" between two objects that define no ordering *)
  | IndexError.    (* list index out of range, pop from an empty list *)

Inductive result (A : Type) : Type :=
  | Ok (a : A)
  | Raise (e : exn).
Arguments Ok {A} a.
Arguments Raise {A} e.

Definition bind {A B : Type} (c : result A) (k : A → result B) : result B :=
  match c with
  | Ok a => k a
  | Raise e => Raise e
  end.

Notation "'let*' x := c 'in' k" := (bind c (fun x => k))
  (at level 10, x name, c at level 100, k at level 200).
Notation "'let*' ' p := c 'in' k" := (bind c (fun x => let 'p := x in k))
  (at level 10, p pattern, c at level 100, k at level 200).

Definition succeeds {A : Type} (c : result A) : Prop := ∃ a, c = Ok a.

(** ** Python lists used as arrays *)

Section pylist.
Context {A : Type}.

(** [l[i]] *)
Definition getitem (l : list A) (i : nat) : result A :=
  match l !! i with
  | Some x => Ok x
  | None => Raise IndexError
  end.

(** [l[i] = x] *)
Definition setitem (l : list A) (i : nat) (x : A) : result (list A) :=
  if (i <? length l)%nat then Ok (<[i := x]> l) else Raise IndexError.

(** [l.pop()]: the last element and the list without it. *)
Definition list_pop (l : list A) : result (A * list A) :=
  match last l with
  | Some x => Ok (x, take (length l - 1) l)
  | None => Raise IndexError
  end.
End pylist.

(** ** The [heapq] module of the Python runtime

    [scheduler.py] keeps its ready queue in a list managed by
    [heapq.heappush] and [heapq.heappop].  The functions below follow the
    runtime's [heapq]: an array-based binary min-heap in which the children
    of position [k] sit at [2k+1] and [2k+2].  The only operation on the
    elements is ["<"], which may raise. *)

Section heapq.
Context {A : Type} (lt : A → A → result bool).

(** The [while pos > startpos] loop of [_siftdown]. Every iteration moves
    [pos] to its parent, so [pos] iterations always suffice. *)
Fixpoint siftdown_loop (fuel : nat) (heap : list A) (startpos pos : nat)
    (newitem : A) : result (list A) :=
  match fuel with
  | S fuel' =>
      if (startpos <? pos)%nat then
        let parentpos := Nat.shiftr (pos - 1) 1 in
        let* parent := getitem heap parentpos in
        let* b := lt newitem parent in
        if b : bool then
          let* heap' := setitem heap pos parent in
          siftdown_loop fuel' heap' startpos parentpos newitem
        else setitem heap pos newitem
      else setitem heap pos newitem
  | O => setitem heap pos newitem
  end.

Definition _siftdown (heap : list A) (startpos pos : nat) : result (list A) :=
  let* newitem := getitem heap pos in
  siftdown_loop pos heap startpos pos newitem.

(** The choice of the smaller child in [_siftup]:
    [rightpos < endpos and not heap[childpos] < heap[rightpos]]. *)
Definition smaller_child (heap : list A) (endpos childpos : nat) : result nat :=
  let rightpos := (childpos + 1)%nat in
  if (rightpos <? endpos)%nat then
    let* l := getitem heap childpos in
    let* r := getitem heap rightpos in
    let* b := lt l r in
    Ok (if negb b then rightpos else childpos)
  else Ok childpos.

(** The [while childpos < endpos] loop of [_siftup]: bubble the smaller
    child up until a leaf is reached.  Returns the array and the leaf. *)
Fixpoint siftup_loop (fuel : nat) (heap : list A) (endpos pos childpos : nat)
    : result (list A * nat) :=
  match fuel with
  | S fuel' =>
      if (childpos <? endpos)%nat then
        let* childpos' := smaller_child heap endpos childpos in
        let* c := getitem heap childpos' in
        let* heap' := setitem heap pos c in
        siftup_loop fuel' heap' endpos childpos' (2 * childpos' + 1)%nat
      else Ok (heap, pos)
  | O => Ok (heap, pos)
  end.

Definition _siftup (heap : list A) (pos : nat) : result (list A) :=
  let endpos := length heap in
  let startpos := pos in
  let* newitem := getitem heap pos in
  let* '(heap1, pos1) := siftup_loop endpos heap endpos pos (2 * pos + 1)%nat in
  let* heap2 := setitem heap1 pos1 newitem in
  _siftdown heap2 startpos pos1.

(** [heap.append(item); _siftdown(heap, 0, len(heap)-1)] *)
Definition heappush (heap : list A) (item : A) : result (list A) :=
  let heap1 := heap ++ [item] in
  _siftdown heap1 0 (length heap1 - 1).

Definition heappop (heap : list A) : result (A * list A) :=
  let* '(lastelt, heap1) := list_pop heap in
  match heap1 with
  | _ :: _ =>
      let* returnitem := getitem heap1 0 in
      let* heap2 := setitem heap1 0 lastelt in
      let* heap3 := _siftup heap2 0 in
      Ok (returnitem, heap3)
  | [] => Ok (lastelt, heap1)
  end.
End heapq.


(** ** [list.sort(key=...)]

    The runtime's sort is stable and ascending in the key; it is modelled by
    a stable insertion sort (the result of a stable sort is unique). *)

Section sort.
Context {A : Type} (key : A → Z).

Fixpoint insert_by_key (x : A) (l : list A) : list A :=
  match l with
  | [] => [x]
  | y :: l' => if key x <=? key y then x :: y :: l' else y :: insert_by_key x l'
  end.

Fixpoint sort_by_key (l : list A) : list A :=
  match l with
  | [] => []
  | x :: l' => insert_by_key x (sort_by_key l')
  end.
End sort.

(** ** [class Task] *)

Record Task : Type := mkTask {
  task_id : string;
  arrival_time : Z;
  burst_time : Z;
  remaining_time : Z;
  deadline : Z;
  period : Z;
  absolute_deadline : Z;
  start_time : Z;
  completion_time : Z;
  missed_deadline : bool;
  _counter : Z
}.

(** The attribute assignments of
    [Task.__init__(task_id, arrival_time, burst_time, deadline, period=0)]. *)
Definition fresh_task (task_id : string) (arrival_time burst_time deadline period : Z)
    : Task :=
  {| task_id := task_id;
     arrival_time := arrival_time;
     burst_time := burst_time;
     remaining_time := burst_time;
     deadline := deadline;
     period := period;
     absolute_deadline := arrival_time + deadline;
     start_time := -1;
     completion_time := -1;
     missed_deadline := false;
     _counter := 0 |}.

(** A call [Task(...)].  The constructor only assigns attributes: it
    contains no check of its arguments and no [raise]. *)
Definition Task_init (task_id : string) (arrival_time burst_time deadline period : Z)
    : result Task :=
  Ok (fresh_task task_id arrival_time burst_time deadline period).

(** Attribute assignments [task.f = v]. *)
Definition set_counter (t : Task) (v : Z) : Task :=
  mkTask (task_id t) (arrival_time t) (burst_time t) (remaining_time t) (deadline t)
    (period t) (absolute_deadline t) (start_time t) (completion_time t)
    (missed_deadline t) v.
Definition set_start_time (t : Task) (v : Z) : Task :=
  mkTask (task_id t) (arrival_time t) (burst_time t) (remaining_time t) (deadline t)
    (period t) (absolute_deadline t) v (completion_time t)
    (missed_deadline t) (_counter t).
Definition set_remaining_time (t : Task) (v : Z) : Task :=
  mkTask (task_id t) (arrival_time t) (burst_time t) v (deadline t)
    (period t) (absolute_deadline t) (start_time t) (completion_time t)
    (missed_deadline t) (_counter t).
Definition set_completion_time (t : Task) (v : Z) : Task :=
  mkTask (task_id t) (arrival_time t) (burst_time t) (remaining_time t) (deadline t)
    (period t) (absolute_deadline t) (start_time t) v
    (missed_deadline t) (_counter t).
Definition set_missed_deadline (t : Task) (v : bool) : Task :=
  mkTask (task_id t) (arrival_time t) (burst_time t) (remaining_time t) (deadline t)
    (period t) (absolute_deadline t) (start_time t) (completion_time t)
    v (_counter t).

(** ** Task objects and references

    Tasks are mutable objects shared between the caller's list, the ready
    queue and the list of completed tasks.  A [ref] is the identity of a
    task object and the [store] gives the current contents of every
    object. *)

Definition ref : Type := nat.
Definition store : Type := ref → Task.

Definition store_set (σ : store) (r : ref) (t : Task) : store :=
  λ r', if decide (r' = r) then t else σ r'.

(** The store in which object [i] is the [i]-th task of [l]. *)
Definition store_of (l : list Task) : store :=
  λ r, nth r l (fresh_task "" 0 0 0 0).

(** ** [class Scheduler] and its two subclasses *)

(** A ready-queue entry [(priority, arrival_time, counter, task)]. *)
Definition entry : Type := Z * Z * Z * ref.

Definition entry_priority (e : entry) : Z := e.1.1.1.
Definition entry_arrival (e : entry) : Z := e.1.1.2.
Definition entry_counter (e : entry) : Z := e.1.2.
Definition entry_task (e : entry) : ref := e.2.

(** ["<"] on two such tuples: the first position at which they differ
    decides.  [Task] defines neither [__eq__] nor [__lt__]: two tasks are
    equal only when they are the same object, and ["<"] between two
    different tasks raises [TypeError]. *)
Definition entry_lt (x y : entry) : result bool :=
  let '(p1, a1, c1, t1) := x in
  let '(p2, a2, c2, t2) := y in
  if negb (p1 =? p2) then Ok (p1 <? p2)
  else if negb (a1 =? a2) then Ok (a1 <? a2)
  else if negb (c1 =? c2) then Ok (c1 <? c2)
  else if decide (t1 = t2) then Ok false
  else Raise TypeError.

(** A history entry [(start, end, task_id)]; an idle unit carries ["IDLE"]. *)
Abbreviation hist_entry := (Z * Z * string)%type.
Definition IDLE : string := "IDLE".

Record Scheduler : Type := mkScheduler {
  time : Z;
  ready_queue : list entry;
  history : list hist_entry;
  completed_tasks : list ref;
  missed_deadlines : Z;
  _task_counter : Z
}.

(** [Scheduler.__init__] *)
Definition Scheduler_init : Scheduler :=
  {| time := 0; ready_queue := []; history := []; completed_tasks := [];
     missed_deadlines := 0; _task_counter := 0 |}.

(** The subclasses differ only in the priority that [add_task] pushes. *)
Inductive Policy : Type := EDF | RMS.

Definition priority (pol : Policy) (t : Task) : Z :=
  match pol with
  | EDF => absolute_deadline t
  | RMS => if period t >? 0 then period t else deadline t
  end.

Definition with_queue (s : Scheduler) (q : list entry) (next : Z) : Scheduler :=
  mkScheduler (time s) q (history s) (completed_tasks s) (missed_deadlines s) next.

(** [EDFScheduler.add_task] / [RMSScheduler.add_task] *)
Definition add_task (pol : Policy) (σ : store) (s : Scheduler) (r : ref)
    : result (store * Scheduler) :=
  let σ1 := store_set σ r (set_counter (σ r) (_task_counter s)) in
  let counter1 := _task_counter s + 1 in
  let task := σ1 r in
  let* q := heappush entry_lt (ready_queue s)
              (priority pol task, arrival_time task, _counter task, r) in
  Ok (σ1, with_queue s q counter1).

(** [get_next_task]: [None] when the queue is empty. *)
Definition get_next_task (s : Scheduler) : result (option ref * Scheduler) :=
  match ready_queue s with
  | [] => Ok (None, s)
  | _ :: _ =>
      let* '(e, q) := heappop entry_lt (ready_queue s) in
      Ok (Some (entry_task e), with_queue s q (_task_counter s))
  end.

Definition push_back := add_task.

(** The arrival loop of [run]:
    [while task_idx < len(tasks) and tasks[task_idx].arrival_time <= self.time]. *)
Fixpoint arrivals (fuel : nat) (pol : Policy) (tasks : list ref) (σ : store)
    (s : Scheduler) (task_idx : nat) : result (store * Scheduler * nat) :=
  match fuel with
  | S fuel' =>
      if (task_idx <? length tasks)%nat then
        let* r := getitem tasks task_idx in
        if arrival_time (σ r) <=? time s then
          let* '(σ', s') := add_task pol σ s r in
          arrivals fuel' pol tasks σ' s' (task_idx + 1)%nat
        else Ok (σ, s, task_idx)
      else Ok (σ, s, task_idx)
  | O => Ok (σ, s, task_idx)
  end.

Definition append_history (s : Scheduler) (h : hist_entry) : Scheduler :=
  mkScheduler (time s) (ready_queue s) (history s ++ [h]) (completed_tasks s)
    (missed_deadlines s) (_task_counter s).

(** The selected task runs for one unit: its start time is recorded on its
    first unit, the unit is appended to the history and the remaining time
    decreases by one. *)
Definition execute_unit (σ : store) (s : Scheduler) (r : ref) : store * Scheduler :=
  let σ1 :=
    if start_time (σ r) =? -1 then store_set σ r (set_start_time (σ r) (time s))
    else σ in
  let s1 := append_history s (time s, time s + 1, task_id (σ1 r)) in
  let σ2 := store_set σ1 r (set_remaining_time (σ1 r) (remaining_time (σ1 r) - 1)) in
  (σ2, s1).

(** The branch [if current_task.remaining_time == 0]. *)
Definition complete_task (σ : store) (s : Scheduler) (r : ref) : store * Scheduler :=
  let σ1 := store_set σ r (set_completion_time (σ r) (time s + 1)) in
  let '(σ2, missed) :=
    if completion_time (σ1 r) >? absolute_deadline (σ1 r) then
      (store_set σ1 r (set_missed_deadline (σ1 r) true), missed_deadlines s + 1)
    else (σ1, missed_deadlines s) in
  (σ2, mkScheduler (time s) (ready_queue s) (history s)
         (completed_tasks s ++ [r]) missed (_task_counter s)).

(** The body of [if current_task:]. *)
Definition execute (pol : Policy) (σ : store) (s : Scheduler) (r : ref)
    : result (store * Scheduler) :=
  let '(σ1, s1) := execute_unit σ s r in
  if remaining_time (σ1 r) =? 0 then Ok (complete_task σ1 s1 r)
  else push_back pol σ1 s1 r.

Definition advance_time (s : Scheduler) : Scheduler :=
  mkScheduler (time s + 1) (ready_queue s) (history s) (completed_tasks s)
    (missed_deadlines s) (_task_counter s).

(** One iteration of [while self.time < max_time]. *)
Definition step (pol : Policy) (tasks : list ref) (σ : store) (s : Scheduler)
    (task_idx : nat) : result (store * Scheduler * nat) :=
  let* '(σ1, s1, task_idx1) :=
    arrivals (length tasks - task_idx) pol tasks σ s task_idx in
  let* '(current_task, s2) := get_next_task s1 in
  let* '(σ3, s3) :=
    match current_task with
    | Some r => execute pol σ1 s2 r
    | None => Ok (σ1, append_history s2 (time s2, time s2 + 1, IDLE))
    end in
  Ok (σ3, advance_time s3, task_idx1).

Fixpoint run_loop (fuel : nat) (pol : Policy) (tasks : list ref) (max_time : Z)
    (σ : store) (s : Scheduler) (task_idx : nat) : result (store * Scheduler * nat) :=
  match fuel with
  | S fuel' =>
      if time s <? max_time then
        let* '(σ', s', task_idx') := step pol tasks σ s task_idx in
        run_loop fuel' pol tasks max_time σ' s' task_idx'
      else Ok (σ, s, task_idx)
  | O => Ok (σ, s, task_idx)
  end.

(** What a call [scheduler.run(tasks, max_time)] leaves behind: the task
    objects, the scheduler, the caller's list object (sorted in place) and
    the returned value, which is [self.history]. *)
Record Outcome : Type := mkOutcome {
  out_store : store;
  out_sched : Scheduler;
  out_tasks : list ref;
  out_history : list hist_entry
}.

Definition run (pol : Policy) (σ : store) (s : Scheduler) (tasks : list ref)
    (max_time : Z) : result Outcome :=
  let tasks1 := sort_by_key (λ x, arrival_time (σ x)) tasks in
  let* '(σ', s', _) :=
    run_loop (Z.to_nat (max_time - time s)) pol tasks1 max_time σ s 0 in
  Ok (mkOutcome σ' s' tasks1 (history s')).


(** ** The command-line engine of [main.py]

    [main.py] has its own [Task] class and its own EDF engine,
    [EDFTaskScheduler], which scans the task list instead of keeping a
    queue.  Its tasks carry an absolute deadline. *)

Module Cli.

Record Task : Type := mkTask {
  task_id : Z;
  execution_time : Z;
  deadline : Z;
  arrival_time : Z;
  remaining_time : Z;
  start_time : option Z;
  completion_time : option Z;
  is_completed : bool;
  missed_deadline : bool
}.

(** [Task.__init__(task_id, execution_time, deadline, arrival_time=0)] *)
Definition Task_init (task_id execution_time deadline arrival_time : Z) : Task :=
  {| task_id := task_id;
     execution_time := execution_time;
     deadline := deadline;
     arrival_time := arrival_time;
     remaining_time := execution_time;
     start_time := None;
     completion_time := None;
     is_completed := false;
     missed_deadline := false |}.

Definition set_missed_deadline (t : Task) (v : bool) : Task :=
  mkTask (task_id t) (execution_time t) (deadline t) (arrival_time t)
    (remaining_time t) (start_time t) (completion_time t) (is_completed t) v.
Definition set_remaining_time (t : Task) (v : Z) : Task :=
  mkTask (task_id t) (execution_time t) (deadline t) (arrival_time t)
    v (start_time t) (completion_time t) (is_completed t) (missed_deadline t).
Definition set_start_time (t : Task) (v : option Z) : Task :=
  mkTask (task_id t) (execution_time t) (deadline t) (arrival_time t)
    (remaining_time t) v (completion_time t) (is_completed t) (missed_deadline t).
Definition set_completed (t : Task) (v : Z) : Task :=
  mkTask (task_id t) (execution_time t) (deadline t) (arrival_time t)
    (remaining_time t) (start_time t) (Some v) true (missed_deadline t).

Definition store : Type := ref → Task.

Definition store_set (σ : store) (r : ref) (t : Task) : store :=
  λ r', if decide (r' = r) then t else σ r'.

Definition store_of (l : list Task) : store :=
  λ r, nth r l (Task_init 0 0 0 0).

(** A timeline entry [{'time', 'task_id', 'executing'}]; the identifier of
    an idle unit is the string ['IDLE']. *)
Inductive timeline_id : Type := TaskId (n : Z) | Idle.

Record timeline_entry : Type := mkEntry {
  tl_time : Z;
  tl_task_id : timeline_id;
  tl_executing : bool
}.

Record EDFTaskScheduler : Type := mkScheduler {
  tasks : list ref;
  current_time : Z;
  completed_tasks : list ref;
  missed_deadlines_count : Z;
  timeline : list timeline_entry
}.

(** [get_next_ready_task] *)
Definition get_next_ready_task (σ : store) (s : EDFTaskScheduler) : option ref :=
  let ready_tasks :=
    filter (λ r, arrival_time (σ r) ≤ current_time s ∧
                 is_completed (σ r) = false ∧ remaining_time (σ r) > 0)
           (tasks s) in
  match sort_by_key (λ r, deadline (σ r)) ready_tasks with
  | [] => None
  | r :: _ => Some r
  end.

(** [all_tasks_completed] *)
Definition all_tasks_completed (σ : store) (s : EDFTaskScheduler) : bool :=
  forallb (λ r, is_completed (σ r)) (tasks s).

(** The loop [for task in self.tasks] that checks for missed deadlines. *)
Fixpoint check_missed (l : list ref) (now : Z) (σ : store) (count : Z) : store * Z :=
  match l with
  | [] => (σ, count)
  | r :: l' =>
      if negb (is_completed (σ r)) && (remaining_time (σ r) >? 0)
         && (now >? deadline (σ r)) then
        if negb (missed_deadline (σ r)) then
          check_missed l' now (store_set σ r (set_missed_deadline (σ r) true)) (count + 1)
        else check_missed l' now σ count
      else check_missed l' now σ count
  end.

(** One iteration of the loop of [run_scheduler]. *)
Definition step (σ : store) (s : EDFTaskScheduler) : store * EDFTaskScheduler :=
  let '(σ1, count1) := check_missed (tasks s) (current_time s) σ (missed_deadlines_count s) in
  let s1 := mkScheduler (tasks s) (current_time s) (completed_tasks s) count1 (timeline s) in
  let '(σ4, s4) :=
    match get_next_ready_task σ1 s1 with
    | Some r =>
        let tl := timeline s1 ++ [mkEntry (current_time s1) (TaskId (task_id (σ1 r))) true] in
        let σ2 := store_set σ1 r (set_remaining_time (σ1 r) (remaining_time (σ1 r) - 1)) in
        let σ3 :=
          match start_time (σ2 r) with
          | None => store_set σ2 r (set_start_time (σ2 r) (Some (current_time s1)))
          | Some _ => σ2
          end in
        if remaining_time (σ3 r) =? 0 then
          let σ4 := store_set σ3 r (set_completed (σ3 r) (current_time s1)) in
          let completed := completed_tasks s1 ++ [r] in
          if current_time s1 >? deadline (σ4 r) then
            (store_set σ4 r (set_missed_deadline (σ4 r) true),
             mkScheduler (tasks s1) (current_time s1) completed
               (missed_deadlines_count s1 + 1) tl)
          else
            (σ4, mkScheduler (tasks s1) (current_time s1) completed
                   (missed_deadlines_count s1) tl)
        else
          (σ3, mkScheduler (tasks s1) (current_time s1) (completed_tasks s1)
                 (missed_deadlines_count s1) tl)
    | None =>
        (σ1, mkScheduler (tasks s1) (current_time s1) (completed_tasks s1)
               (missed_deadlines_count s1)
               (timeline s1 ++ [mkEntry (current_time s1) Idle false]))
    end in
  (σ4, mkScheduler (tasks s4) (current_time s4 + 1) (completed_tasks s4)
         (missed_deadlines_count s4) (timeline s4)).

(** [while self.current_time <= max_time and not self.all_tasks_completed()] *)
Fixpoint loop (fuel : nat) (max_time : Z) (σ : store) (s : EDFTaskScheduler)
    : store * EDFTaskScheduler :=
  match fuel with
  | S fuel' =>
      if (current_time s <=? max_time) && negb (all_tasks_completed σ s) then
        let '(σ', s') := step σ s in loop fuel' max_time σ' s'
      else (σ, s)
  | O => (σ, s)
  end.

(** [run_scheduler]: the scheduler state is reset, the task list is sorted
    by deadline and the loop runs up to the largest deadline. *)
Definition run_scheduler (σ : store) (s : EDFTaskScheduler) : store * EDFTaskScheduler :=
  let tasks1 := sort_by_key (λ r, deadline (σ r)) (tasks s) in
  let max_time :=
    match tasks1 with
    | [] => 0
    | r :: rest => foldl (λ m r', Z.max m (deadline (σ r'))) (deadline (σ r)) rest
    end in
  loop (Z.to_nat (max_time + 1)) max_time σ (mkScheduler tasks1 0 [] 0 []).

End Cli.

(** ** The window of [GUI.py]

    [SchedulerApp] keeps one row [(name, arrival, burst, deadline, period)]
    per task in its table, runs the engine of [scheduler.py] on tasks
    rebuilt from the rows, draws the history as a chart of merged
    segments and lists it with a mark on late entries. *)

Module Gui.




(** [draw_gantt]: one turn of the loop that merges contiguous entries; the
    state is the list [merged] and the current segment. *)
Definition merge_step (acc : list hist_entry * hist_entry) (h : hist_entry)
    : list hist_entry * hist_entry :=
  let '(merged, (curr_start, curr_end, curr_task)) := acc in
  let '(start, end_, task) := h in
  if bool_decide (task = curr_task) && (start =? curr_end) then
    (merged, (curr_start, end_, curr_task))
  else
    (merged ++ [(curr_start, curr_end, curr_task)], (start, end_, task)).

(** [draw_gantt]: the list [merged]. *)
Definition merge_contiguous (history : list hist_entry) : list hist_entry :=
  match history with
  | [] => []
  | h0 :: rest =>
      let '(merged, curr) := foldl merge_step ([], h0) rest in
      merged ++ [curr]
  end.


End Gui.

(** * Specification vocabulary *)

(** ** Binary heaps *)

Section heap_order.
Context {A : Type} (ltb : A → A → bool).

(** [le x y]: [y] is not below [x]. *)
Definition le (x y : A) : Prop := ltb y x = false.

Definition parent (i : nat) : nat := Nat.shiftr (i - 1) 1.

(** The heap invariant of [heapq]: no element is below its parent. *)
Definition is_heap (h : list A) : Prop :=
  ∀ i x p, (0 < i)%nat → h !! i = Some x → h !! parent i = Some p → le p x.

(** The array is heap-ordered except that position [pos] is a hole
    waiting for [newitem] ([_siftdown]). *)
Definition sd_inv (h : list A) (pos : nat) (newitem : A) : Prop :=
  (pos < length h)%nat ∧
  (∀ i x p, (0 < i)%nat → i ≠ pos →
     h !! i = Some x → h !! parent i = Some p → le p x) ∧
  (∀ c x, (0 < c)%nat → parent c = pos → h !! c = Some x → le newitem x) ∧
  (∀ c x p, (0 < c)%nat → (0 < pos)%nat → parent c = pos →
     h !! c = Some x → h !! parent pos = Some p → le p x).

(** The array is heap-ordered except below the hole [pos] ([_siftup]). *)
Definition su_inv (h : list A) (pos : nat) : Prop :=
  (pos < length h)%nat ∧
  (∀ i x p, (0 < i)%nat → parent i ≠ pos →
     h !! i = Some x → h !! parent i = Some p → le p x) ∧
  (∀ c x p, (0 < c)%nat → (0 < pos)%nat → parent c = pos →
     h !! c = Some x → h !! parent pos = Some p → le p x).
End heap_order.

(** ["<"] never raises between two different elements of [l] and agrees
    with the boolean order [ltb]. *)
Definition comparable {A : Type} (lt : A → A → result bool) (ltb : A → A → bool)
    (l : list A) : Prop :=
  ∀ x y, x ∈ l → y ∈ l → x ≠ y → lt x y = Ok (ltb x y).

(** ** The order on ready-queue entries *)

(** The boolean order that ["<"] computes on the first three components. *)
Definition entry_ltb (x y : entry) : bool :=
  let '(p1, a1, c1, _) := x in
  let '(p2, a2, c2, _) := y in
  if negb (p1 =? p2) then p1 <? p2
  else if negb (a1 =? a2) then a1 <? a2
  else c1 <? c2.

(** The lexicographic order of the specification: priority key ascending,
    then arrival time ascending, then sequence number ascending. *)
Definition lex_lt (x y : entry) : Prop :=
  entry_priority x < entry_priority y ∨
  (entry_priority x = entry_priority y ∧
   (entry_arrival x < entry_arrival y ∨
    (entry_arrival x = entry_arrival y ∧ entry_counter x < entry_counter y))).

Definition lex_le (x y : entry) : Prop :=
  lex_lt x y ∨
  (entry_priority x = entry_priority y ∧ entry_arrival x = entry_arrival y ∧
   entry_counter x = entry_counter y).

(** The ready queue is a heap whose sequence numbers are pairwise distinct
    and all below the scheduler's next number. *)
Definition queue_ok (q : list entry) (next : Z) : Prop :=
  is_heap entry_ltb q ∧
  NoDup (entry_counter <$> q) ∧
  ∀ e, e ∈ q → entry_counter e < next.

(** ** The loop body as a transition relation *)

(** The entry that [add_task] pushes for task [r]. *)
Definition entry_of (pol : Policy) (σ : store) (next : Z) (r : ref) : entry :=
  (priority pol (σ r), arrival_time (σ r), next, r).

(** The arrival loop: tasks are admitted from the cursor on while their
    arrival time has been reached. *)
Inductive admits (pol : Policy) (tasks : list ref)
    : store → Scheduler → nat → store → Scheduler → nat → Prop :=
  | admits_stop σ s idx :
      (tasks !! idx = None ∨
       ∃ r, tasks !! idx = Some r ∧ time s < arrival_time (σ r)) →
      admits pol tasks σ s idx σ s idx
  | admits_push σ s idx r q σ' s' idx' :
      tasks !! idx = Some r →
      arrival_time (σ r) ≤ time s →
      q ≡ₚ entry_of pol σ (_task_counter s) r :: ready_queue s →
      queue_ok q (_task_counter s + 1) →
      admits pol tasks
        (store_set σ r (set_counter (σ r) (_task_counter s)))
        (with_queue s q (_task_counter s + 1)) (idx + 1) σ' s' idx' →
      admits pol tasks σ s idx σ' s' idx'.

(** One iteration of the main loop: an idle unit, a unit that completes the
    selected task, or a unit after which the selected task is pushed back. *)
Inductive steps (pol : Policy) (tasks : list ref)
    : store → Scheduler → nat → store → Scheduler → nat → Prop :=
  | steps_idle σ s idx σ1 s1 idx1 :
      admits pol tasks σ s idx σ1 s1 idx1 →
      ready_queue s1 = [] →
      steps pol tasks σ s idx
        σ1 (advance_time (append_history s1 (time s1, time s1 + 1, IDLE))) idx1
  | steps_complete σ s idx σ1 s1 idx1 e q σ2 s2 σ3 s3 :
      admits pol tasks σ s idx σ1 s1 idx1 →
      ready_queue s1 ≡ₚ e :: q →
      (∀ y, y ∈ ready_queue s1 → lex_le e y) →
      queue_ok q (_task_counter s1) →
      execute_unit σ1 (with_queue s1 q (_task_counter s1)) (entry_task e) = (σ2, s2) →
      remaining_time (σ2 (entry_task e)) = 0 →
      complete_task σ2 s2 (entry_task e) = (σ3, s3) →
      steps pol tasks σ s idx σ3 (advance_time s3) idx1
  | steps_preempt σ s idx σ1 s1 idx1 e q σ2 s2 q' :
      admits pol tasks σ s idx σ1 s1 idx1 →
      ready_queue s1 ≡ₚ e :: q →
      (∀ y, y ∈ ready_queue s1 → lex_le e y) →
      queue_ok q (_task_counter s1) →
      execute_unit σ1 (with_queue s1 q (_task_counter s1)) (entry_task e) = (σ2, s2) →
      remaining_time (σ2 (entry_task e)) ≠ 0 →
      q' ≡ₚ entry_of pol σ2 (_task_counter s2) (entry_task e) :: ready_queue s2 →
      queue_ok q' (_task_counter s2 + 1) →
      steps pol tasks σ s idx
        (store_set σ2 (entry_task e)
           (set_counter (σ2 (entry_task e)) (_task_counter s2)))
        (advance_time (with_queue s2 q' (_task_counter s2 + 1))) idx1.

(** The main loop from a state to the state in which it exits. *)
Inductive runs (pol : Policy) (tasks : list ref) (max_time : Z)
    : store → Scheduler → nat → store → Scheduler → nat → Prop :=
  | runs_exit σ s idx :
      max_time ≤ time s →
      runs pol tasks max_time σ s idx σ s idx
  | runs_iter σ s idx σ1 s1 idx1 σ' s' idx' :
      time s < max_time →
      steps pol tasks σ s idx σ1 s1 idx1 →
      runs pol tasks max_time σ1 s1 idx1 σ' s' idx' →
      runs pol tasks max_time σ s idx σ' s' idx'.

(** The scheduler states that arise from a fresh scheduler. *)
Inductive reachable (pol : Policy) : Scheduler → Prop :=
  | reachable_init : reachable pol Scheduler_init
  | reachable_add σ s r σ' s' :
      reachable pol s → add_task pol σ s r = Ok (σ', s') → reachable pol s'
  | reachable_next s o s' :
      reachable pol s → get_next_task s = Ok (o, s') → reachable pol s'
  | reachable_step tasks σ s idx σ' s' idx' :
      reachable pol s → step pol tasks σ s idx = Ok (σ', s', idx') →
      reachable pol s'
  | reachable_run tasks σ s max_time o :
      reachable pol s → run pol σ s tasks max_time = Ok o →
      reachable pol (out_sched o).

(** The fields of a task that are fixed at construction. *)
Definition same_static (t t' : Task) : Prop :=
  task_id t' = task_id t ∧ arrival_time t' = arrival_time t ∧
  burst_time t' = burst_time t ∧ deadline t' = deadline t ∧
  period t' = period t ∧ absolute_deadline t' = absolute_deadline t.

(** ** Invariants of a run *)

(** Every queued entry belongs to a task of the task list. *)
Definition queue_in (tasks : list ref) (s : Scheduler) : Prop :=
  ∀ e, e ∈ ready_queue s → entry_task e ∈ tasks.

(** The history has one entry [(i, i+1, x)] per elapsed unit [i], where [x]
    is the idle marker or the identifier of a task of the list. *)
Definition hist_ok (tasks : list ref) (σ : store) (s : Scheduler) : Prop :=
  0 ≤ time s ∧
  length (history s) = Z.to_nat (time s) ∧
  ∀ i h, history s !! i = Some h →
    ∃ x, h = (Z.of_nat i, Z.of_nat i + 1, x) ∧
         (x = IDLE ∨ ∃ r, r ∈ tasks ∧ x = task_id (σ r)).

(** ** The effect of one unit on the fields that a run reads *)

(** Nothing but the sequence number of the task object has changed. *)
Definition untouched (t t' : Task) : Prop :=
  same_static t t' ∧
  remaining_time t' = remaining_time t ∧
  completion_time t' = completion_time t ∧
  missed_deadline t' = missed_deadline t.

(** What the part of an iteration after the arrival loop does. *)
Inductive executes : store → Scheduler → store → Scheduler → Prop :=
  | executes_idle σ s σ' s' :
      ready_queue s = [] → ready_queue s' = [] →
      (∀ r, untouched (σ r) (σ' r)) →
      history s' = history s ++ [(time s, time s + 1, IDLE)] →
      completed_tasks s' = completed_tasks s →
      missed_deadlines s' = missed_deadlines s →
      time s' = time s + 1 →
      executes σ s σ' s'
  | executes_complete σ s σ' s' e q :
      ready_queue s ≡ₚ e :: q → ready_queue s' = q →
      (∀ r, r ≠ entry_task e → untouched (σ r) (σ' r)) →
      same_static (σ (entry_task e)) (σ' (entry_task e)) →
      remaining_time (σ (entry_task e)) = 1 →
      remaining_time (σ' (entry_task e)) = 0 →
      completion_time (σ' (entry_task e)) = time s + 1 →
      missed_deadline (σ' (entry_task e)) =
        (if time s + 1 >? absolute_deadline (σ (entry_task e)) then true
         else missed_deadline (σ (entry_task e))) →
      history s' = history s ++ [(time s, time s + 1, task_id (σ (entry_task e)))] →
      completed_tasks s' = completed_tasks s ++ [entry_task e] →
      missed_deadlines s' =
        (if time s + 1 >? absolute_deadline (σ (entry_task e))
         then missed_deadlines s + 1 else missed_deadlines s) →
      time s' = time s + 1 →
      executes σ s σ' s'
  | executes_preempt σ s σ' s' e q e' :
      ready_queue s ≡ₚ e :: q → ready_queue s' ≡ₚ e' :: q →
      entry_task e' = entry_task e →
      (∀ r, r ≠ entry_task e → untouched (σ r) (σ' r)) →
      same_static (σ (entry_task e)) (σ' (entry_task e)) →
      remaining_time (σ (entry_task e)) ≠ 1 →
      remaining_time (σ' (entry_task e)) = remaining_time (σ (entry_task e)) - 1 →
      completion_time (σ' (entry_task e)) = completion_time (σ (entry_task e)) →
      missed_deadline (σ' (entry_task e)) = missed_deadline (σ (entry_task e)) →
      history s' = history s ++ [(time s, time s + 1, task_id (σ (entry_task e)))] →
      completed_tasks s' = completed_tasks s →
      missed_deadlines s' = missed_deadlines s →
      time s' = time s + 1 →
      executes σ s σ' s'.

(** The number of history entries that bear the identifier [x]. *)
Definition count_id (x : string) (h : list hist_entry) : Z :=
  Z.of_nat (length (filter (λ e, e.2 = x) h)).

(** The number of tasks of [l] whose [missed_deadline] flag is set. *)
Definition count_missed (σ : store) (l : list ref) : Z :=
  Z.of_nat (length (filter (λ r, missed_deadline (σ r) = true) l)).

(** A task object as [Task.__init__] leaves it. *)
Definition constructed (t : Task) : Prop :=
  ∃ id a b d p, Task_init id a b d p = Ok t.

(** The task set of the data model: objects fresh from the constructor,
    with positive burst times and pairwise distinct identifiers, none of
    which is the idle marker. *)
Definition well_formed (σ : store) (tasks : list ref) : Prop :=
  NoDup ((λ r, task_id (σ r)) <$> tasks) ∧
  ∀ r, r ∈ tasks →
    constructed (σ r) ∧ 0 < burst_time (σ r) ∧ task_id (σ r) ≠ IDLE.

(** The invariant of the main loop on a well-formed task set. *)
Definition run_inv (tasks : list ref) (σ : store) (s : Scheduler) (idx : nat) : Prop :=
  0 ≤ time s ∧
  NoDup ((λ r, task_id (σ r)) <$> tasks) ∧
  (∀ r, r ∈ tasks → task_id (σ r) ≠ IDLE) ∧
  NoDup (entry_task <$> ready_queue s) ∧
  (∀ e, e ∈ ready_queue s →
     entry_task e ∈ take idx tasks ∧ 0 < remaining_time (σ (entry_task e))) ∧
  (∀ r, r ∈ drop idx tasks → 0 < remaining_time (σ r)) ∧
  (∀ r, r ∈ tasks → 0 ≤ remaining_time (σ r)) ∧
  (∀ r, r ∈ tasks → (remaining_time (σ r) = 0 ↔ r ∈ completed_tasks s)) ∧
  (∀ r, r ∈ tasks → (completion_time (σ r) ≠ -1 ↔ r ∈ completed_tasks s)) ∧
  (∀ r, r ∈ tasks →
     remaining_time (σ r) = burst_time (σ r) - count_id (task_id (σ r)) (history s)) ∧
  (∀ r, r ∈ tasks →
     (missed_deadline (σ r) = true ↔
      r ∈ completed_tasks s ∧ absolute_deadline (σ r) < completion_time (σ r))) ∧
  NoDup (completed_tasks s) ∧
  (∀ r, r ∈ completed_tasks s → r ∈ tasks) ∧
  missed_deadlines s = count_missed σ (completed_tasks s).

(** ** Two runs side by side *)

(** Two computations raise the same exception or return related values. *)
Inductive result_rel {A B : Type} (P : A → B → Prop) : result A → result B → Prop :=
  | result_rel_Ok a b : P a b → result_rel P (Ok a) (Ok b)
  | result_rel_Raise e : result_rel P (Raise e) (Raise e).

(** A correspondence between the task objects of two runs that pairs each
    object with at most one object of the other run. *)
Definition one_to_one (R : ref → ref → Prop) : Prop :=
  (∀ a b b', R a b → R a b' → b = b') ∧ (∀ a a' b, R a b → R a' b → a = a').

Definition entry_rel (R : ref → ref → Prop) (x y : entry) : Prop :=
  entry_priority x = entry_priority y ∧ entry_arrival x = entry_arrival y ∧
  entry_counter x = entry_counter y ∧ R (entry_task x) (entry_task y).

(** Corresponding objects have the same contents. *)
Definition store_rel (R : ref → ref → Prop) (σ1 σ2 : store) : Prop :=
  ∀ r1 r2, R r1 r2 → σ1 r1 = σ2 r2.

Definition sched_rel (R : ref → ref → Prop) (s1 s2 : Scheduler) : Prop :=
  time s1 = time s2 ∧
  Forall2 (entry_rel R) (ready_queue s1) (ready_queue s2) ∧
  history s1 = history s2 ∧
  Forall2 R (completed_tasks s1) (completed_tasks s2) ∧
  missed_deadlines s1 = missed_deadlines s2 ∧
  _task_counter s1 = _task_counter s2.

Definition state_rel (R : ref → ref → Prop)
    (x y : store * Scheduler) : Prop :=
  store_rel R x.1 y.1 ∧ sched_rel R x.2 y.2.

Definition loop_rel (R : ref → ref → Prop)
    (x y : store * Scheduler * nat) : Prop :=
  state_rel R x.1 y.1 ∧ x.2 = y.2.

(** The [i]-th task of one list corresponds to the [i]-th task of the other. *)
Definition paired (l1 l2 : list ref) (r1 r2 : ref) : Prop :=
  ∃ i, l1 !! i = Some r1 ∧ l2 !! i = Some r2.

(** ** One unit in detail *)

(** What the part of an iteration after the arrival loop does, with the
    selected entry, the start time and the entry that is pushed back. *)
Inductive unit_step (pol : Policy) : store → Scheduler → store → Scheduler → Prop :=
  | unit_idle σ s σ' s' :
      ready_queue s = [] → ready_queue s' = [] →
      (∀ r, untouched (σ r) (σ' r) ∧ start_time (σ' r) = start_time (σ r)) →
      history s' = history s ++ [(time s, time s + 1, IDLE)] →
      completed_tasks s' = completed_tasks s →
      time s' = time s + 1 →
      unit_step pol σ s σ' s'
  | unit_run σ s σ' s' e q :
      ready_queue s ≡ₚ e :: q →
      (∀ y, y ∈ ready_queue s → lex_le e y) →
      (∀ r, r ≠ entry_task e →
         untouched (σ r) (σ' r) ∧ start_time (σ' r) = start_time (σ r)) →
      same_static (σ (entry_task e)) (σ' (entry_task e)) →
      remaining_time (σ' (entry_task e)) = remaining_time (σ (entry_task e)) - 1 →
      start_time (σ' (entry_task e)) =
        (if start_time (σ (entry_task e)) =? -1 then time s
         else start_time (σ (entry_task e))) →
      history s' = history s ++ [(time s, time s + 1, task_id (σ (entry_task e)))] →
      time s' = time s + 1 →
      (remaining_time (σ' (entry_task e)) = 0 ∧ ready_queue s' = q ∧
       completion_time (σ' (entry_task e)) = time s + 1 ∧
       completed_tasks s' = completed_tasks s ++ [entry_task e]
       ∨
       remaining_time (σ' (entry_task e)) ≠ 0 ∧
       (∃ c, ready_queue s' ≡ₚ
               (priority pol (σ' (entry_task e)), arrival_time (σ' (entry_task e)),
                c, entry_task e) :: q) ∧
       completion_time (σ' (entry_task e)) = completion_time (σ (entry_task e)) ∧
       completed_tasks s' = completed_tasks s) →
      unit_step pol σ s σ' s'.

(** Arrival and queue invariant: the admitted tasks have arrived, every
    admitted task with work left is queued under its own priority key and
    arrival time, and no task has run for more units than have elapsed
    since its arrival.  The fixed fields are read in the initial store
    [σ0]. *)
Definition arr_inv (pol : Policy) (σ0 : store) (tasks : list ref)
    (σ : store) (s : Scheduler) (idx : nat) : Prop :=
  (∀ r, same_static (σ0 r) (σ r)) ∧
  (∀ r, r ∈ take idx tasks → arrival_time (σ0 r) ≤ time s) ∧
  (∀ r, r ∈ take idx tasks → 0 < remaining_time (σ r) →
     ∃ e, e ∈ ready_queue s ∧ entry_task e = r) ∧
  (∀ e, e ∈ ready_queue s →
     entry_priority e = priority pol (σ0 (entry_task e)) ∧
     entry_arrival e = arrival_time (σ0 (entry_task e))) ∧
  (∀ r, r ∈ tasks →
     burst_time (σ0 r) - remaining_time (σ r) ≤
     Z.max 0 (time s - arrival_time (σ0 r))).

(** Start times: a task that has not started has no history entry; the
    start time of a task that has started is the unit of its first history
    entry and is not before its arrival. *)
Definition start_inv (σ0 : store) (tasks : list ref) (σ : store) (s : Scheduler)
    : Prop :=
  ∀ r, r ∈ tasks →
    (start_time (σ r) = -1 →
       ∀ j h, history s !! j = Some h → h.2 ≠ task_id (σ0 r)) ∧
    (start_time (σ r) ≠ -1 →
       arrival_time (σ0 r) ≤ start_time (σ r) ∧
       0 ≤ start_time (σ r) < time s ∧
       (∃ h, history s !! Z.to_nat (start_time (σ r)) = Some h ∧
             h.2 = task_id (σ0 r)) ∧
       ∀ j h, history s !! j = Some h → h.2 = task_id (σ0 r) →
              start_time (σ r) ≤ Z.of_nat j).

(** Completions: the completed list is in strictly increasing order of
    completion time; a completed task finished no earlier than its arrival
    plus its burst time, its last unit is the one before its completion
    time and it has no later history entry. *)
Definition comp_inv (σ0 : store) (σ : store) (s : Scheduler) : Prop :=
  StronglySorted (λ a b, completion_time (σ a) < completion_time (σ b))
    (completed_tasks s) ∧
  ∀ r, r ∈ completed_tasks s →
    arrival_time (σ0 r) + burst_time (σ0 r) ≤ completion_time (σ r) ∧
    completion_time (σ r) ≤ time s ∧
    (∃ h, history s !! Z.to_nat (completion_time (σ r) - 1) = Some h ∧
          h.2 = task_id (σ0 r)) ∧
    ∀ j h, history s !! j = Some h → h.2 = task_id (σ0 r) →
           Z.of_nat j < completion_time (σ r).

(** The invariants of a run on a well-formed task set, together. *)
Definition engine_inv (pol : Policy) (σ0 : store) (tasks : list ref)
    (σ : store) (s : Scheduler) (idx : nat) : Prop :=
  run_inv tasks σ s idx ∧
  length (history s) = Z.to_nat (time s) ∧
  arr_inv pol σ0 tasks σ s idx ∧
  start_inv σ0 tasks σ s ∧
  comp_inv σ0 σ s.

(** The sum of [f] over the tasks of a list. *)
Definition sum_over (f : ref → Z) (l : list ref) : Z :=
  foldr (λ r acc, f r + acc) 0 l.

(** ** Segments of the chart *)

(** The unit entries that a segment [(s, e, t)] stands for. *)
Definition expand (seg : hist_entry) : list hist_entry :=
  let '(s, e, t) := seg in
  (λ k, (s + Z.of_nat k, s + Z.of_nat k + 1, t)) <$> seq 0 (Z.to_nat (e - s)).

Definition expand_all (l : list hist_entry) : list hist_entry :=
  foldr (λ seg acc, expand seg ++ acc) [] l.

(** The second segment continues the first: same task, and it starts where
    the first ends. *)
Definition continues (a b : hist_entry) : Prop :=
  b.2 = a.2 ∧ b.1.1 = a.1.2.

(** No segment of the list continues the one before it. *)
Fixpoint maximal (l : list hist_entry) : Prop :=
  match l with
  | [] => True
  | a :: l' =>
      match l' with
      | [] => True
      | b :: _ => ¬ continues a b
      end ∧ maximal l'
  end.


(** ** The engine of [main.py] *)

(** A task of [main.py] is ready at the scheduler's current time. *)
Definition cli_ready (σ : Cli.store) (s : Cli.EDFTaskScheduler) (r : ref) : Prop :=
  Cli.arrival_time (σ r) ≤ Cli.current_time s ∧
  Cli.is_completed (σ r) = false ∧ Cli.remaining_time (σ r) > 0.

(** A task of [main.py] is overdue at time [now]: not completed, with work
    left, and [now] is past its deadline. *)
Definition cli_overdue (now : Z) (t : Cli.Task) : bool :=
  negb (Cli.is_completed t) && (Cli.remaining_time t >? 0) && (now >? Cli.deadline t).

(** The timeline has one entry per elapsed unit; entry [k] is for time [k]
    and is marked as executing exactly when it bears a task identifier. *)
Definition cli_timeline_ok (s : Cli.EDFTaskScheduler) : Prop :=
  length (Cli.timeline s) = Z.to_nat (Cli.current_time s) ∧
  ∀ k e, Cli.timeline s !! k = Some e →
    Cli.tl_time e = Z.of_nat k ∧
    Cli.tl_executing e =
      match Cli.tl_task_id e with Cli.TaskId _ => true | Cli.Idle => false end.

(** ** The two policies side by side *)

(** Every task object has the same priority key under both policies. *)
Definition policies_agree (σ : store) : Prop :=
  ∀ r, priority EDF (σ r) = priority RMS (σ r).

(** ** A later state of a run against an earlier one *)

(** The later state [(σ', s')] keeps the past of [(σ, s)]: the history and
    the completed list have only grown at the end, no remaining time has
    grown, and what is recorded of the completed tasks is unchanged. *)
Definition keeps_past (σ : store) (s : Scheduler) (σ' : store) (s' : Scheduler)
    : Prop :=
  (∃ rest, history s' = history s ++ rest) ∧
  (∃ rest, completed_tasks s' = completed_tasks s ++ rest) ∧
  (∀ r, remaining_time (σ' r) ≤ remaining_time (σ r)) ∧
  (∀ r, r ∈ completed_tasks s →
     completion_time (σ' r) = completion_time (σ r) ∧
     missed_deadline (σ' r) = missed_deadline (σ r) ∧
     remaining_time (σ' r) = remaining_time (σ r)).

(** * Lemmas *)

Lemma parent_div2 i : parent i = ((i - 1) / 2)%nat.
Proof. unfold parent. rewrite Nat.shiftr_div_pow2. reflexivity. Qed.

Lemma parent_lt i : (0 < i)%nat → (parent i < i)%nat.
Proof. rewrite parent_div2. intros. apply Nat.Div0.div_lt_upper_bound. lia. Qed.

Lemma parent_child_l i : parent (2 * i + 1) = i.
Proof.
  rewrite parent_div2. replace (2 * i + 1 - 1)%nat with (i * 2)%nat by lia.
  apply Nat.div_mul. lia.
Qed.

Lemma parent_child_r i : parent (2 * i + 1 + 1) = i.
Proof.
  rewrite parent_div2. replace (2 * i + 1 + 1 - 1)%nat with (1 + i * 2)%nat by lia.
  rewrite Nat.div_add by lia. reflexivity.
Qed.

Lemma parent_inv c i :
  (0 < c)%nat → parent c = i → c = (2 * i + 1)%nat ∨ c = (2 * i + 1 + 1)%nat.
Proof.
  rewrite parent_div2. intros Hc <-.
  pose proof (Nat.div_mod_eq (c - 1) 2) as H.
  pose proof (Nat.mod_upper_bound (c - 1) 2) as H2. lia.
Qed.

(** ** Python lists *)

Section pylist_facts.
Context {A : Type}.
Implicit Types l h : list A.

Lemma getitem_Some l i x : l !! i = Some x → getitem l i = Ok x.
Proof. unfold getitem. by intros ->. Qed.

Lemma getitem_Ok l i x : getitem l i = Ok x → l !! i = Some x.
Proof. unfold getitem. by destruct (l !! i); intros [= ->]. Qed.

Lemma setitem_lt l i x : (i < length l)%nat → setitem l i x = Ok (<[i := x]> l).
Proof. unfold setitem. intros H. apply Nat.ltb_lt in H. by rewrite H. Qed.

Lemma list_pop_app l x : list_pop (l ++ [x]) = Ok (x, l).
Proof.
  unfold list_pop. rewrite last_snoc, length_app. simpl.
  replace (length l + 1 - 1)%nat with (length l) by lia.
  by rewrite take_app_length.
Qed.

Lemma list_pop_nil : list_pop (@nil A) = Raise IndexError.
Proof. reflexivity. Qed.

Lemma snoc_cases l : l = [] ∨ ∃ l' x, l = l' ++ [x].
Proof.
  induction l as [|a l IH] using rev_ind; [by left | right; eauto].
Qed.

Lemma cons_insert_perm h j x y :
  h !! j = Some y → y :: <[j := x]> h ≡ₚ x :: h.
Proof.
  revert j. induction h as [|a h IH]; intros [|j]; simpl; try done.
  - intros [= ->]. apply perm_swap.
  - intros Hj. rewrite (perm_swap a y), (IH _ Hj). apply perm_swap.
Qed.

Lemma cons_insert_exchange h i x y :
  (i < length h)%nat → x :: <[i := y]> h ≡ₚ y :: <[i := x]> h.
Proof.
  intros Hi. destruct (lookup_lt_is_Some_2 h i Hi) as [z Hz].
  apply (Permutation_cons_inv (a := z)).
  rewrite (perm_swap x z), (cons_insert_perm _ _ _ _ Hz).
  rewrite (perm_swap y z), (cons_insert_perm _ _ _ _ Hz).
  apply perm_swap.
Qed.

(** Moving the hole: filling the hole [i] with the element at [j] and
    putting the pending item at [j] permutes the array. *)
Lemma insert_swap_perm h i j x y :
  i ≠ j → (i < length h)%nat → h !! j = Some y →
  <[j := x]> (<[i := y]> h) ≡ₚ <[i := x]> h.
Proof.
  revert i j. induction h as [|a h IH]; intros [|i] [|j]; simpl; try done; try lia.
  - intros _ _ Hj. by apply cons_insert_perm.
  - intros _ Hi [= ->]. apply cons_insert_exchange. lia.
  - intros Hne Hi Hj. f_equiv. apply IH; [congruence | lia | done].
Qed.
End pylist_facts.

(** ** Correctness of [heapq] *)

Section heapq_correct.
Context {A : Type} (lt : A → A → result bool) (ltb : A → A → bool).
Hypothesis ltb_asym : ∀ x y, ltb x y = true → ltb y x = false.
Hypothesis le_trans : ∀ x y z, le ltb x y → le ltb y z → le ltb x z.

Local Abbreviation le := (le ltb).
Local Abbreviation is_heap := (is_heap ltb).
Local Abbreviation sd_inv := (sd_inv ltb).
Local Abbreviation su_inv := (su_inv ltb).
Local Abbreviation comparable := (comparable lt ltb).

Lemma le_refl x : le x x.
Proof. unfold le. destruct (ltb x x) eqn:E; [| done].
  pose proof (ltb_asym _ _ E). congruence.
Qed.

Lemma lt_le x y : ltb x y = true → le x y.
Proof. apply ltb_asym. Qed.

(** Two different positions of a duplicate-free array compare without
    raising. *)
Lemma comparable_lookup l i j x y :
  NoDup l → comparable l → i ≠ j → l !! i = Some x → l !! j = Some y →
  lt x y = Ok (ltb x y).
Proof.
  intros Hnd Hc Hij Hi Hj. apply Hc.
  - eapply list_elem_of_lookup_2; eauto.
  - eapply list_elem_of_lookup_2; eauto.
  - intros ->. apply Hij. eapply NoDup_lookup; eauto.
Qed.

Lemma comparable_perm l l' : l ≡ₚ l' → comparable l → comparable l'.
Proof. intros Hp Hc x y Hx Hy. apply Hc; by rewrite Hp. Qed.

(** The root of a heap is a minimum. *)
Lemma heap_root_min h m :
  is_heap h → h !! 0%nat = Some m → ∀ i x, h !! i = Some x → le m x.
Proof.
  intros Hh Hm i. induction i as [i IH] using lt_wf_ind. intros x Hx.
  destruct (decide (i = 0)%nat) as [-> | Hne].
  - rewrite Hm in Hx. injection Hx as <-. apply le_refl.
  - assert (0 < i)%nat as Hpos by lia.
    pose proof (parent_lt i Hpos) as Hlt.
    destruct (lookup_lt_is_Some_2 h (parent i)) as [p Hp].
    { apply lookup_lt_Some in Hx. lia. }
    eapply le_trans; [apply (IH _ Hlt _ Hp) | by apply (Hh i)].
Qed.

(** *** [_siftdown] *)

Lemma sd_inv_fill h pos new :
  sd_inv h pos new →
  (pos = 0%nat ∨ ∃ p, h !! parent pos = Some p ∧ le p new) →
  is_heap (<[pos := new]> h).
Proof.
  intros (Hlen & H1 & H2 & H3) Hp i x p Hi Hx Hpx.
  destruct (decide (i = pos)) as [-> | Hne].
  - rewrite list_lookup_insert_eq in Hx by done. injection Hx as <-.
    pose proof (parent_lt pos Hi).
    rewrite list_lookup_insert_ne in Hpx by lia.
    destruct Hp as [-> | (p' & Hp' & Hle)]; [lia | congruence].
  - rewrite list_lookup_insert_ne in Hx by done.
    destruct (decide (parent i = pos)) as [E | E].
    + rewrite E, list_lookup_insert_eq in Hpx by done. injection Hpx as <-.
      by apply (H2 i).
    + rewrite list_lookup_insert_ne in Hpx by done. by apply (H1 i).
Qed.

Lemma sd_inv_up h pos new p :
  sd_inv h pos new → (0 < pos)%nat → h !! parent pos = Some p →
  ltb new p = true →
  sd_inv (<[pos := p]> h) (parent pos) new.
Proof.
  intros (Hlen & H1 & H2 & H3) Hpos Hp Hlt.
  pose proof (parent_lt pos Hpos) as Hpp.
  split; [rewrite length_insert; lia |].
  split; [| split].
  - intros i x q Hi Hne Hx Hq.
    destruct (decide (i = pos)) as [-> | Hip].
    + rewrite list_lookup_insert_eq in Hx by done. injection Hx as <-.
      rewrite list_lookup_insert_ne in Hq by lia.
      rewrite Hp in Hq. injection Hq as <-. apply le_refl.
    + rewrite list_lookup_insert_ne in Hx by done.
      destruct (decide (parent i = pos)) as [E | E].
      * rewrite E, list_lookup_insert_eq in Hq by done. injection Hq as <-.
        by apply (H3 i).
      * rewrite list_lookup_insert_ne in Hq by done. by apply (H1 i).
  - intros c x Hc Hpc Hx.
    destruct (decide (c = pos)) as [-> | Hcp].
    + rewrite list_lookup_insert_eq in Hx by done. injection Hx as <-.
      by apply lt_le.
    + rewrite list_lookup_insert_ne in Hx by done.
      eapply le_trans; [by apply lt_le |].
      apply (H1 c); [done | done | done | by rewrite Hpc].
  - intros c x q Hc Hpp0 Hpc Hx Hq.
    pose proof (parent_lt _ Hpp0).
    rewrite list_lookup_insert_ne in Hq by lia.
    assert (le q p) as Hqp by (apply (H1 (parent pos)); [done | lia | done | done]).
    destruct (decide (c = pos)) as [-> | Hcp].
    + rewrite list_lookup_insert_eq in Hx by done. by injection Hx as <-.
    + rewrite list_lookup_insert_ne in Hx by done.
      eapply le_trans; [exact Hqp |].
      apply (H1 c); [done | done | done | by rewrite Hpc].
Qed.

Lemma siftdown_loop_S fuel h startpos pos new :
  siftdown_loop lt (S fuel) h startpos pos new =
  if (startpos <? pos)%nat then
    let* p := getitem h (parent pos) in
    let* b := lt new p in
    if b : bool then
      let* h' := setitem h pos p in
      siftdown_loop lt fuel h' startpos (parent pos) new
    else setitem h pos new
  else setitem h pos new.
Proof. reflexivity. Qed.

Lemma siftdown_loop_spec fuel : ∀ h pos new,
  (pos ≤ fuel)%nat → sd_inv h pos new →
  NoDup (<[pos := new]> h) → comparable (<[pos := new]> h) →
  ∃ h', siftdown_loop lt fuel h 0 pos new = Ok h' ∧
        is_heap h' ∧ h' ≡ₚ <[pos := new]> h.
Proof.
  induction fuel as [|fuel IH]; intros h pos new Hfuel Hinv Hnd Hcmp.
  - assert (pos = 0)%nat as -> by lia. simpl.
    rewrite setitem_lt by apply Hinv.
    eexists; split; [done |]. split; [| done].
    apply sd_inv_fill; auto.
  - rewrite siftdown_loop_S. destruct (0 <? pos)%nat eqn:Hpos.
    + apply Nat.ltb_lt in Hpos.
      pose proof (parent_lt pos Hpos) as Hpp.
      assert (pos < length h)%nat as Hlen by apply Hinv.
      destruct (lookup_lt_is_Some_2 h (parent pos)) as [p Hp]; [lia |].
      rewrite (getitem_Some _ _ _ Hp). simpl.
      rewrite (comparable_lookup (<[pos := new]> h) pos (parent pos) new p);
        [| done | done | lia | by apply list_lookup_insert_eq
         | by rewrite list_lookup_insert_ne by lia].
      simpl. destruct (ltb new p) eqn:Hlt.
      * rewrite setitem_lt by done. simpl.
        assert (<[parent pos := new]> (<[pos := p]> h) ≡ₚ <[pos := new]> h) as Hperm
          by (apply insert_swap_perm; [lia | done | done]).
        destruct (IH (<[pos := p]> h) (parent pos) new) as (h' & Hrun & Hheap & Hp');
          [lia | by apply sd_inv_up | by rewrite Hperm
          | by apply (comparable_perm _ _ (symmetry Hperm)) |].
        exists h'. split; [done |]. split; [done |]. by rewrite Hp'.
      * rewrite setitem_lt by done.
        eexists; split; [done |]. split; [| done].
        apply sd_inv_fill; [done |]. right. exists p. split; [done | exact Hlt].
    + apply Nat.ltb_ge in Hpos. assert (pos = 0)%nat as -> by lia.
      rewrite setitem_lt by apply Hinv.
      eexists; split; [done |]. split; [| done].
      apply sd_inv_fill; auto.
Qed.

(** A hole at a leaf of an otherwise ordered array. *)
Lemma sd_inv_leaf h pos new :
  (pos < length h)%nat → (length h ≤ 2 * pos + 1)%nat →
  (∀ i x p, (0 < i)%nat → i ≠ pos →
     h !! i = Some x → h !! parent i = Some p → le p x) →
  sd_inv h pos new.
Proof.
  intros Hlen Hleaf Hedges. split; [done |]. split; [done |].
  split.
  - intros c x Hc Hpc Hx. apply lookup_lt_Some in Hx.
    destruct (parent_inv c pos Hc Hpc); lia.
  - intros c x p Hc _ Hpc Hx _. apply lookup_lt_Some in Hx.
    destruct (parent_inv c pos Hc Hpc); lia.
Qed.

Lemma _siftdown_leaf_spec h pos new :
  h !! pos = Some new → (length h ≤ 2 * pos + 1)%nat →
  (∀ i x p, (0 < i)%nat → i ≠ pos →
     h !! i = Some x → h !! parent i = Some p → le p x) →
  NoDup h → comparable h →
  ∃ h', _siftdown lt h 0 pos = Ok h' ∧ is_heap h' ∧ h' ≡ₚ h.
Proof.
  intros Hnew Hleaf Hedges Hnd Hcmp. unfold _siftdown.
  rewrite (getitem_Some _ _ _ Hnew). simpl.
  assert (<[pos := new]> h = h) as Hid by by apply list_insert_id.
  destruct (siftdown_loop_spec pos h pos new) as (h' & Hrun & Hheap & Hp);
    [lia | apply sd_inv_leaf; [by eapply lookup_lt_Some | done | done]
    | by rewrite Hid | by rewrite Hid |].
  exists h'. by rewrite Hid in Hp.
Qed.
(** *** [_siftup] *)

Lemma smaller_child_spec h pos new :
  NoDup (<[pos := new]> h) → comparable (<[pos := new]> h) →
  (2 * pos + 1 < length h)%nat →
  ∃ c x, smaller_child lt h (length h) (2 * pos + 1) = Ok c ∧
         parent c = pos ∧ (0 < c)%nat ∧ h !! c = Some x ∧
         ∀ c' y, (0 < c')%nat → parent c' = pos → h !! c' = Some y → le x y.
Proof.
  intros Hnd Hcmp Hlen. unfold smaller_child.
  destruct (lookup_lt_is_Some_2 h (2 * pos + 1)) as [l Hl]; [lia |].
  destruct (2 * pos + 1 + 1 <? length h)%nat eqn:Hr.
  - apply Nat.ltb_lt in Hr.
    destruct (lookup_lt_is_Some_2 h (2 * pos + 1 + 1)) as [r Hr']; [lia |].
    rewrite (getitem_Some _ _ _ Hl), (getitem_Some _ _ _ Hr'). simpl.
    rewrite (comparable_lookup (<[pos := new]> h) (2 * pos + 1) (2 * pos + 1 + 1) l r);
      [| done | done | lia | by rewrite list_lookup_insert_ne by lia
       | by rewrite list_lookup_insert_ne by lia].
    simpl. destruct (ltb l r) eqn:Hlt; simpl.
    + exists (2 * pos + 1)%nat, l.
      split; [done |]. split; [apply parent_child_l |]. split; [lia |].
      split; [done |]. intros c' y Hc' Hpc Hy.
      destruct (parent_inv c' pos Hc' Hpc) as [-> | ->].
      * rewrite Hl in Hy. injection Hy as <-. apply le_refl.
      * rewrite Hr' in Hy. injection Hy as <-. by apply lt_le.
    + exists (2 * pos + 1 + 1)%nat, r.
      split; [done |]. split; [apply parent_child_r |]. split; [lia |].
      split; [done |]. intros c' y Hc' Hpc Hy.
      destruct (parent_inv c' pos Hc' Hpc) as [-> | ->].
      * rewrite Hl in Hy. injection Hy as <-. exact Hlt.
      * rewrite Hr' in Hy. injection Hy as <-. apply le_refl.
  - apply Nat.ltb_ge in Hr.
    exists (2 * pos + 1)%nat, l.
    split; [done |]. split; [apply parent_child_l |]. split; [lia |].
    split; [done |]. intros c' y Hc' Hpc Hy.
    destruct (parent_inv c' pos Hc' Hpc) as [-> | ->].
    + rewrite Hl in Hy. injection Hy as <-. apply le_refl.
    + apply lookup_lt_Some in Hy. lia.
Qed.

Lemma su_inv_down h pos c x :
  su_inv h pos → parent c = pos → (0 < c)%nat → h !! c = Some x →
  (∀ c' y, (0 < c')%nat → parent c' = pos → h !! c' = Some y → le x y) →
  su_inv (<[pos := x]> h) c.
Proof.
  intros (Hlen & H1 & H2) Hpc Hc Hx Hmin.
  pose proof (parent_lt c Hc) as Hlt. rewrite Hpc in Hlt.
  split; [rewrite length_insert; by eapply lookup_lt_Some |].
  split.
  - intros i y q Hi Hpi Hy Hq.
    destruct (decide (i = pos)) as [-> | Hip].
    + rewrite list_lookup_insert_eq in Hy by done. injection Hy as <-.
      pose proof (parent_lt pos Hi).
      rewrite list_lookup_insert_ne in Hq by lia.
      by apply (H2 c).
    + rewrite list_lookup_insert_ne in Hy by done.
      destruct (decide (parent i = pos)) as [E | E].
      * rewrite E, list_lookup_insert_eq in Hq by done. injection Hq as <-.
        by apply (Hmin i).
      * rewrite list_lookup_insert_ne in Hq by done. by apply (H1 i).
  - intros c' y q Hc' _ Hpc' Hy Hq.
    pose proof (parent_lt c' Hc') as Hlt'. rewrite Hpc' in Hlt'.
    rewrite list_lookup_insert_ne in Hy by lia.
    rewrite Hpc, list_lookup_insert_eq in Hq by done. injection Hq as <-.
    apply (H1 c'); [done | lia | done | by rewrite Hpc'].
Qed.

Lemma siftup_loop_S fuel h endpos pos childpos :
  siftup_loop lt (S fuel) h endpos pos childpos =
  if (childpos <? endpos)%nat then
    let* c := smaller_child lt h endpos childpos in
    let* x := getitem h c in
    let* h' := setitem h pos x in
    siftup_loop lt fuel h' endpos c (2 * c + 1)%nat
  else Ok (h, pos).
Proof. reflexivity. Qed.

Lemma siftup_loop_spec fuel : ∀ h endpos pos new,
  endpos = length h → (length h ≤ fuel + pos)%nat → su_inv h pos →
  NoDup (<[pos := new]> h) → comparable (<[pos := new]> h) →
  ∃ h' pos', siftup_loop lt fuel h endpos pos (2 * pos + 1) = Ok (h', pos') ∧
    (pos' < length h')%nat ∧ (length h' ≤ 2 * pos' + 1)%nat ∧
    (∀ i x p, (0 < i)%nat → i ≠ pos' →
       h' !! i = Some x → h' !! parent i = Some p → le p x) ∧
    <[pos' := new]> h' ≡ₚ <[pos := new]> h.
Proof.
  induction fuel as [|fuel IH]; intros h endpos pos new -> Hfuel Hinv Hnd Hcmp.
  - destruct Hinv as (Hlen & _). lia.
  - rewrite siftup_loop_S. destruct (2 * pos + 1 <? length h)%nat eqn:Hchild.
    + apply Nat.ltb_lt in Hchild.
      destruct (smaller_child_spec h pos new Hnd Hcmp Hchild)
        as (c & x & Hsel & Hpc & Hc & Hx & Hmin).
      rewrite Hsel. simpl. rewrite (getitem_Some _ _ _ Hx). simpl.
      rewrite setitem_lt by apply Hinv. simpl.
      pose proof (parent_lt c Hc) as Hlt. rewrite Hpc in Hlt.
      assert (<[c := new]> (<[pos := x]> h) ≡ₚ <[pos := new]> h) as Hperm
        by (apply insert_swap_perm; [lia | apply Hinv | done]).
      destruct (IH (<[pos := x]> h) (length h) c new) as (h' & pos' & Hrun & Hrest).
      { by rewrite length_insert. }
      { rewrite length_insert. lia. }
      { by apply su_inv_down. }
      { by rewrite Hperm. }
      { by apply (comparable_perm _ _ (symmetry Hperm)). }
      exists h', pos'. split; [done |].
      destruct Hrest as (? & ? & ? & Hp'). repeat split; try done.
      by rewrite Hp'.
    + apply Nat.ltb_ge in Hchild. destruct Hinv as (Hlen & H1 & H2).
      exists h, pos. repeat split; try done; try lia.
      intros i x p Hi Hne Hx Hp. apply (H1 i); try done.
      intros Hpi. apply lookup_lt_Some in Hx.
      destruct (parent_inv i pos Hi Hpi); lia.
Qed.

Lemma _siftup_root_spec h new :
  h !! 0%nat = Some new →
  (∀ i x p, (0 < i)%nat → parent i ≠ 0%nat →
     h !! i = Some x → h !! parent i = Some p → le p x) →
  NoDup h → comparable h →
  ∃ h', _siftup lt h 0 = Ok h' ∧ is_heap h' ∧ h' ≡ₚ h.
Proof.
  intros Hnew Hedges Hnd Hcmp. unfold _siftup.
  rewrite (getitem_Some _ _ _ Hnew). simpl.
  assert (<[0%nat := new]> h = h) as Hid by by apply list_insert_id.
  destruct (siftup_loop_spec (length h) h (length h) 0 new)
    as (h1 & pos1 & Hrun & Hlt & Hleaf & Hed & Hperm);
    [done | lia | | by rewrite Hid | by rewrite Hid |].
  { split; [by eapply lookup_lt_Some |]. split; [done |]. intros; lia. }
  rewrite Hid in Hperm.
  change (2 * 0 + 1)%nat with 1%nat in Hrun. rewrite Hrun. simpl.
  rewrite setitem_lt by done. simpl.
  destruct (_siftdown_leaf_spec (<[pos1 := new]> h1) pos1 new)
    as (h' & Hrun' & Hheap & Hperm').
  - by apply list_lookup_insert_eq.
  - by rewrite length_insert.
  - intros i x p Hi Hne Hx Hp.
    rewrite list_lookup_insert_ne in Hx by done.
    destruct (decide (parent i = pos1)) as [E | E].
    + apply lookup_lt_Some in Hx. destruct (parent_inv i pos1 Hi E); lia.
    + rewrite list_lookup_insert_ne in Hp by done. by apply (Hed i).
  - by rewrite Hperm.
  - by apply (comparable_perm _ _ (symmetry Hperm)).
  - exists h'. split; [done |]. split; [done |]. by rewrite Hperm'.
Qed.

(** *** [heappush] and [heappop] *)

Theorem heappush_spec h x :
  is_heap h → NoDup (h ++ [x]) → comparable (h ++ [x]) →
  ∃ h', heappush lt h x = Ok h' ∧ is_heap h' ∧ h' ≡ₚ x :: h.
Proof.
  intros Hheap Hnd Hcmp. unfold heappush.
  rewrite length_app. simpl.
  replace (length h + 1 - 1)%nat with (length h) by lia.
  destruct (_siftdown_leaf_spec (h ++ [x]) (length h) x)
    as (h' & Hrun & Hheap' & Hperm); [| | | done | done |].
  - by rewrite lookup_app_r, Nat.sub_diag by lia.
  - rewrite length_app. simpl. lia.
  - intros i y p Hi Hne Hy Hp.
    assert (i < length h)%nat as Hlt.
    { apply lookup_lt_Some in Hy. rewrite length_app in Hy. simpl in Hy. lia. }
    pose proof (parent_lt i Hi).
    rewrite lookup_app_l in Hy by done. rewrite lookup_app_l in Hp by lia.
    by apply (Hheap i).
  - exists h'. split; [done |]. split; [done |].
    rewrite Hperm. symmetry. apply Permutation_cons_append.
Qed.

Theorem heappop_spec h :
  is_heap h → NoDup h → comparable h → h ≠ [] →
  ∃ m h', heappop lt h = Ok (m, h') ∧ is_heap h' ∧ h ≡ₚ m :: h' ∧
          h !! 0%nat = Some m ∧ ∀ y, y ∈ h → le m y.
Proof.
  intros Hheap Hnd Hcmp Hne.
  destruct (snoc_cases h) as [-> | (l & z & ->)]; [done |].
  unfold heappop. rewrite list_pop_app. simpl.
  assert (∀ m, (l ++ [z]) !! 0%nat = Some m → ∀ y, y ∈ l ++ [z] → le m y) as Hmin.
  { intros m Hm y Hy. apply list_elem_of_lookup_1 in Hy as [i Hi].
    by apply (heap_root_min (l ++ [z]) m Hheap Hm i). }
  destruct l as [|a l].
  - exists z, []. split; [done |]. split; [by intros i x p _ Hx |].
    split; [done |]. split; [done |]. by apply Hmin.
  - simpl.
    destruct (_siftup_root_spec (z :: l) z) as (h' & Hrun & Hheap' & Hperm).
    + done.
    + intros i x p Hi Hpi Hx Hp.
      assert (i < length (a :: l))%nat as Hlt by (apply lookup_lt_Some in Hx; simpl in *; lia).
      pose proof (parent_lt i Hi).
      apply (Hheap i); [done | |].
      * rewrite lookup_app_l by done. destruct i; [lia | done].
      * rewrite lookup_app_l by lia. destruct (parent i); [lia | done].
    + assert ((a :: l) ++ [z] ≡ₚ a :: z :: l) as Hp.
      { simpl. f_equiv. symmetry. apply Permutation_cons_append. }
      rewrite Hp in Hnd. by apply NoDup_cons_1_2 in Hnd.
    + assert (∀ x, x ∈ z :: l → x ∈ (a :: l) ++ [z]) as Hsub.
      { intros x Hx. rewrite elem_of_app, elem_of_cons, list_elem_of_singleton.
        apply elem_of_cons in Hx as [-> | Hx]; auto. }
      intros x y Hx Hy. apply Hcmp; by apply Hsub.
    + rewrite Hrun. simpl. exists a, h'. split; [done |]. split; [done |].
      split; [| split; [done | by apply Hmin]].
      rewrite Hperm. simpl. f_equiv. symmetry. apply Permutation_cons_append.
Qed.

Lemma heappop_nil : heappop lt [] = Raise IndexError.
Proof. reflexivity. Qed.
End heapq_correct.

(** ** Ready-queue entries *)

Lemma entry_ltb_asym x y : entry_ltb x y = true → entry_ltb y x = false.
Proof.
  destruct x as [[[p1 a1] c1] t1], y as [[[p2 a2] c2] t2]. unfold entry_ltb.
  destruct (Z.eqb_spec p1 p2), (Z.eqb_spec p2 p1),
    (Z.eqb_spec a1 a2), (Z.eqb_spec a2 a1); simpl; lia.
Qed.

Lemma entry_le_lex x y : le entry_ltb x y ↔ lex_le x y.
Proof.
  destruct x as [[[p1 a1] c1] t1], y as [[[p2 a2] c2] t2].
  unfold le, lex_le, lex_lt, entry_ltb, entry_priority, entry_arrival, entry_counter.
  simpl.
  destruct (Z.eqb_spec p2 p1), (Z.eqb_spec a2 a1); simpl; lia.
Qed.

Lemma entry_le_trans x y z :
  le entry_ltb x y → le entry_ltb y z → le entry_ltb x z.
Proof.
  rewrite !entry_le_lex. unfold lex_le, lex_lt. lia.
Qed.

(** Two entries with different sequence numbers are decided by their first
    three components: the comparison never reaches the tasks. *)
Lemma entry_lt_counter x y :
  entry_counter x ≠ entry_counter y → entry_lt x y = Ok (entry_ltb x y).
Proof.
  destruct x as [[[p1 a1] c1] t1], y as [[[p2 a2] c2] t2].
  unfold entry_counter, entry_lt, entry_ltb. simpl. intros Hc.
  destruct (Z.eqb_spec p1 p2), (Z.eqb_spec a1 a2), (Z.eqb_spec c1 c2);
    simpl; try done.
Qed.

Lemma NoDup_fmap_inj_on {A B : Type} (f : A → B) (l : list A) x y :
  NoDup (f <$> l) → x ∈ l → y ∈ l → f x = f y → x = y.
Proof.
  intros Hnd Hx Hy Hf.
  apply list_elem_of_lookup_1 in Hx as [i Hi].
  apply list_elem_of_lookup_1 in Hy as [j Hj].
  assert (i = j) as ->; [| congruence].
  apply (NoDup_lookup (f <$> l) i j (f x)); [done | |].
  - by rewrite list_lookup_fmap, Hi.
  - by rewrite list_lookup_fmap, Hj, Hf.
Qed.

Lemma comparable_counters (q : list entry) :
  NoDup (entry_counter <$> q) → comparable entry_lt entry_ltb q.
Proof.
  intros Hnd x y Hx Hy Hne. apply entry_lt_counter.
  intros Hc. apply Hne. by apply (NoDup_fmap_inj_on entry_counter q).
Qed.

Lemma queue_ok_nil next : queue_ok [] next.
Proof.
  split; [by intros i x p _ Hx |]. split; [constructor |].
  intros e He. by apply elem_of_nil in He.
Qed.

Lemma queue_ok_push q next e :
  queue_ok q next → entry_counter e = next →
  ∃ q', heappush entry_lt q e = Ok q' ∧ q' ≡ₚ e :: q ∧ queue_ok q' (next + 1).
Proof.
  intros (Hheap & Hnd & Hlt) He.
  assert (NoDup (entry_counter <$> (q ++ [e]))) as Hnd'.
  { rewrite fmap_app. simpl. apply NoDup_app. split; [done |]. split.
    - intros c Hc. apply list_elem_of_fmap in Hc as (x & -> & Hx).
      rewrite list_elem_of_singleton. specialize (Hlt x Hx). lia.
    - apply NoDup_singleton. }
  destruct (heappush_spec entry_lt entry_ltb entry_ltb_asym entry_le_trans q e)
    as (q' & Hrun & Hheap' & Hperm);
    [done | by eapply NoDup_fmap_1 | by apply comparable_counters |].
  exists q'. split; [done |]. split; [done |].
  split; [done |]. split.
  - rewrite Hperm, fmap_cons, Permutation_cons_append.
    by rewrite fmap_app in Hnd'.
  - intros x Hx. rewrite Hperm in Hx. apply elem_of_cons in Hx as [-> | Hx].
    + lia.
    + specialize (Hlt x Hx). lia.
Qed.

Lemma queue_ok_pop q next :
  queue_ok q next → q ≠ [] →
  ∃ e q', heappop entry_lt q = Ok (e, q') ∧ q ≡ₚ e :: q' ∧ queue_ok q' next ∧
          q !! 0%nat = Some e ∧ ∀ y, y ∈ q → lex_le e y.
Proof.
  intros (Hheap & Hnd & Hlt) Hne.
  destruct (heappop_spec entry_lt entry_ltb entry_ltb_asym entry_le_trans q)
    as (e & q' & Hrun & Hheap' & Hperm & Hroot & Hmin);
    [done | by eapply NoDup_fmap_1 | by apply comparable_counters | done |].
  exists e, q'. split; [done |]. split; [done |]. split; [| split; [done |]].
  - split; [done |]. split.
    + rewrite Hperm in Hnd. simpl in Hnd. by apply NoDup_cons_1_2 in Hnd.
    + intros x Hx. apply Hlt. rewrite Hperm. by apply list_elem_of_further.
  - intros y Hy. apply entry_le_lex. by apply Hmin.
Qed.

(** ** The operations of the scheduler *)

Lemma store_set_eq σ r t : store_set σ r t r = t.
Proof. unfold store_set. by rewrite decide_True. Qed.

Lemma store_set_ne σ r t r' : r' ≠ r → store_set σ r t r' = σ r'.
Proof. intros. unfold store_set. by rewrite decide_False. Qed.

Lemma priority_set_counter pol t c : priority pol (set_counter t c) = priority pol t.
Proof. by destruct pol. Qed.

Lemma add_task_spec pol σ s r :
  queue_ok (ready_queue s) (_task_counter s) →
  ∃ q, add_task pol σ s r =
         Ok (store_set σ r (set_counter (σ r) (_task_counter s)),
             with_queue s q (_task_counter s + 1)) ∧
       q ≡ₚ entry_of pol σ (_task_counter s) r :: ready_queue s ∧
       queue_ok q (_task_counter s + 1).
Proof.
  intros Hq. unfold add_task. rewrite store_set_eq, priority_set_counter. simpl.
  destruct (queue_ok_push _ _ (entry_of pol σ (_task_counter s) r) Hq)
    as (q & Hrun & Hperm & Hq'); [done |].
  exists q. unfold entry_of in Hrun. by rewrite Hrun.
Qed.

Lemma get_next_task_spec s :
  queue_ok (ready_queue s) (_task_counter s) →
  (ready_queue s = [] ∧ get_next_task s = Ok (None, s)) ∨
  (∃ e q, get_next_task s = Ok (Some (entry_task e), with_queue s q (_task_counter s)) ∧
          ready_queue s ≡ₚ e :: q ∧ queue_ok q (_task_counter s) ∧
          ready_queue s !! 0%nat = Some e ∧
          ∀ y, y ∈ ready_queue s → lex_le e y).
Proof.
  intros Hq. unfold get_next_task.
  destruct (ready_queue s) as [|e0 q0] eqn:E; [by left | right].
  destruct (queue_ok_pop _ _ Hq) as (e & q & Hrun & Hperm & Hq' & Hroot & Hmin); [done |].
  exists e, q. by rewrite Hrun.
Qed.

Lemma arrivals_spec pol tasks fuel : ∀ σ s idx,
  queue_ok (ready_queue s) (_task_counter s) →
  (length tasks - idx ≤ fuel)%nat →
  ∃ σ1 s1 idx1, arrivals fuel pol tasks σ s idx = Ok (σ1, s1, idx1) ∧
                admits pol tasks σ s idx σ1 s1 idx1.
Proof.
  induction fuel as [|fuel IH]; intros σ s idx Hq Hfuel.
  - exists σ, s, idx. split; [done |]. apply admits_stop. left.
    apply lookup_ge_None. lia.
  - simpl. destruct (idx <? length tasks)%nat eqn:Hidx.
    + apply Nat.ltb_lt in Hidx.
      destruct (lookup_lt_is_Some_2 tasks idx Hidx) as [r Hr].
      rewrite (getitem_Some _ _ _ Hr). simpl.
      destruct (Z.leb_spec (arrival_time (σ r)) (time s)) as [Harr | Harr].
      * destruct (add_task_spec pol σ s r Hq) as (q & Hrun & Hperm & Hq').
        rewrite Hrun. simpl.
        destruct (IH (store_set σ r (set_counter (σ r) (_task_counter s)))
                    (with_queue s q (_task_counter s + 1)) (idx + 1)%nat)
          as (σ1 & s1 & idx1 & Hrun1 & Hadm); [done | lia |].
        exists σ1, s1, idx1. split; [done |]. by eapply admits_push.
      * exists σ, s, idx. split; [done |]. apply admits_stop. right. eauto.
    + apply Nat.ltb_ge in Hidx. exists σ, s, idx. split; [done |].
      apply admits_stop. left. by apply lookup_ge_None.
Qed.

Lemma admits_queue_ok pol tasks σ s idx σ1 s1 idx1 :
  admits pol tasks σ s idx σ1 s1 idx1 →
  queue_ok (ready_queue s) (_task_counter s) →
  queue_ok (ready_queue s1) (_task_counter s1).
Proof. induction 1; auto. Qed.

Lemma execute_unit_sched σ s r σ' s' :
  execute_unit σ s r = (σ', s') →
  time s' = time s ∧ ready_queue s' = ready_queue s ∧
  _task_counter s' = _task_counter s ∧
  completed_tasks s' = completed_tasks s ∧
  missed_deadlines s' = missed_deadlines s.
Proof. unfold execute_unit. by intros [= <- <-]. Qed.

Theorem step_spec pol tasks σ s idx :
  queue_ok (ready_queue s) (_task_counter s) →
  ∃ σ' s' idx', step pol tasks σ s idx = Ok (σ', s', idx') ∧
                steps pol tasks σ s idx σ' s' idx' ∧
                queue_ok (ready_queue s') (_task_counter s').
Proof.
  intros Hq. unfold step.
  destruct (arrivals_spec pol tasks (length tasks - idx) σ s idx Hq)
    as (σ1 & s1 & idx1 & Hrun & Hadm); [lia |].
  rewrite Hrun. simpl.
  pose proof (admits_queue_ok _ _ _ _ _ _ _ _ Hadm Hq) as Hq1.
  destruct (get_next_task_spec s1 Hq1)
    as [[Hnil Hget] | (e & q & Hget & Hperm & Hq2 & _ & Hmin)]; rewrite Hget; simpl.
  - eexists _, _, _. split; [done |]. split; [by apply steps_idle |].
    simpl. rewrite Hnil. apply queue_ok_nil.
  - unfold execute.
    destruct (execute_unit σ1 (with_queue s1 q (_task_counter s1)) (entry_task e))
      as [σ2 s2] eqn:Hunit.
    destruct (execute_unit_sched _ _ _ _ _ Hunit) as (Ht & Hrq & Hc & _).
    simpl in Hrq, Hc.
    destruct (Z.eqb_spec (remaining_time (σ2 (entry_task e))) 0) as [Hrem | Hrem].
    + destruct (complete_task σ2 s2 (entry_task e)) as [σ3 s3] eqn:Hcomp. simpl.
      eexists _, _, _. split; [done |]. split; [by eapply steps_complete |].
      unfold complete_task in Hcomp.
      destruct (completion_time _ >? absolute_deadline _);
        injection Hcomp as <- <-; simpl; by rewrite Hrq, Hc.
    + assert (queue_ok (ready_queue s2) (_task_counter s2)) as Hq3
        by by rewrite Hrq, Hc.
      destruct (add_task_spec pol σ2 s2 (entry_task e) Hq3) as (q' & Hpush & Hperm' & Hq').
      unfold push_back. rewrite Hpush. simpl.
      eexists _, _, _. split; [done |]. split; [by eapply steps_preempt |]. done.
Qed.

(** ** The main loop *)

Lemma admits_time pol tasks σ s idx σ1 s1 idx1 :
  admits pol tasks σ s idx σ1 s1 idx1 → time s1 = time s.
Proof. induction 1; [done | by rewrite IHadmits]. Qed.

Lemma steps_time pol tasks σ s idx σ' s' idx' :
  steps pol tasks σ s idx σ' s' idx' → time s' = time s + 1.
Proof.
  destruct 1 as [? ? ? ? ? ? Hadm | ? ? ? ? ? ? ? ? ? ? ? ? Hadm _ _ _ Hunit _ Hcomp
                | ? ? ? ? ? ? ? ? ? ? ? Hadm _ _ _ Hunit];
    apply admits_time in Hadm; simpl.
  - lia.
  - apply execute_unit_sched in Hunit as (Ht & _). simpl in Ht.
    unfold complete_task in Hcomp.
    destruct (completion_time _ >? absolute_deadline _);
      injection Hcomp as <- <-; simpl; lia.
  - apply execute_unit_sched in Hunit as (Ht & _). simpl in Ht. lia.
Qed.

Lemma run_loop_spec pol tasks max_time fuel : ∀ σ s idx,
  queue_ok (ready_queue s) (_task_counter s) →
  (Z.to_nat (max_time - time s) ≤ fuel)%nat →
  ∃ σ' s' idx', run_loop fuel pol tasks max_time σ s idx = Ok (σ', s', idx') ∧
                runs pol tasks max_time σ s idx σ' s' idx' ∧
                queue_ok (ready_queue s') (_task_counter s').
Proof.
  induction fuel as [|fuel IH]; intros σ s idx Hq Hfuel.
  - exists σ, s, idx. split; [done |]. split; [apply runs_exit; lia | done].
  - simpl. destruct (Z.ltb_spec (time s) max_time) as [Hlt | Hge].
    + destruct (step_spec pol tasks σ s idx Hq) as (σ1 & s1 & idx1 & Hrun & Hsteps & Hq1).
      rewrite Hrun. simpl.
      pose proof (steps_time _ _ _ _ _ _ _ _ Hsteps) as Ht.
      destruct (IH σ1 s1 idx1 Hq1) as (σ' & s' & idx' & Hrun' & Hruns & Hq'); [lia |].
      exists σ', s', idx'. split; [done |]. split; [by eapply runs_iter | done].
    + exists σ, s, idx. split; [done |]. split; [by apply runs_exit | done].
Qed.

Lemma runs_time pol tasks max_time σ s idx σ' s' idx' :
  runs pol tasks max_time σ s idx σ' s' idx' →
  time s' = Z.max (time s) max_time.
Proof.
  induction 1 as [| ? ? ? ? ? ? ? ? ? Hlt Hsteps _ IH]; [lia |].
  apply steps_time in Hsteps. lia.
Qed.

Theorem run_spec pol σ s tasks max_time :
  queue_ok (ready_queue s) (_task_counter s) →
  ∃ σ' s' idx',
    run pol σ s tasks max_time =
      Ok (mkOutcome σ' s' (sort_by_key (λ x, arrival_time (σ x)) tasks) (history s')) ∧
    runs pol (sort_by_key (λ x, arrival_time (σ x)) tasks) max_time σ s 0 σ' s' idx' ∧
    queue_ok (ready_queue s') (_task_counter s').
Proof.
  intros Hq. unfold run.
  destruct (run_loop_spec pol (sort_by_key (λ x, arrival_time (σ x)) tasks) max_time
              (Z.to_nat (max_time - time s)) σ s 0 Hq)
    as (σ' & s' & idx' & Hrun & Hruns & Hq'); [done |].
  rewrite Hrun. simpl. by exists σ', s', idx'.
Qed.

Lemma reachable_queue_ok pol s :
  reachable pol s → queue_ok (ready_queue s) (_task_counter s).
Proof.
  induction 1 as [| σ s r σ' s' _ IH Hadd | s o s' _ IH Hget
                 | tasks σ s idx σ' s' idx' _ IH Hstep
                 | tasks σ s max_time o _ IH Hrun].
  - apply queue_ok_nil.
  - destruct (add_task_spec pol σ s r IH) as (q & Hrun & _ & Hq).
    rewrite Hrun in Hadd. by injection Hadd as <- <-.
  - destruct (get_next_task_spec s IH)
      as [[Hnil Hrun] | (e & q & Hrun & _ & Hq & _)];
      rewrite Hrun in Hget; injection Hget as <- <-; [done | done].
  - destruct (step_spec pol tasks σ s idx IH) as (σ1 & s1 & idx1 & Hrun & _ & Hq).
    rewrite Hrun in Hstep. by injection Hstep as <- <- <-.
  - destruct (run_spec pol σ s tasks max_time IH) as (σ1 & s1 & idx1 & Hrun' & _ & Hq).
    rewrite Hrun' in Hrun. by injection Hrun as <-.
Qed.

(** ** What one iteration changes *)

Lemma set_counter_same t : set_counter t (_counter t) = t.
Proof. by destruct t. Qed.

Lemma admits_frame pol tasks σ s idx σ1 s1 idx1 :
  admits pol tasks σ s idx σ1 s1 idx1 →
  history s1 = history s ∧ completed_tasks s1 = completed_tasks s ∧
  missed_deadlines s1 = missed_deadlines s ∧
  ∀ r, ∃ c, σ1 r = set_counter (σ r) c.
Proof.
  induction 1 as [σ s idx _ | σ s idx r q σ' s' idx' Hr Harr Hq Hok _ IH].
  - repeat split. intros r. exists (_counter (σ r)). by rewrite set_counter_same.
  - destruct IH as (-> & -> & -> & Hst). repeat split.
    intros r'. destruct (Hst r') as [c ->].
    destruct (decide (r' = r)) as [-> | Hne].
    + rewrite store_set_eq. by exists c.
    + rewrite store_set_ne by done. by exists c.
Qed.

Lemma admits_static pol tasks σ s idx σ1 s1 idx1 r :
  admits pol tasks σ s idx σ1 s1 idx1 → same_static (σ r) (σ1 r).
Proof.
  intros Hadm. apply admits_frame in Hadm as (_ & _ & _ & Hst).
  destruct (Hst r) as [c ->]. by repeat split.
Qed.

Lemma admits_idx pol tasks σ s idx σ1 s1 idx1 :
  admits pol tasks σ s idx σ1 s1 idx1 → (idx ≤ idx1)%nat.
Proof. induction 1; lia. Qed.

(** Every queued entry was queued before or belongs to a task admitted by
    this arrival loop. *)
Lemma admits_queue pol tasks σ s idx σ1 s1 idx1 e :
  admits pol tasks σ s idx σ1 s1 idx1 → e ∈ ready_queue s1 →
  e ∈ ready_queue s ∨
  ∃ i, (idx ≤ i < idx1)%nat ∧ tasks !! i = Some (entry_task e).
Proof.
  induction 1 as [σ s idx _ | σ s idx r q σ' s' idx' Hr Harr Hq Hok Hadm IH];
    intros He; [by left |].
  apply admits_idx in Hadm.
  destruct (IH He) as [Hin | (i & Hi & Hti)].
  - simpl in Hin. rewrite Hq in Hin. apply elem_of_cons in Hin as [-> | Hin].
    + right. exists idx. split; [lia | done].
    + by left.
  - right. exists i. split; [lia | done].
Qed.

Lemma execute_unit_store σ s r σ' s' :
  execute_unit σ s r = (σ', s') →
  (∀ r', r' ≠ r → σ' r' = σ r') ∧
  same_static (σ r) (σ' r) ∧
  remaining_time (σ' r) = remaining_time (σ r) - 1 ∧
  completion_time (σ' r) = completion_time (σ r) ∧
  missed_deadline (σ' r) = missed_deadline (σ r) ∧
  history s' = history s ++ [(time s, time s + 1, task_id (σ r))].
Proof.
  unfold execute_unit. intros [= <- <-].
  destruct (start_time (σ r) =? -1).
  - split; [by intros r' Hne; rewrite !store_set_ne |].
    rewrite !store_set_eq. by repeat split.
  - split; [by intros r' Hne; rewrite !store_set_ne |].
    rewrite !store_set_eq. by repeat split.
Qed.

Lemma complete_task_effect σ s r σ' s' :
  complete_task σ s r = (σ', s') →
  (∀ r', r' ≠ r → σ' r' = σ r') ∧
  same_static (σ r) (σ' r) ∧
  remaining_time (σ' r) = remaining_time (σ r) ∧
  completion_time (σ' r) = time s + 1 ∧
  missed_deadline (σ' r) =
    (if time s + 1 >? absolute_deadline (σ r) then true else missed_deadline (σ r)) ∧
  missed_deadlines s' =
    (if time s + 1 >? absolute_deadline (σ r) then missed_deadlines s + 1
     else missed_deadlines s) ∧
  completed_tasks s' = completed_tasks s ++ [r] ∧
  history s' = history s ∧ time s' = time s ∧
  ready_queue s' = ready_queue s ∧ _task_counter s' = _task_counter s.
Proof.
  unfold complete_task. rewrite !store_set_eq. simpl.
  destruct (time s + 1 >? absolute_deadline (σ r)); intros [= <- <-].
  - split; [by intros r' Hne; rewrite !store_set_ne |].
    rewrite !store_set_eq. by repeat split.
  - split; [by intros r' Hne; rewrite !store_set_ne |].
    rewrite !store_set_eq. by repeat split.
Qed.

Lemma same_static_refl t : same_static t t.
Proof. by repeat split. Qed.

Lemma same_static_trans t1 t2 t3 :
  same_static t1 t2 → same_static t2 t3 → same_static t1 t3.
Proof. unfold same_static. intros (?&?&?&?&?&?) (?&?&?&?&?&?). repeat split; congruence. Qed.

Lemma steps_static pol tasks σ s idx σ' s' idx' r :
  steps pol tasks σ s idx σ' s' idx' → same_static (σ r) (σ' r).
Proof.
  destruct 1 as [? ? ? ? ? ? Hadm
                | ? ? ? σ1 ? ? e ? σ2 ? ? ? Hadm _ _ _ Hunit _ Hcomp
                | ? ? ? σ1 ? ? e ? σ2 ? ? Hadm _ _ _ Hunit].
  - by eapply admits_static.
  - apply (same_static_trans _ (σ1 r)); [by eapply admits_static |].
    apply execute_unit_store in Hunit as (Hu1 & Hu2 & _).
    apply complete_task_effect in Hcomp as (Hc1 & Hc2 & _).
    destruct (decide (r = entry_task e)) as [-> | Hne].
    + by eapply same_static_trans.
    + rewrite Hc1, Hu1 by done. apply same_static_refl.
  - apply (same_static_trans _ (σ1 r)); [by eapply admits_static |].
    apply execute_unit_store in Hunit as (Hu1 & Hu2 & _).
    destruct (decide (r = entry_task e)) as [-> | Hne].
    + rewrite store_set_eq. eapply same_static_trans; [exact Hu2 |]. by repeat split.
    + rewrite store_set_ne, Hu1 by done. apply same_static_refl.
Qed.

Lemma runs_static pol tasks max_time σ s idx σ' s' idx' r :
  runs pol tasks max_time σ s idx σ' s' idx' → same_static (σ r) (σ' r).
Proof.
  induction 1 as [| ? ? ? ? ? ? ? ? ? _ Hsteps _ IH]; [apply same_static_refl |].
  eapply same_static_trans; [by eapply steps_static | done].
Qed.

(** ** The history covers every elapsed unit *)

Lemma admits_queue_in pol tasks σ s idx σ1 s1 idx1 :
  admits pol tasks σ s idx σ1 s1 idx1 → queue_in tasks s → queue_in tasks s1.
Proof.
  intros Hadm Hq e He.
  destruct (admits_queue _ _ _ _ _ _ _ _ e Hadm He) as [Hin | (i & _ & Hi)].
  - by apply Hq.
  - by eapply list_elem_of_lookup_2.
Qed.

Lemma hist_ok_snoc tasks σ s σ' s' x :
  hist_ok tasks σ s →
  (∀ r, task_id (σ' r) = task_id (σ r)) →
  time s' = time s + 1 →
  history s' = history s ++ [(time s, time s + 1, x)] →
  (x = IDLE ∨ ∃ r, r ∈ tasks ∧ x = task_id (σ r)) →
  hist_ok tasks σ' s'.
Proof.
  intros (Ht & Hlen & Hent) Hid Ht' Hh' Hx.
  assert (∀ y, (y = IDLE ∨ ∃ r, r ∈ tasks ∧ y = task_id (σ r)) →
               (y = IDLE ∨ ∃ r, r ∈ tasks ∧ y = task_id (σ' r))) as Hmove.
  { intros y [-> | (r & Hr & ->)]; [by left | right]. exists r. by rewrite Hid. }
  split; [lia |]. split.
  - rewrite Hh', length_app, Hlen, Ht'. simpl. lia.
  - intros i h Hi. rewrite Hh' in Hi.
    apply lookup_snoc_Some in Hi as [[Hlt Hi] | [Hi <-]].
    + destruct (Hent i h Hi) as (y & -> & Hy). exists y. split; [done | by apply Hmove].
    + exists x. split; [| by apply Hmove].
      rewrite Hi, Hlen, Z2Nat.id by done. done.
Qed.

Lemma steps_hist pol tasks σ s idx σ' s' idx' :
  steps pol tasks σ s idx σ' s' idx' →
  queue_in tasks s → hist_ok tasks σ s →
  queue_in tasks s' ∧ hist_ok tasks σ' s'.
Proof.
  intros Hsteps Hqin Hhist.
  assert (∀ r, task_id (σ' r) = task_id (σ r)) as Hid
    by (intros r; by destruct (steps_static _ _ _ _ _ _ _ _ r Hsteps)).
  pose proof (steps_time _ _ _ _ _ _ _ _ Hsteps) as Ht.
  destruct Hsteps as [? ? ? ? s1 ? Hadm Hnil
                | ? ? ? σ1 s1 ? e q σ2 s2 ? s3 Hadm Hperm _ _ Hunit _ Hcomp
                | ? ? ? σ1 s1 ? e q σ2 s2 q' Hadm Hperm _ _ Hunit _ Hperm' _].
  - pose proof (admits_frame _ _ _ _ _ _ _ _ Hadm) as (Hh & _).
    pose proof (admits_time _ _ _ _ _ _ _ _ Hadm) as Ht1.
    split.
    + intros e He. simpl in He. rewrite Hnil in He. by apply elem_of_nil in He.
    + eapply (hist_ok_snoc _ _ _ _ _ IDLE Hhist Hid Ht); [| by left].
      simpl. by rewrite Hh, Ht1.
  - pose proof (admits_frame _ _ _ _ _ _ _ _ Hadm) as (Hh & _).
    pose proof (admits_time _ _ _ _ _ _ _ _ Hadm) as Ht1.
    pose proof (admits_queue_in _ _ _ _ _ _ _ _ Hadm Hqin) as Hqin1.
    pose proof (admits_static _ _ _ _ _ _ _ _ (entry_task e) Hadm) as (Hid1 & _).
    pose proof (execute_unit_sched _ _ _ _ _ Hunit) as (_ & Hrq & _).
    apply execute_unit_store in Hunit as (_ & _ & _ & _ & _ & Hh2).
    apply complete_task_effect in Hcomp as (_ & _ & _ & _ & _ & _ & _ & Hh3 & _ & Hrq3 & _).
    simpl in Hh2, Hrq.
    split.
    + intros e' He'. simpl in He'. rewrite Hrq3, Hrq in He'.
      apply Hqin1. rewrite Hperm. by apply list_elem_of_further.
    + eapply (hist_ok_snoc _ _ _ _ _ (task_id (σ (entry_task e))) Hhist Hid Ht).
      * simpl. by rewrite Hh3, Hh2, Hh, Ht1, Hid1.
      * right. exists (entry_task e). split; [| done].
        apply Hqin1. rewrite Hperm. apply list_elem_of_here.
  - pose proof (admits_frame _ _ _ _ _ _ _ _ Hadm) as (Hh & _).
    pose proof (admits_time _ _ _ _ _ _ _ _ Hadm) as Ht1.
    pose proof (admits_queue_in _ _ _ _ _ _ _ _ Hadm Hqin) as Hqin1.
    pose proof (admits_static _ _ _ _ _ _ _ _ (entry_task e) Hadm) as (Hid1 & _).
    pose proof (execute_unit_sched _ _ _ _ _ Hunit) as (_ & Hrq & _).
    apply execute_unit_store in Hunit as (_ & _ & _ & _ & _ & Hh2).
    simpl in Hh2, Hrq.
    assert (entry_task e ∈ tasks) as Hin
      by (apply Hqin1; rewrite Hperm; apply list_elem_of_here).
    split.
    + intros e' He'. simpl in He'. rewrite Hperm', Hrq in He'.
      apply elem_of_cons in He' as [-> | He']; [done |].
      apply Hqin1. rewrite Hperm. by apply list_elem_of_further.
    + eapply (hist_ok_snoc _ _ _ _ _ (task_id (σ (entry_task e))) Hhist Hid Ht).
      * simpl. by rewrite Hh2, Hh, Ht1, Hid1.
      * right. by exists (entry_task e).
Qed.

Lemma runs_hist pol tasks max_time σ s idx σ' s' idx' :
  runs pol tasks max_time σ s idx σ' s' idx' →
  queue_in tasks s → hist_ok tasks σ s →
  queue_in tasks s' ∧ hist_ok tasks σ' s'.
Proof.
  induction 1 as [| ? ? ? ? ? ? ? ? ? _ Hsteps _ IH]; [done |].
  intros Hq Hh. destruct (steps_hist _ _ _ _ _ _ _ _ Hsteps Hq Hh). by apply IH.
Qed.

(** ** [list.sort(key=...)]: sorted, a permutation, stable *)

Section sort_facts.
Context {A : Type} (key : A → Z).

Lemma insert_by_key_perm x l : insert_by_key key x l ≡ₚ x :: l.
Proof.
  induction l as [|y l IH]; simpl; [done |].
  destruct (key x <=? key y); [done |].
  rewrite IH. apply perm_swap.
Qed.

Lemma sort_by_key_perm l : sort_by_key key l ≡ₚ l.
Proof.
  induction l as [|x l IH]; simpl; [done |].
  by rewrite insert_by_key_perm, IH.
Qed.

Lemma insert_by_key_sorted x l :
  StronglySorted (λ a b, key a ≤ key b) l →
  StronglySorted (λ a b, key a ≤ key b) (insert_by_key key x l).
Proof.
  induction 1 as [|y l Hs IH Hall]; simpl.
  - repeat constructor.
  - destruct (Z.leb_spec (key x) (key y)) as [Hle | Hgt].
    + constructor; [by constructor |]. constructor; [done |].
      eapply Forall_impl; [exact Hall |]. simpl. intros. lia.
    + constructor; [done |].
      rewrite insert_by_key_perm. constructor; [lia | done].
Qed.

Lemma sort_by_key_sorted l :
  StronglySorted (λ a b, key a ≤ key b) (sort_by_key key l).
Proof.
  induction l as [|x l IH]; simpl; [constructor |].
  by apply insert_by_key_sorted.
Qed.

(** Stability: elements with equal keys keep their relative order. *)
Lemma insert_by_key_stable k x l :
  filter (λ a, key a = k) (insert_by_key key x l) =
  filter (λ a, key a = k) (x :: l).
Proof.
  induction l as [|y l IH]; simpl; [done |].
  destruct (Z.leb_spec (key x) (key y)) as [Hle | Hgt]; [done |].
  rewrite (filter_cons _ y (insert_by_key key x l)), IH.
  rewrite !filter_cons.
  destruct (decide (key x = k)), (decide (key y = k)); try done. lia.
Qed.

Lemma sort_by_key_stable k l :
  filter (λ a, key a = k) (sort_by_key key l) = filter (λ a, key a = k) l.
Proof.
  induction l as [|x l IH]; simpl; [done |].
  rewrite insert_by_key_stable, !filter_cons, IH. done.
Qed.

Lemma sort_by_key_sorted_id l :
  StronglySorted (λ a b, key a ≤ key b) l → sort_by_key key l = l.
Proof.
  induction 1 as [|x l Hs IH Hall]; simpl; [done |].
  rewrite IH. destruct Hall as [|y l' Hxy _]; simpl; [done |].
  destruct (Z.leb_spec (key x) (key y)); [done | lia].
Qed.
End sort_facts.

(** * Properties of [run] *)

Lemma hist_ok_init tasks σ : hist_ok tasks σ Scheduler_init.
Proof. split; [done |]. split; [done |]. intros i h Hi. by destruct i. Qed.

Lemma queue_in_init tasks : queue_in tasks Scheduler_init.
Proof. intros e He. by apply elem_of_nil in He. Qed.

Lemma run_history_shape pol σ tasks max_time :
  ∃ o, run pol σ Scheduler_init tasks max_time = Ok o ∧
       length (out_history o) = Z.to_nat max_time ∧
       ∀ i, (i < Z.to_nat max_time)%nat →
         ∃ x, out_history o !! i = Some (Z.of_nat i, Z.of_nat i + 1, x) ∧
              (x = IDLE ∨ ∃ r, r ∈ tasks ∧ x = task_id (σ r)).
Proof.
  destruct (run_spec pol σ Scheduler_init tasks max_time (queue_ok_nil _))
    as (σ' & s' & idx' & Hrun & Hruns & _).
  eexists. split; [exact Hrun |]. simpl.
  destruct (runs_hist _ _ _ _ _ _ _ _ _ Hruns (queue_in_init _) (hist_ok_init _ σ))
    as (_ & Ht & Hlen & Hent).
  pose proof (runs_time _ _ _ _ _ _ _ _ _ Hruns) as Htime. simpl in Htime.
  assert (length (history s') = Z.to_nat max_time) as Hlen' by lia.
  split; [done |]. intros i Hi.
  destruct (lookup_lt_is_Some_2 (history s') i) as [h Hh]; [lia |].
  destruct (Hent i h Hh) as (x & -> & Hx). exists x. split; [done |].
  destruct Hx as [-> | (r & Hr & ->)]; [by left | right].
  exists r. rewrite sort_by_key_perm in Hr. split; [done |].
  by destruct (runs_static _ _ _ _ _ _ _ _ _ r Hruns).
Qed.

(** C5. The history returned by [run] has exactly one entry per simulated
    unit of [0, max_time): the [i]-th entry is [(i, i+1, x)], where [x] is
    the identifier of a task of the task set or the idle marker. *)
Theorem history_covers_every_unit pol σ tasks max_time :
  ∃ o, run pol σ Scheduler_init tasks max_time = Ok o ∧
       length (out_history o) = Z.to_nat max_time ∧
       ∀ i, (i < Z.to_nat max_time)%nat →
         ∃ x, out_history o !! i = Some (Z.of_nat i, Z.of_nat i + 1, x) ∧
              (x = IDLE ∨ ∃ r, r ∈ tasks ∧ x = task_id (σ r)).
Proof. apply run_history_shape. Qed.

(** C9. [run] sorts the caller's list in place: after the call the list is
    the stable ascending sort by arrival time of the list that was passed,
    which can differ from the order the caller supplied, although only the
    history is returned. *)
Theorem run_sorts_callers_list :
  (∀ pol σ tasks max_time,
     ∃ o, run pol σ Scheduler_init tasks max_time = Ok o ∧
          out_history o = history (out_sched o) ∧
          out_tasks o ≡ₚ tasks ∧
          StronglySorted (λ a b, arrival_time (σ a) ≤ arrival_time (σ b)) (out_tasks o) ∧
          (∀ k, filter (λ a, arrival_time (σ a) = k) (out_tasks o) =
                filter (λ a, arrival_time (σ a) = k) tasks) ∧
          (∀ r, arrival_time (out_store o r) = arrival_time (σ r))) ∧
  (∃ pol σ tasks max_time o,
     run pol σ Scheduler_init tasks max_time = Ok o ∧ out_tasks o ≠ tasks).
Proof.
  split.
  - intros pol σ tasks max_time.
    destruct (run_spec pol σ Scheduler_init tasks max_time (queue_ok_nil _))
      as (σ' & s' & idx' & Hrun & Hruns & _).
    eexists. split; [exact Hrun |]. simpl.
    split; [done |]. split; [apply sort_by_key_perm |].
    split; [apply (sort_by_key_sorted (λ x, arrival_time (σ x))) |].
    split; [intros k; apply (sort_by_key_stable (λ x, arrival_time (σ x))) |].
    intros r. by destruct (runs_static _ _ _ _ _ _ _ _ _ r Hruns) as (_ & ? & _).
  - exists EDF,
      (store_of [fresh_task "A" 5 1 3 0; fresh_task "B" 0 1 3 0]),
      [0; 1]%nat, 0.
    eexists. split; [reflexivity |]. simpl. discriminate.
Qed.

(** ** A run to a later bound extends a run to an earlier bound *)

Lemma steps_history pol tasks σ s idx σ' s' idx' :
  steps pol tasks σ s idx σ' s' idx' →
  ∃ x, history s' = history s ++ [(time s, time s + 1, x)].
Proof.
  destruct 1 as [? ? ? ? s1 ? Hadm Hnil
                | ? ? ? σ1 s1 ? e q σ2 s2 ? s3 Hadm _ _ _ Hunit _ Hcomp
                | ? ? ? σ1 s1 ? e q σ2 s2 q' Hadm _ _ _ Hunit _ _ _];
    pose proof (admits_frame _ _ _ _ _ _ _ _ Hadm) as (Hh & _);
    pose proof (admits_time _ _ _ _ _ _ _ _ Hadm) as Ht1.
  - eexists. simpl. by rewrite Hh, Ht1.
  - apply execute_unit_store in Hunit as (_ & _ & _ & _ & _ & Hh2).
    apply complete_task_effect in Hcomp as (_ & _ & _ & _ & _ & _ & _ & Hh3 & _).
    eexists. simpl in *. by rewrite Hh3, Hh2, Hh, Ht1.
  - apply execute_unit_store in Hunit as (_ & _ & _ & _ & _ & Hh2).
    eexists. simpl in *. by rewrite Hh2, Hh, Ht1.
Qed.

Lemma runs_history pol tasks max_time σ s idx σ' s' idx' :
  runs pol tasks max_time σ s idx σ' s' idx' →
  ∃ rest, history s' = history s ++ rest.
Proof.
  induction 1 as [| ? ? ? ? ? ? ? ? ? _ Hsteps _ (rest & IH)].
  - exists []. by rewrite app_nil_r.
  - destruct (steps_history _ _ _ _ _ _ _ _ Hsteps) as (x & Hx).
    eexists. by rewrite IH, Hx, <- app_assoc.
Qed.

(** The result of the loop does not depend on the fuel once there is
    enough of it. *)
Lemma run_loop_fuel pol tasks max_time fuel1 : ∀ fuel2 σ s idx,
  queue_ok (ready_queue s) (_task_counter s) →
  (Z.to_nat (max_time - time s) ≤ fuel1)%nat →
  (Z.to_nat (max_time - time s) ≤ fuel2)%nat →
  run_loop fuel1 pol tasks max_time σ s idx =
  run_loop fuel2 pol tasks max_time σ s idx.
Proof.
  induction fuel1 as [|fuel1 IH]; intros fuel2 σ s idx Hq H1 H2.
  - destruct fuel2 as [|fuel2]; [done |]. simpl.
    destruct (Z.ltb_spec (time s) max_time); [lia | done].
  - simpl. destruct (Z.ltb_spec (time s) max_time) as [Hlt | Hge].
    + destruct fuel2 as [|fuel2]; [lia |]. simpl.
      destruct (Z.ltb_spec (time s) max_time); [| lia].
      destruct (step_spec pol tasks σ s idx Hq) as (σ1 & s1 & idx1 & Hrun & Hsteps & Hq1).
      rewrite Hrun. simpl. apply steps_time in Hsteps. apply IH; [done | lia | lia].
    + destruct fuel2 as [|fuel2]; [done |]. simpl.
      destruct (Z.ltb_spec (time s) max_time); [lia | done].
Qed.

Lemma run_loop_prefix pol tasks m1 m2 fuel1 : ∀ fuel2 σ s idx σ1 s1 idx1,
  m1 ≤ m2 →
  queue_ok (ready_queue s) (_task_counter s) →
  (Z.to_nat (m2 - time s) ≤ fuel2)%nat →
  run_loop fuel1 pol tasks m1 σ s idx = Ok (σ1, s1, idx1) →
  run_loop fuel2 pol tasks m2 σ s idx =
    run_loop (Z.to_nat (m2 - time s1)) pol tasks m2 σ1 s1 idx1 ∧
  queue_ok (ready_queue s1) (_task_counter s1).
Proof.
  induction fuel1 as [|fuel1 IH]; intros fuel2 σ s idx σ1 s1 idx1 Hm Hq H2 Hrun.
  - injection Hrun as <- <- <-. split; [by apply run_loop_fuel | done].
  - simpl in Hrun. destruct (Z.ltb_spec (time s) m1) as [Hlt | Hge].
    + destruct (step_spec pol tasks σ s idx Hq) as (σ' & s' & idx' & Hstep & Hsteps & Hq').
      rewrite Hstep in Hrun. simpl in Hrun. apply steps_time in Hsteps.
      destruct fuel2 as [|fuel2]; [lia |]. simpl.
      destruct (Z.ltb_spec (time s) m2); [| lia].
      rewrite Hstep. simpl. apply (IH fuel2 σ' s' idx'); [done | done | lia | done].
    + injection Hrun as <- <- <-. split; [by apply run_loop_fuel | done].
Qed.

(** The state left by a run up to [m2] is reached by continuing the loop
    from the state left by the run up to [m1 ≤ m2]. *)
Theorem run_prefix pol σ tasks m1 m2 o1 :
  m1 ≤ m2 →
  run pol σ Scheduler_init tasks m1 = Ok o1 →
  ∃ o2 idx1 idx2,
    run pol σ Scheduler_init tasks m2 = Ok o2 ∧
    out_tasks o2 = out_tasks o1 ∧
    out_tasks o1 = sort_by_key (λ x, arrival_time (σ x)) tasks ∧
    runs pol (out_tasks o1) m1 σ Scheduler_init 0
      (out_store o1) (out_sched o1) idx1 ∧
    runs pol (out_tasks o1) m2 (out_store o1) (out_sched o1) idx1
      (out_store o2) (out_sched o2) idx2.
Proof.
  intros Hm Hrun. unfold run in *.
  destruct (run_loop _ _ _ m1 _ _ _) as [[[σ1 s1] idx1] |] eqn:Hloop1; [| done].
  simpl in Hrun. injection Hrun as <-.
  destruct (run_loop_spec pol (sort_by_key (λ x, arrival_time (σ x)) tasks) m1
              (Z.to_nat (m1 - time Scheduler_init)) σ Scheduler_init 0 (queue_ok_nil _))
    as (σ1' & s1' & idx1' & Hloop1' & Hruns1 & _); [done |].
  rewrite Hloop1 in Hloop1'. injection Hloop1' as <- <- <-.
  destruct (run_loop_prefix _ _ _ _ _ (Z.to_nat (m2 - time Scheduler_init))
              σ Scheduler_init _ _ _ _ Hm (queue_ok_nil _) (Nat.le_refl _) Hloop1)
    as (Heq & Hq1).
  rewrite Heq.
  destruct (run_loop_spec pol (sort_by_key (λ x, arrival_time (σ x)) tasks) m2
              (Z.to_nat (m2 - time s1)) σ1 s1 idx1 Hq1)
    as (σ2 & s2 & idx2 & Hloop2 & Hruns & _); [done |].
  rewrite Hloop2. simpl.
  eexists _, idx1, idx2. split; [done |]. simpl. by split_and!.
Qed.

Lemma run_out_history pol σ s tasks max_time o :
  run pol σ s tasks max_time = Ok o → out_history o = history (out_sched o).
Proof.
  unfold run. destruct (run_loop _ _ _ _ _ _ _) as [[[σ' s'] idx'] |]; [| done].
  simpl. by intros [= <-].
Qed.

(** ** The preemption scenario of [test_edf_preemption] *)

Definition T1 : Task := fresh_task "T1" 0 3 10 0.
Definition T2 : Task := fresh_task "T2" 1 2 4 0.

(** C4. Under EDF, for T1 (arrival 0, burst 3, relative deadline 10) and
    T2 (arrival 1, burst 2, relative deadline 4) and any [max_time >= 5],
    the first five history entries are (0,1,T1), (1,2,T2), (2,3,T2),
    (3,4,T1), (4,5,T1); the absolute deadline of T2 is 5 and that of T1
    is 10. *)
Theorem edf_preemption_scenario max_time :
  5 ≤ max_time →
  Task_init "T1" 0 3 10 0 = Ok T1 ∧ Task_init "T2" 1 2 4 0 = Ok T2 ∧
  absolute_deadline T2 = 5 ∧ absolute_deadline T1 = 10 ∧
  ∃ o, run EDF (store_of [T1; T2]) Scheduler_init [0; 1]%nat max_time = Ok o ∧
       take 5 (out_history o) =
         [(0, 1, "T1"); (1, 2, "T2"); (2, 3, "T2"); (3, 4, "T1"); (4, 5, "T1")].
Proof.
  intros Hm. repeat (split; [reflexivity |]).
  assert (∃ o5, run EDF (store_of [T1; T2]) Scheduler_init [0; 1]%nat 5 = Ok o5 ∧
                out_history o5 =
                  [(0, 1, "T1"); (1, 2, "T2"); (2, 3, "T2"); (3, 4, "T1"); (4, 5, "T1")])
    as (o5 & Hrun5 & Hh5).
  { destruct (run EDF (store_of [T1; T2]) Scheduler_init [0; 1]%nat 5) as [o5 | e] eqn:E.
    - exists o5. split; [done |].
      transitivity
        (match run EDF (store_of [T1; T2]) Scheduler_init [0; 1]%nat 5 with
         | Ok o => out_history o
         | Raise _ => []
         end); [by rewrite E | by vm_compute].
    - vm_compute in E. discriminate. }
  destruct (run_prefix _ _ _ _ _ _ Hm Hrun5)
    as (o & idx1 & idx2 & Hrun & _ & _ & _ & Hruns).
  exists o. split; [done |].
  destruct (runs_history _ _ _ _ _ _ _ _ _ Hruns) as (rest & Hrest).
  rewrite (run_out_history _ _ _ _ _ _ Hrun), Hrest.
  rewrite <- (run_out_history _ _ _ _ _ _ Hrun5), Hh5. reflexivity.
Qed.

Lemma edf_preemption_scenario_witness :
  5 ≤ 10 ∧
  ∃ o, run EDF (store_of [T1; T2]) Scheduler_init [0; 1]%nat 10 = Ok o ∧
       take 5 (out_history o) =
         [(0, 1, "T1"); (1, 2, "T2"); (2, 3, "T2"); (3, 4, "T1"); (4, 5, "T1")].
Proof.
  split; [lia |]. apply (edf_preemption_scenario 10). lia.
Defined.

(** ** The ready queue: sequence numbers and extraction order *)

Lemma admits_counter_mono pol tasks σ s idx σ1 s1 idx1 :
  admits pol tasks σ s idx σ1 s1 idx1 → _task_counter s ≤ _task_counter s1.
Proof. induction 1; simpl in *; lia. Qed.

Lemma steps_counter_mono pol tasks σ s idx σ' s' idx' :
  steps pol tasks σ s idx σ' s' idx' → _task_counter s ≤ _task_counter s'.
Proof.
  destruct 1 as [? ? ? ? s1 ? Hadm Hnil
                | ? ? ? σ1 s1 ? e q σ2 s2 ? s3 Hadm _ _ _ Hunit _ Hcomp
                | ? ? ? σ1 s1 ? e q σ2 s2 q' Hadm _ _ _ Hunit _ _ _];
    apply admits_counter_mono in Hadm; simpl.
  - done.
  - apply execute_unit_sched in Hunit as (_ & _ & Hc & _).
    apply complete_task_effect in Hcomp as (_ & _ & _ & _ & _ & _ & _ & _ & _ & _ & Hc3).
    simpl in *. lia.
  - apply execute_unit_sched in Hunit as (_ & _ & Hc & _). simpl in *. lia.
Qed.

Lemma runs_counter_mono pol tasks max_time σ s idx σ' s' idx' :
  runs pol tasks max_time σ s idx σ' s' idx' → _task_counter s ≤ _task_counter s'.
Proof.
  induction 1 as [| ? ? ? ? ? ? ? ? ? _ Hsteps _ IH]; [done |].
  apply steps_counter_mono in Hsteps. lia.
Qed.

Lemma queue_ok_distinct q next i j x y :
  queue_ok q next → i ≠ j → q !! i = Some x → q !! j = Some y →
  entry_counter x ≠ entry_counter y.
Proof.
  intros (_ & Hnd & _) Hij Hx Hy Hc. apply Hij.
  apply (NoDup_lookup (entry_counter <$> q) i j (entry_counter x)); [done | |].
  - by rewrite list_lookup_fmap, Hx.
  - by rewrite list_lookup_fmap, Hy, Hc.
Qed.

(** C10. In every scheduler state that arises from a fresh scheduler, an
    insertion takes the next sequence number, which is larger than the
    numbers of all queued entries, and the next number never decreases; so
    the queued (priority, arrival, counter) triples are pairwise distinct,
    ["<"] between two queued entries is decided without comparing tasks,
    and [add_task], [get_next_task] and [run] never raise. *)
Theorem sequence_numbers_keep_queue_total pol s :
  reachable pol s →
  (∀ e, e ∈ ready_queue s → entry_counter e < _task_counter s) ∧
  (∀ i j x y, i ≠ j → ready_queue s !! i = Some x → ready_queue s !! j = Some y →
     (entry_priority x, entry_arrival x, entry_counter x) ≠
       (entry_priority y, entry_arrival y, entry_counter y) ∧
     entry_lt x y = Ok (entry_ltb x y)) ∧
  (∀ σ r, ∃ σ' s',
     add_task pol σ s r = Ok (σ', s') ∧
     _counter (σ' r) = _task_counter s ∧
     entry_of pol σ (_task_counter s) r ∈ ready_queue s' ∧
     (∀ e, e ∈ ready_queue s → entry_counter e < _counter (σ' r)) ∧
     _task_counter s' = _task_counter s + 1 ∧
     reachable pol s') ∧
  (∃ o s', get_next_task s = Ok (o, s') ∧
           _task_counter s' = _task_counter s ∧ reachable pol s') ∧
  (∀ σ tasks max_time, ∃ o,
     run pol σ s tasks max_time = Ok o ∧
     _task_counter s ≤ _task_counter (out_sched o) ∧
     reachable pol (out_sched o)).
Proof.
  intros Hreach. pose proof (reachable_queue_ok _ _ Hreach) as Hq.
  split; [apply Hq |]. split; [| split; [| split]].
  - intros i j x y Hij Hx Hy.
    pose proof (queue_ok_distinct _ _ _ _ _ _ Hq Hij Hx Hy) as Hc.
    split; [congruence | by apply entry_lt_counter].
  - intros σ r. destruct (add_task_spec pol σ s r Hq) as (q & Hrun & Hperm & Hq').
    eexists _, _. split; [exact Hrun |]. rewrite store_set_eq. simpl.
    split; [done |]. split; [rewrite Hperm; apply list_elem_of_here |].
    split; [apply Hq |]. split; [done |]. by eapply reachable_add.
  - destruct (get_next_task_spec s Hq) as [[Hnil Hrun] | (e & q & Hrun & _)].
    + exists None, s. split; [done |]. split; [done | by eapply reachable_next].
    + eexists _, _. split; [exact Hrun |]. split; [done | by eapply reachable_next].
  - intros σ tasks max_time.
    destruct (run_spec pol σ s tasks max_time Hq) as (σ' & s' & idx' & Hrun & Hruns & _).
    eexists. split; [exact Hrun |]. simpl.
    split; [by eapply runs_counter_mono |].
    by apply (reachable_run pol tasks σ s max_time _ Hreach Hrun).
Qed.

Lemma sequence_numbers_keep_queue_total_witness :
  reachable EDF Scheduler_init ∧
  ∀ σ tasks max_time, ∃ o,
    run EDF σ Scheduler_init tasks max_time = Ok o ∧
    _task_counter Scheduler_init ≤ _task_counter (out_sched o) ∧
    reachable EDF (out_sched o).
Proof.
  split; [apply reachable_init |].
  apply (sequence_numbers_keep_queue_total EDF Scheduler_init), reachable_init.
Defined.

(** C6. In every scheduler state that arises from a fresh scheduler,
    [get_next_task] on a non-empty queue returns the task of the entry that
    is least in the lexicographic order (priority key, arrival time,
    sequence number) and strictly below every entry left in the queue; of
    two queued entries with equal priority key and equal arrival time the
    one with the larger sequence number is never extracted first.  The
    priority key pushed by [add_task] is the absolute deadline under EDF
    and the period (or, without one, the relative deadline) under RMS. *)
Theorem extraction_returns_minimum pol s :
  reachable pol s → ready_queue s ≠ [] →
  (∃ e q,
     get_next_task s = Ok (Some (entry_task e), with_queue s q (_task_counter s)) ∧
     ready_queue s ≡ₚ e :: q ∧
     (∀ y, y ∈ ready_queue s → lex_le e y) ∧
     (∀ y, y ∈ q → lex_lt e y) ∧
     (∀ x y, x ∈ ready_queue s → y ∈ ready_queue s →
        entry_priority x = entry_priority y → entry_arrival x = entry_arrival y →
        entry_counter x < entry_counter y → e ≠ y)) ∧
  (∀ σ r, ∃ σ' s',
     add_task pol σ s r = Ok (σ', s') ∧
     ready_queue s' ≡ₚ
       (match pol with
        | EDF => absolute_deadline (σ r)
        | RMS => if period (σ r) >? 0 then period (σ r) else deadline (σ r)
        end, arrival_time (σ r), _task_counter s, r) :: ready_queue s).
Proof.
  intros Hreach Hne. pose proof (reachable_queue_ok _ _ Hreach) as Hq.
  split.
  - destruct (get_next_task_spec s Hq)
      as [[Hnil _] | (e & q & Hrun & Hperm & Hq' & _ & Hmin)]; [done |].
    exists e, q. split; [done |]. split; [done |]. split; [done |].
    destruct Hq as (_ & Hnd & _). rewrite Hperm in Hnd. simpl in Hnd.
    apply NoDup_cons in Hnd as [Hnotin _].
    split.
    + intros y Hy.
      assert (lex_le e y) as [Hlt | (_ & _ & Hc)]
        by (apply Hmin; rewrite Hperm; by apply list_elem_of_further); [done |].
      exfalso. apply Hnotin. rewrite Hc. by apply list_elem_of_fmap_2.
    + intros x y Hx Hy Hp Ha Hc ->.
      specialize (Hmin x Hx). unfold lex_le, lex_lt in Hmin. lia.
  - intros σ r. destruct (add_task_spec pol σ s r Hq) as (q & Hrun & Hperm & _).
    eexists _, _. split; [exact Hrun |]. simpl. rewrite Hperm.
    unfold entry_of, priority. by destruct pol.
Qed.

Lemma extraction_returns_minimum_witness :
  ∃ s, reachable EDF s ∧
       ready_queue s = [(10, 0, 0, 0%nat); (10, 0, 1, 1%nat)] ∧
       ready_queue s ≠ [] ∧
       ∃ e q, get_next_task s = Ok (Some (entry_task e), with_queue s q (_task_counter s)) ∧
              ready_queue s ≡ₚ e :: q ∧
              (∀ y, y ∈ ready_queue s → lex_le e y) ∧
              (∀ y, y ∈ q → lex_lt e y) ∧
              e ≠ (10, 0, 1, 1%nat).
Proof.
  exists (with_queue (with_queue Scheduler_init [(10, 0, 0, 0%nat)] 1)
            [(10, 0, 0, 0%nat); (10, 0, 1, 1%nat)] 2).
  assert (reachable EDF (with_queue Scheduler_init [(10, 0, 0, 0%nat)] 1)) as Hreach1.
  { apply (reachable_add EDF (store_of [T1; fresh_task "T3" 0 2 10 0]) Scheduler_init 0%nat
             (store_set (store_of [T1; fresh_task "T3" 0 2 10 0]) 0%nat (set_counter T1 0)));
      [apply reachable_init | reflexivity]. }
  assert (reachable EDF
            (with_queue (with_queue Scheduler_init [(10, 0, 0, 0%nat)] 1)
               [(10, 0, 0, 0%nat); (10, 0, 1, 1%nat)] 2)) as Hreach.
  { apply (reachable_add EDF
             (store_set (store_of [T1; fresh_task "T3" 0 2 10 0]) 0%nat (set_counter T1 0))
             (with_queue Scheduler_init [(10, 0, 0, 0%nat)] 1) 1%nat
             (store_set
                (store_set (store_of [T1; fresh_task "T3" 0 2 10 0]) 0%nat
                   (set_counter T1 0))
                1%nat (set_counter (fresh_task "T3" 0 2 10 0) 1)));
      [exact Hreach1 | reflexivity]. }
  assert (ready_queue
            (with_queue (with_queue Scheduler_init [(10, 0, 0, 0%nat)] 1)
               [(10, 0, 0, 0%nat); (10, 0, 1, 1%nat)] 2) ≠ []) as Hne
    by discriminate.
  split; [exact Hreach |]. split; [reflexivity |]. split; [exact Hne |].
  destruct (extraction_returns_minimum EDF _ Hreach Hne)
    as [(e & q & Hrun & Hperm & Hmin & Hstrict & Htie) _].
  exists e, q. split; [exact Hrun |]. split; [exact Hperm |].
  split; [exact Hmin |]. split; [exact Hstrict |].
  apply (Htie (10, 0, 0, 0%nat) (10, 0, 1, 1%nat)).
  - apply list_elem_of_here.
  - apply list_elem_of_further, list_elem_of_here.
  - reflexivity.
  - reflexivity.
  - vm_compute. reflexivity.
Defined.


(** ** The loop body in terms of the fields of the tasks *)

Lemma untouched_refl t : untouched t t.
Proof. by repeat split. Qed.

Lemma untouched_trans t1 t2 t3 : untouched t1 t2 → untouched t2 t3 → untouched t1 t3.
Proof.
  intros (Hs1 & ? & ? & ?) (Hs2 & ? & ? & ?).
  split; [by eapply same_static_trans |]. repeat split; congruence.
Qed.

Lemma untouched_set_counter t c : untouched t (set_counter t c).
Proof. by repeat split. Qed.

Lemma admits_untouched pol tasks σ s idx σ1 s1 idx1 r :
  admits pol tasks σ s idx σ1 s1 idx1 → untouched (σ r) (σ1 r).
Proof.
  intros Hadm. apply admits_frame in Hadm as (_ & _ & _ & Hst).
  destruct (Hst r) as [c ->]. apply untouched_set_counter.
Qed.

Theorem steps_executes pol tasks σ s idx σ' s' idx' :
  steps pol tasks σ s idx σ' s' idx' →
  ∃ σ1 s1, admits pol tasks σ s idx σ1 s1 idx' ∧ executes σ1 s1 σ' s'.
Proof.
  destruct 1 as [? ? ? σ1 s1 ? Hadm Hnil
                | ? ? ? σ1 s1 ? e q σ2 s2 σ3 s3 Hadm Hperm _ _ Hunit Hrem Hcomp
                | ? ? ? σ1 s1 ? e q σ2 s2 q' Hadm Hperm _ _ Hunit Hrem Hperm' _];
    exists σ1, s1; (split; [exact Hadm |]).
  - apply executes_idle; first [done | intros r; apply untouched_refl].
  - pose proof (execute_unit_sched _ _ _ _ _ Hunit) as (Ht & Hrq & _ & Hct & Hmd).
    apply execute_unit_store in Hunit as (Hu1 & Hu2 & Hu3 & Hu4 & Hu5 & Hu6).
    apply complete_task_effect in Hcomp
      as (Hc1 & Hc2 & Hc3 & Hc4 & Hc5 & Hc6 & Hc7 & Hc8 & Hc9 & Hc10 & _).
    simpl in *.
    assert (absolute_deadline (σ2 (entry_task e)) = absolute_deadline (σ1 (entry_task e)))
      as Habs by apply Hu2.
    assert (task_id (σ2 (entry_task e)) = task_id (σ1 (entry_task e)))
      as Hid by apply Hu2.
    apply (executes_complete _ _ _ _ e q); simpl;
      first [ done | lia | congruence
            | by rewrite Hc10, Hrq
            | by eapply same_static_trans
            | by rewrite Hc5, Ht, Habs, Hu5
            | by rewrite Hc8, Hu6
            | by rewrite Hc7, Hct
            | by rewrite Hc6, Ht, Habs, Hmd
            | intros r Hne; rewrite Hc1, Hu1 by done; apply untouched_refl ].
  - pose proof (execute_unit_sched _ _ _ _ _ Hunit) as (Ht & Hrq & _ & Hct & Hmd).
    apply execute_unit_store in Hunit as (Hu1 & Hu2 & Hu3 & Hu4 & Hu5 & Hu6).
    simpl in *.
    assert (task_id (σ2 (entry_task e)) = task_id (σ1 (entry_task e)))
      as Hid by apply Hu2.
    apply (executes_preempt _ _ _ _ e q
             (entry_of pol σ2 (_task_counter s2) (entry_task e))); simpl;
      rewrite ?store_set_eq;
      first [ done | lia | congruence
            | by rewrite Hperm', Hrq
            | by rewrite Hu6, Hid
            | eapply same_static_trans; [exact Hu2 | by repeat split]
            | intros r Hne; rewrite store_set_ne, Hu1 by done; apply untouched_refl ].
Qed.

(** ** The invariant of the main loop *)

Lemma count_id_snoc x h a b y :
  count_id x (h ++ [(a, b, y)]) = count_id x h + (if decide (y = x) then 1 else 0).
Proof.
  unfold count_id. rewrite filter_app, length_app, filter_cons. simpl.
  destruct (decide (y = x)); simpl; lia.
Qed.

Lemma count_missed_snoc σ l r :
  count_missed σ (l ++ [r]) =
  count_missed σ l + (if missed_deadline (σ r) then 1 else 0).
Proof.
  unfold count_missed. rewrite filter_app, length_app, filter_cons. simpl.
  destruct (missed_deadline (σ r)); simpl; lia.
Qed.

Lemma count_missed_ext σ σ' l :
  (∀ r, r ∈ l → missed_deadline (σ' r) = missed_deadline (σ r)) →
  count_missed σ' l = count_missed σ l.
Proof.
  unfold count_missed. intros Hext. f_equal. f_equal.
  induction l as [|x l IH]; [done |].
  rewrite !filter_cons, (Hext x) by apply list_elem_of_here.
  rewrite IH; [done |]. intros r Hr. apply Hext. by apply list_elem_of_further.
Qed.

Lemma NoDup_take_drop {A} (l : list A) i x :
  NoDup l → x ∈ take i l → x ∈ drop i l → False.
Proof.
  intros Hnd. rewrite <- (take_drop i l) in Hnd.
  apply NoDup_app in Hnd as (_ & Hdisj & _). intros Ht Hd. by apply (Hdisj x).
Qed.

Lemma ids_ext σ σ' (tasks : list ref) :
  (∀ r, task_id (σ' r) = task_id (σ r)) →
  (λ r, task_id (σ' r)) <$> tasks = (λ r, task_id (σ r)) <$> tasks.
Proof. intros H. apply list_fmap_ext. intros i x _. apply H. Qed.

Lemma ids_NoDup_refs σ (tasks : list ref) :
  NoDup ((λ r, task_id (σ r)) <$> tasks) → NoDup tasks.
Proof. apply NoDup_fmap_1. Qed.

(** Only sequence numbers of task objects changed. *)
Lemma run_inv_untouched tasks σ σ' s s' idx :
  (∀ r, untouched (σ r) (σ' r)) →
  time s' = time s → ready_queue s' = ready_queue s → history s' = history s →
  completed_tasks s' = completed_tasks s → missed_deadlines s' = missed_deadlines s →
  run_inv tasks σ s idx → run_inv tasks σ' s' idx.
Proof.
  intros Hun Ht' Hq' Hh' Hc' Hm'
    (Ht & Hids & Hidle & Hqnd & Hq & Hpend & Hnn & Hcomp & Hct & Hhist & Hmiss
     & Hcnd & Hcsub & Hmc).
  assert (∀ r, task_id (σ' r) = task_id (σ r)) as Hid by (intros r; apply Hun).
  assert (∀ r, remaining_time (σ' r) = remaining_time (σ r)) as Hrem by (intros r; apply Hun).
  assert (∀ r, completion_time (σ' r) = completion_time (σ r)) as Hctm by (intros r; apply Hun).
  assert (∀ r, missed_deadline (σ' r) = missed_deadline (σ r)) as Hmd by (intros r; apply Hun).
  assert (∀ r, burst_time (σ' r) = burst_time (σ r)) as Hb by (intros r; apply Hun).
  assert (∀ r, absolute_deadline (σ' r) = absolute_deadline (σ r)) as Ha by (intros r; apply Hun).
  unfold run_inv. rewrite Ht', Hq', Hh', Hc', Hm', (ids_ext σ σ' tasks Hid).
  split_and!; try done.
  - intros r. rewrite Hid. apply Hidle.
  - intros e. rewrite Hrem. apply Hq.
  - intros r. rewrite Hrem. apply Hpend.
  - intros r. rewrite Hrem. apply Hnn.
  - intros r. rewrite Hrem. apply Hcomp.
  - intros r. rewrite Hctm. apply Hct.
  - intros r. rewrite Hrem, Hb, Hid. apply Hhist.
  - intros r. rewrite Hmd, Ha, Hctm. apply Hmiss.
  - rewrite Hmc. symmetry. apply count_missed_ext. intros r _. apply Hmd.
Qed.

(** The task under the cursor is pushed. *)
Lemma run_inv_enqueue tasks σ s s' idx r e :
  tasks !! idx = Some r → entry_task e = r →
  ready_queue s' ≡ₚ e :: ready_queue s →
  time s' = time s → history s' = history s →
  completed_tasks s' = completed_tasks s → missed_deadlines s' = missed_deadlines s →
  run_inv tasks σ s idx → run_inv tasks σ s' (idx + 1).
Proof.
  intros Hr He Hq' Ht' Hh' Hc' Hm'
    (Ht & Hids & Hidle & Hqnd & Hq & Hpend & Hnn & Hcomp & Hct & Hhist & Hmiss
     & Hcnd & Hcsub & Hmc).
  pose proof (ids_NoDup_refs _ _ Hids) as Hnd.
  assert (r ∈ drop idx tasks) as Hrd by (rewrite (drop_S _ _ _ Hr); apply list_elem_of_here).
  assert (take (idx + 1) tasks = take idx tasks ++ [r]) as Htake
    by (rewrite Nat.add_1_r; by apply take_S_r).
  unfold run_inv. rewrite Ht', Hh', Hc', Hm'.
  split_and!; try done.
  - rewrite Hq', fmap_cons, He. apply NoDup_cons. split; [| done].
    intros Hin. apply list_elem_of_fmap in Hin as (e' & -> & He').
    destruct (Hq e' He') as [Hin' _]. by apply (NoDup_take_drop tasks idx (entry_task e')).
  - intros e'. rewrite Hq', Htake, elem_of_cons, elem_of_app.
    intros [-> | He'].
    + rewrite He. split; [right; apply list_elem_of_here | by apply Hpend].
    + destruct (Hq e' He'). auto.
  - intros r' Hr'. apply Hpend. rewrite (drop_S _ _ _ Hr).
    rewrite Nat.add_1_r in Hr'. by apply list_elem_of_further.
Qed.

Lemma admits_run_inv pol tasks σ s idx σ1 s1 idx1 :
  admits pol tasks σ s idx σ1 s1 idx1 →
  run_inv tasks σ s idx → run_inv tasks σ1 s1 idx1.
Proof.
  induction 1 as [σ s idx _ | σ s idx r q σ' s' idx' Hr Harr Hq Hok _ IH]; [done |].
  intros Hinv. apply IH.
  apply (run_inv_enqueue tasks _ (with_queue s (ready_queue s) (_task_counter s + 1))
           _ idx r (entry_of pol σ (_task_counter s) r)); try done.
  apply (run_inv_untouched tasks σ _ s); try done.
  intros r'. destruct (decide (r' = r)) as [-> | Hne].
  - rewrite store_set_eq. apply untouched_set_counter.
  - rewrite store_set_ne by done. apply untouched_refl.
Qed.

Lemma executes_static σ s σ' s' r :
  executes σ s σ' s' → same_static (σ r) (σ' r).
Proof.
  destruct 1 as [? ? ? ? _ _ Hun | ? ? ? ? e q _ _ Hun Hst | ? ? ? ? e q e' _ _ _ Hun Hst].
  - apply Hun.
  - destruct (decide (r = entry_task e)) as [-> | Hne]; [done | by apply Hun].
  - destruct (decide (r = entry_task e)) as [-> | Hne]; [done | by apply Hun].
Qed.

Lemma executes_run_inv tasks σ s σ' s' idx :
  executes σ s σ' s' → run_inv tasks σ s idx → run_inv tasks σ' s' idx.
Proof.
  intros Hex Hinv.
  assert (∀ r, task_id (σ' r) = task_id (σ r)) as Hid
    by (intros r; apply (executes_static _ _ _ _ r Hex)).
  assert (∀ r, burst_time (σ' r) = burst_time (σ r)) as Hb
    by (intros r; apply (executes_static _ _ _ _ r Hex)).
  assert (∀ r, absolute_deadline (σ' r) = absolute_deadline (σ r)) as Ha
    by (intros r; apply (executes_static _ _ _ _ r Hex)).
  destruct Hinv
    as (Ht & Hids & Hidle & Hqnd & Hq & Hpend & Hnn & Hcomp & Hct & Hhist & Hmiss
        & Hcnd & Hcsub & Hmc).
  pose proof (ids_NoDup_refs _ _ Hids) as Hnd.
  destruct Hex
    as [σ s σ' s' Hnil Hnil' Hun Hh' Hc' Hm' Ht'
       | σ s σ' s' e q Hperm Hq' Hun Hst Hrem1 Hrem' Hct' Hmd' Hh' Hc' Hm' Ht'
       | σ s σ' s' e q e' Hperm Hq' He' Hun Hst Hrem1 Hrem' Hct' Hmd' Hh' Hc' Hm' Ht'].
  - (* an idle unit *)
    assert (∀ r, remaining_time (σ' r) = remaining_time (σ r)) as Hrem by (intros r; apply Hun).
    assert (∀ r, completion_time (σ' r) = completion_time (σ r)) as Hctm by (intros r; apply Hun).
    assert (∀ r, missed_deadline (σ' r) = missed_deadline (σ r)) as Hmd by (intros r; apply Hun).
    unfold run_inv. rewrite Ht', Hnil', Hh', Hc', Hm', (ids_ext σ σ' tasks Hid).
    split_and!; try done.
    + lia.
    + intros r. rewrite Hid. apply Hidle.
    + constructor.
    + intros e He. by apply elem_of_nil in He.
    + intros r. rewrite Hrem. apply Hpend.
    + intros r. rewrite Hrem. apply Hnn.
    + intros r. rewrite Hrem. apply Hcomp.
    + intros r. rewrite Hctm. apply Hct.
    + intros r Hr. rewrite Hrem, Hb, Hid, count_id_snoc.
      rewrite decide_False by (intros Heq; by apply (Hidle r Hr)).
      rewrite Z.add_0_r. by apply Hhist.
    + intros r. rewrite Hmd, Ha, Hctm. apply Hmiss.
    + rewrite Hmc. symmetry. apply count_missed_ext. intros r _. apply Hmd.
  - (* the selected task completes *)
    assert (e ∈ ready_queue s) as He by (rewrite Hperm; apply list_elem_of_here).
    destruct (Hq e He) as [Hrtake Hrpos].
    assert (entry_task e ∈ tasks) as Hrin by by eapply subseteq_take.
    rewrite Hperm, fmap_cons in Hqnd. apply NoDup_cons in Hqnd as [Hrq Hqnd].
    assert (entry_task e ∉ completed_tasks s) as Hrc
      by (intros Hin; apply Hcomp in Hin; [lia | done]).
    assert (missed_deadline (σ (entry_task e)) = false) as Hmdr.
    { destruct (missed_deadline (σ (entry_task e))) eqn:E; [| done].
      apply Hmiss in E as [Hin _]; done. }
    assert (∀ r, r ∈ tasks → r ≠ entry_task e →
                 task_id (σ r) ≠ task_id (σ (entry_task e))) as Hidne.
    { intros r Hr Hne Heq. apply Hne.
      by apply (NoDup_fmap_inj_on (λ r, task_id (σ r)) tasks). }
    unfold run_inv. rewrite Ht', Hq', Hh', Hc', Hm', (ids_ext σ σ' tasks Hid).
    split_and!; try done.
    + lia.
    + intros r. rewrite Hid. apply Hidle.
    + intros e1 He1.
      assert (entry_task e1 ≠ entry_task e) as Hne
        by (intros Heq; apply Hrq; rewrite <- Heq; by apply list_elem_of_fmap_2).
      destruct (Hun _ Hne) as (_ & -> & _). apply Hq. rewrite Hperm.
      by apply list_elem_of_further.
    + intros r Hr.
      assert (r ≠ entry_task e) as Hne
        by (intros ->; by apply (NoDup_take_drop tasks idx (entry_task e))).
      destruct (Hun _ Hne) as (_ & -> & _). by apply Hpend.
    + intros r Hr. destruct (decide (r = entry_task e)) as [-> | Hne]; [lia |].
      destruct (Hun _ Hne) as (_ & -> & _). by apply Hnn.
    + intros r Hr. rewrite elem_of_app, list_elem_of_singleton.
      destruct (decide (r = entry_task e)) as [-> | Hne]; [by intuition |].
      destruct (Hun _ Hne) as (_ & -> & _). rewrite (Hcomp r Hr). by intuition.
    + intros r Hr. rewrite elem_of_app, list_elem_of_singleton.
      destruct (decide (r = entry_task e)) as [-> | Hne].
      * rewrite Hct'. split; [by right | lia].
      * destruct (Hun _ Hne) as (_ & _ & -> & _). rewrite (Hct r Hr). by intuition.
    + intros r Hr. rewrite Hb, Hid, count_id_snoc.
      destruct (decide (r = entry_task e)) as [-> | Hne].
      * rewrite decide_True by done. rewrite Hrem'. specialize (Hhist _ Hrin). lia.
      * rewrite decide_False by (intros Heq; by apply (Hidne r Hr Hne)).
        destruct (Hun _ Hne) as (_ & -> & _). rewrite Z.add_0_r. by apply Hhist.
    + intros r Hr. rewrite elem_of_app, list_elem_of_singleton, Ha.
      destruct (decide (r = entry_task e)) as [-> | Hne].
      * rewrite Hmd', Hct', Hmdr.
        destruct (Z.gtb_spec (time s + 1) (absolute_deadline (σ (entry_task e))));
          split; try done; try lia; intuition.
      * destruct (Hun _ Hne) as (_ & _ & -> & ->). rewrite (Hmiss r Hr). by intuition.
    + apply NoDup_app. split_and!; [done | | apply NoDup_singleton].
      intros r Hr Hr'. apply list_elem_of_singleton in Hr' as ->. done.
    + intros r. rewrite elem_of_app, list_elem_of_singleton.
      intros [Hr | ->]; [by apply Hcsub | done].
    + rewrite count_missed_snoc, Hmd', Hmdr.
      rewrite (count_missed_ext σ σ' (completed_tasks s)).
      * destruct (time s + 1 >? absolute_deadline (σ (entry_task e))); lia.
      * intros r Hr. apply Hun. by intros ->.
  - (* the selected task is pushed back *)
    assert (e ∈ ready_queue s) as He by (rewrite Hperm; apply list_elem_of_here).
    destruct (Hq e He) as [Hrtake Hrpos].
    assert (entry_task e ∈ tasks) as Hrin by by eapply subseteq_take.
    rewrite Hperm, fmap_cons in Hqnd.
    pose proof Hqnd as Hqnd0. apply NoDup_cons in Hqnd as [Hrq Hqnd].
    assert (entry_task e ∉ completed_tasks s) as Hrc
      by (intros Hin; apply Hcomp in Hin; [lia | done]).
    assert (∀ r, r ∈ tasks → r ≠ entry_task e →
                 task_id (σ r) ≠ task_id (σ (entry_task e))) as Hidne.
    { intros r Hr Hne Heq. apply Hne.
      by apply (NoDup_fmap_inj_on (λ r, task_id (σ r)) tasks). }
    unfold run_inv. rewrite Ht', Hh', Hc', Hm', (ids_ext σ σ' tasks Hid).
    split_and!; try done.
    + lia.
    + intros r. rewrite Hid. apply Hidle.
    + by rewrite Hq', fmap_cons, He'.
    + intros e1. rewrite Hq', elem_of_cons. intros [-> | He1].
      * rewrite He', Hrem'. split; [done | lia].
      * assert (entry_task e1 ≠ entry_task e) as Hne
          by (intros Heq; apply Hrq; rewrite <- Heq; by apply list_elem_of_fmap_2).
        destruct (Hun _ Hne) as (_ & -> & _). apply Hq. rewrite Hperm.
        by apply list_elem_of_further.
    + intros r Hr.
      assert (r ≠ entry_task e) as Hne
        by (intros ->; by apply (NoDup_take_drop tasks idx (entry_task e))).
      destruct (Hun _ Hne) as (_ & -> & _). by apply Hpend.
    + intros r Hr. destruct (decide (r = entry_task e)) as [-> | Hne]; [lia |].
      destruct (Hun _ Hne) as (_ & -> & _). by apply Hnn.
    + intros r Hr. destruct (decide (r = entry_task e)) as [-> | Hne].
      * split; [lia | done].
      * destruct (Hun _ Hne) as (_ & -> & _). by apply Hcomp.
    + intros r Hr. destruct (decide (r = entry_task e)) as [-> | Hne].
      * rewrite Hct'. by apply Hct.
      * destruct (Hun _ Hne) as (_ & _ & -> & _). by apply Hct.
    + intros r Hr. rewrite Hb, Hid, count_id_snoc.
      destruct (decide (r = entry_task e)) as [-> | Hne].
      * rewrite decide_True by done. rewrite Hrem'. specialize (Hhist _ Hrin). lia.
      * rewrite decide_False by (intros Heq; by apply (Hidne r Hr Hne)).
        destruct (Hun _ Hne) as (_ & -> & _). rewrite Z.add_0_r. by apply Hhist.
    + intros r Hr. rewrite Ha. destruct (decide (r = entry_task e)) as [-> | Hne].
      * rewrite Hmd', Hct'. by apply Hmiss.
      * destruct (Hun _ Hne) as (_ & _ & -> & ->). by apply Hmiss.
    + rewrite Hmc. symmetry. apply count_missed_ext.
      intros r Hr. destruct (decide (r = entry_task e)) as [-> | Hne]; [done |].
      by apply Hun.
Qed.

Lemma steps_run_inv pol tasks σ s idx σ' s' idx' :
  steps pol tasks σ s idx σ' s' idx' →
  run_inv tasks σ s idx → run_inv tasks σ' s' idx'.
Proof.
  intros Hsteps Hinv.
  destruct (steps_executes _ _ _ _ _ _ _ _ Hsteps) as (σ1 & s1 & Hadm & Hex).
  eapply executes_run_inv; [exact Hex |]. by eapply admits_run_inv.
Qed.

Lemma runs_run_inv pol tasks max_time σ s idx σ' s' idx' :
  runs pol tasks max_time σ s idx σ' s' idx' →
  run_inv tasks σ s idx → run_inv tasks σ' s' idx'.
Proof.
  induction 1 as [| ? ? ? ? ? ? ? ? ? _ Hsteps _ IH]; [done |].
  intros Hinv. apply IH. by eapply steps_run_inv.
Qed.

(** ** Runs on a well-formed task set *)

Lemma constructed_fields t :
  constructed t →
  remaining_time t = burst_time t ∧ completion_time t = -1 ∧
  missed_deadline t = false ∧ start_time t = -1 ∧
  absolute_deadline t = arrival_time t + deadline t.
Proof. intros (id & a & b & d & p & [= <-]). by repeat split. Qed.

Lemma well_formed_perm σ tasks tasks' :
  tasks' ≡ₚ tasks → well_formed σ tasks → well_formed σ tasks'.
Proof.
  intros Hp (Hnd & Hall). split; [by rewrite Hp |].
  intros r Hr. apply Hall. by rewrite <- Hp.
Qed.

Lemma run_inv_init σ tasks :
  well_formed σ tasks → run_inv tasks σ Scheduler_init 0.
Proof.
  intros (Hnd & Hall).
  assert (∀ r, r ∈ tasks → 0 < remaining_time (σ r) ∧ completion_time (σ r) = -1 ∧
                           missed_deadline (σ r) = false) as Hfresh.
  { intros r Hr. destruct (Hall r Hr) as (Hc & Hb & _).
    destruct (constructed_fields _ Hc) as (-> & -> & -> & _). done. }
  unfold run_inv. simpl. split_and!; try done.
  - intros r Hr. by apply Hall.
  - constructor.
  - intros e He. by apply elem_of_nil in He.
  - intros r Hr. by apply Hfresh.
  - intros r Hr. destruct (Hfresh r Hr). lia.
  - intros r Hr. destruct (Hfresh r Hr). split; [lia | by intros ?%elem_of_nil].
  - intros r Hr. destruct (Hfresh r Hr) as (_ & -> & _).
    split; [done | by intros ?%elem_of_nil].
  - intros r Hr. destruct (Hall r Hr) as (Hc & _).
    destruct (constructed_fields _ Hc) as (-> & _). unfold count_id. simpl. lia.
  - intros r Hr. destruct (Hfresh r Hr) as (_ & _ & ->).
    split; [done | by intros [?%elem_of_nil _]].
  - constructor.
  - intros r Hr. by apply elem_of_nil in Hr.
Qed.

(** A run on a well-formed task set returns in a state that satisfies the
    loop invariant. *)
Theorem run_well_formed pol σ tasks max_time :
  well_formed σ tasks →
  ∃ o idx, run pol σ Scheduler_init tasks max_time = Ok o ∧
           out_tasks o ≡ₚ tasks ∧
           out_history o = history (out_sched o) ∧
           time (out_sched o) = Z.max 0 max_time ∧
           (∀ r, same_static (σ r) (out_store o r)) ∧
           run_inv (out_tasks o) (out_store o) (out_sched o) idx.
Proof.
  intros Hwf.
  destruct (run_spec pol σ Scheduler_init tasks max_time (queue_ok_nil _))
    as (σ' & s' & idx' & Hrun & Hruns & _).
  eexists _, idx'. split; [exact Hrun |]. simpl.
  split; [apply sort_by_key_perm |]. split; [done |].
  split; [by apply runs_time in Hruns |].
  split; [intros r; by eapply runs_static |].
  eapply runs_run_inv; [exact Hruns |].
  apply run_inv_init. eapply well_formed_perm; [apply sort_by_key_perm | done].
Qed.

(** The remaining time of a task never increases. *)
Lemma executes_remaining_mono σ s σ' s' r :
  executes σ s σ' s' → remaining_time (σ' r) ≤ remaining_time (σ r).
Proof.
  destruct 1 as [? ? ? ? _ _ Hun | ? ? ? ? e q _ _ Hun _ Hr1 Hr0
                | ? ? ? ? e q e' _ _ _ Hun _ _ Hr'].
  - destruct (Hun r) as (_ & -> & _). lia.
  - destruct (decide (r = entry_task e)) as [-> | Hne]; [lia |].
    destruct (Hun r Hne) as (_ & -> & _). lia.
  - destruct (decide (r = entry_task e)) as [-> | Hne]; [lia |].
    destruct (Hun r Hne) as (_ & -> & _). lia.
Qed.

Lemma steps_remaining_mono pol tasks σ s idx σ' s' idx' r :
  steps pol tasks σ s idx σ' s' idx' → remaining_time (σ' r) ≤ remaining_time (σ r).
Proof.
  intros Hsteps.
  destruct (steps_executes _ _ _ _ _ _ _ _ Hsteps) as (σ1 & s1 & Hadm & Hex).
  apply (executes_remaining_mono _ _ _ _ r) in Hex.
  destruct (admits_untouched _ _ _ _ _ _ _ _ r Hadm) as (_ & <- & _). done.
Qed.

Lemma runs_remaining_mono pol tasks max_time σ s idx σ' s' idx' r :
  runs pol tasks max_time σ s idx σ' s' idx' →
  remaining_time (σ' r) ≤ remaining_time (σ r).
Proof.
  induction 1 as [| ? ? ? ? ? ? ? ? ? _ Hsteps _ IH]; [lia |].
  apply (steps_remaining_mono _ _ _ _ _ _ _ _ r) in Hsteps. lia.
Qed.

(** The claim of C8 fails outside the data model, for every run and
    every task as it is worded.  A task with burst time 0 is selected at
    every unit and never completes, so after three units its remaining time
    is -3.  A task named like the idle marker, with burst time 1, shares its
    identifier with the idle entries: after three units its remaining time
    is 0 while three history entries bear its identifier. *)
Lemma accounting_fails_outside_data_model :
  ¬ (∀ pol σ tasks max_time o,
       run pol σ Scheduler_init tasks max_time = Ok o →
       ∀ r, r ∈ tasks → 0 ≤ remaining_time (out_store o r)) ∧
  ¬ (∀ pol σ tasks max_time o,
       (∀ r, r ∈ tasks → constructed (σ r) ∧ 0 < burst_time (σ r)) →
       run pol σ Scheduler_init tasks max_time = Ok o →
       ∀ r, r ∈ tasks →
         remaining_time (out_store o r) =
           burst_time (σ r) - count_id (task_id (σ r)) (out_history o)).
Proof.
  split.
  - intros H.
    destruct (run EDF (store_of [fresh_task "A" 0 0 5 0]) Scheduler_init [0%nat] 3)
      as [o | e] eqn:Hrun; [| vm_compute in Hrun; discriminate].
    assert (remaining_time (out_store o 0%nat) = -3) as Hrem.
    { assert (Ok o = run EDF (store_of [fresh_task "A" 0 0 5 0]) Scheduler_init [0%nat] 3)
        as Ho by done.
      vm_compute in Ho. by injection Ho as ->. }
    pose proof (H EDF _ _ 3 o Hrun 0%nat (list_elem_of_here _ _)) as Hnn.
    rewrite Hrem in Hnn. lia.
  - intros H.
    destruct (run EDF (store_of [fresh_task "IDLE" 0 1 5 0]) Scheduler_init [0%nat] 3)
      as [o | e] eqn:Hrun; [| vm_compute in Hrun; discriminate].
    assert (remaining_time (out_store o 0%nat) = 0 ∧
            count_id "IDLE" (out_history o) = 3) as [Hrem Hcount].
    { assert (Ok o = run EDF (store_of [fresh_task "IDLE" 0 1 5 0]) Scheduler_init [0%nat] 3)
        as Ho by done.
      vm_compute in Ho. injection Ho as ->. by split. }
    assert (∀ r, r ∈ [0%nat] →
              constructed (store_of [fresh_task "IDLE" 0 1 5 0] r) ∧
              0 < burst_time (store_of [fresh_task "IDLE" 0 1 5 0] r)) as Hpre.
    { intros r ->%list_elem_of_singleton.
      split; [by exists "IDLE"%string, 0, 1, 5, 0 | done]. }
    pose proof (H EDF _ _ 3 o Hpre Hrun 0%nat (list_elem_of_here _ _)) as Heq.
    change (task_id (store_of [fresh_task "IDLE" 0 1 5 0] 0%nat)) with "IDLE"%string in Heq.
    change (burst_time (store_of [fresh_task "IDLE" 0 1 5 0] 0%nat)) with 1 in Heq.
    rewrite Hrem, Hcount in Heq. lia.
Qed.

(** C8, amended. After a run on a well-formed task set (fresh tasks, positive burst
    times, distinct identifiers other than the idle marker), the remaining
    time of every task is non-negative and equals its burst time minus
    the number of history entries that bear its identifier; it is zero
    exactly when the task is completed; and it never increases: at a
    later bound it is at most what it is at an earlier bound, and at most
    the burst time. *)
Theorem remaining_time_accounting pol σ tasks max_time :
  well_formed σ tasks →
  ∃ o, run pol σ Scheduler_init tasks max_time = Ok o ∧
    (∀ r, r ∈ tasks →
       0 ≤ remaining_time (out_store o r) ∧
       remaining_time (out_store o r) =
         burst_time (σ r) - count_id (task_id (σ r)) (out_history o) ∧
       (remaining_time (out_store o r) = 0 ↔ r ∈ completed_tasks (out_sched o)) ∧
       (remaining_time (out_store o r) = 0 ↔ completion_time (out_store o r) ≠ -1) ∧
       remaining_time (out_store o r) ≤ burst_time (σ r)) ∧
    (∀ m o', m ≤ max_time → run pol σ Scheduler_init tasks m = Ok o' →
       ∀ r, remaining_time (out_store o r) ≤ remaining_time (out_store o' r)).
Proof.
  intros Hwf.
  destruct (run_well_formed pol σ tasks max_time Hwf)
    as (o & idx & Hrun & Hperm & Hh & _ & Hst & Hinv).
  exists o. split; [exact Hrun |]. split.
  - destruct Hinv as (_ & _ & _ & _ & _ & _ & Hnn & Hcomp & Hct & Hhist & _).
    intros r Hr. rewrite <- Hperm in Hr.
    destruct (Hst r) as (Hid & _ & Hb & _).
    specialize (Hhist r Hr). rewrite Hid, Hb, <- Hh in Hhist.
    split_and!; [by apply Hnn | done | by apply Hcomp | | ].
    + rewrite (Hcomp r Hr). symmetry. by apply Hct.
    + unfold count_id in Hhist. lia.
  - intros m o' Hm Hrun' r.
    destruct (run_prefix _ _ _ _ _ _ Hm Hrun')
      as (o2 & idx1 & idx2 & Hrun2 & _ & _ & _ & Hruns).
    rewrite Hrun in Hrun2. injection Hrun2 as <-.
    by eapply runs_remaining_mono.
Qed.

Lemma well_formed_T1_T2 : well_formed (store_of [T1; T2]) [0; 1]%nat.
Proof.
  split.
  - simpl. apply NoDup_cons. split; [| apply NoDup_singleton].
    rewrite list_elem_of_singleton. discriminate.
  - intros r Hr.
    apply elem_of_cons in Hr as [-> | Hr];
      [| (apply list_elem_of_singleton in Hr as ->)].
    + split; [by exists "T1"%string, 0, 3, 10, 0 | split; [done | discriminate]].
    + split; [by exists "T2"%string, 1, 2, 4, 0 | split; [done | discriminate]].
Defined.

Lemma remaining_time_accounting_witness :
  well_formed (store_of [T1; T2]) [0; 1]%nat ∧
  ∃ o, run EDF (store_of [T1; T2]) Scheduler_init [0; 1]%nat 4 = Ok o ∧
       ∀ r, r ∈ [0; 1]%nat →
         0 ≤ remaining_time (out_store o r) ∧
         remaining_time (out_store o r) =
           burst_time (store_of [T1; T2] r) -
           count_id (task_id (store_of [T1; T2] r)) (out_history o).
Proof.
  split; [exact well_formed_T1_T2 |].
  destruct (remaining_time_accounting EDF (store_of [T1; T2]) [0; 1]%nat 4
              well_formed_T1_T2) as (o & Hrun & Hall & _).
  exists o. split; [exact Hrun |]. intros r Hr.
  destruct (Hall r Hr) as (H0 & H1 & _). split; [exact H0 | exact H1].
Defined.


(** ** When the loop stops *)

Lemma executes_ctime σ s σ' s' r :
  executes σ s σ' s' →
  completion_time (σ' r) = completion_time (σ r) ∨ time s < completion_time (σ' r).
Proof.
  destruct 1 as [? ? ? ? _ _ Hun | ? ? ? ? e q _ _ Hun _ _ _ Hct
                | ? ? ? ? e q e' _ _ _ Hun _ _ _ Hct].
  - left. apply Hun.
  - destruct (decide (r = entry_task e)) as [-> | Hne]; [right; lia | left; by apply Hun].
  - destruct (decide (r = entry_task e)) as [-> | Hne]; [by left | left; by apply Hun].
Qed.

Lemma runs_ctime pol tasks max_time σ s idx σ' s' idx' r :
  runs pol tasks max_time σ s idx σ' s' idx' →
  completion_time (σ' r) = completion_time (σ r) ∨ time s < completion_time (σ' r).
Proof.
  induction 1 as [| σ s idx σ1 s1 idx1 σ' s' idx' _ Hsteps _ IH]; [by left |].
  pose proof (steps_time _ _ _ _ _ _ _ _ Hsteps) as Ht.
  destruct (steps_executes _ _ _ _ _ _ _ _ Hsteps) as (σ0 & s0 & Hadm & Hex).
  pose proof (admits_time _ _ _ _ _ _ _ _ Hadm) as Ht0.
  destruct (admits_untouched _ _ _ _ _ _ _ _ r Hadm) as (_ & _ & Hc0 & _).
  destruct (executes_ctime _ _ _ _ r Hex) as [Hc1 | Hc1]; destruct IH as [IH | IH];
    first [left; congruence | right; lia].
Qed.

(** Once every task has completed, a unit is idle. *)
Lemma steps_all_done pol tasks σ s idx σ' s' idx' :
  steps pol tasks σ s idx σ' s' idx' →
  run_inv tasks σ s idx →
  (∀ r, r ∈ tasks → remaining_time (σ r) = 0) →
  history s' = history s ++ [(time s, time s + 1, IDLE)].
Proof.
  intros Hsteps Hinv Hdone.
  destruct (steps_executes _ _ _ _ _ _ _ _ Hsteps) as (σ1 & s1 & Hadm & Hex).
  destruct Hinv as (_ & _ & _ & _ & Hq & Hpend & _).
  destruct Hadm as [σ s idx _ | σ s idx r q σ1 s1 idx1 Hr _ _ _ _].
  - destruct Hex as [? ? ? ? _ _ _ Hh | σ s σ' s' e q Hperm | σ s σ' s' e q e' Hperm];
      [done | exfalso | exfalso].
    + assert (e ∈ ready_queue s) as He by (rewrite Hperm; apply list_elem_of_here).
      destruct (Hq e He) as [Hin Hpos].
      rewrite (Hdone (entry_task e)) in Hpos; [lia | by eapply subseteq_take].
    + assert (e ∈ ready_queue s) as He by (rewrite Hperm; apply list_elem_of_here).
      destruct (Hq e He) as [Hin Hpos].
      rewrite (Hdone (entry_task e)) in Hpos; [lia | by eapply subseteq_take].
  - exfalso.
    assert (r ∈ drop idx tasks) as Hrd
      by (rewrite (drop_S _ _ _ Hr); apply list_elem_of_here).
    pose proof (Hpend r Hrd) as Hpos.
    rewrite (Hdone r) in Hpos; [lia | by eapply list_elem_of_lookup_2].
Qed.

(** The claim of C3 fails: with one task of burst time 1 and [max_time = 3],
    history entries are produced for units 1 and 2 although every task
    has completed at the end of unit 0. *)
Lemma loop_continues_after_completion :
  ¬ (∀ pol σ tasks max_time o,
       well_formed σ tasks →
       run pol σ Scheduler_init tasks max_time = Ok o →
       ∀ i h, out_history o !! i = Some h →
         ∃ r, r ∈ tasks ∧
              (completion_time (out_store o r) = -1 ∨
               Z.of_nat i < completion_time (out_store o r))).
Proof.
  intros H.
  assert (well_formed (store_of [fresh_task "A" 0 1 5 0]) [0%nat]) as Hwf.
  { split; [apply NoDup_singleton |]. intros r ->%list_elem_of_singleton.
    split; [by exists "A"%string, 0, 1, 5, 0 | split; [done | discriminate]]. }
  destruct (run EDF (store_of [fresh_task "A" 0 1 5 0]) Scheduler_init [0%nat] 3)
    as [o | e] eqn:Hrun; [| vm_compute in Hrun; discriminate].
  assert (out_history o !! 1%nat = Some (1, 2, IDLE) ∧
          completion_time (out_store o 0%nat) = 1) as [Hh Hc].
  { assert (Ok o = run EDF (store_of [fresh_task "A" 0 1 5 0]) Scheduler_init [0%nat] 3)
      as Ho by done.
    vm_compute in Ho. injection Ho as ->. by split. }
  destruct (H EDF _ _ 3 o Hwf Hrun 1%nat _ Hh) as (r & ->%list_elem_of_singleton & Hr).
  rewrite Hc in Hr. simpl in Hr. lia.
Qed.

(** C3, amended. On a well-formed task set the loop stops exactly when the
    time reaches [max_time], whether or not every task has completed.
    Tasks that are incomplete at that point stay incomplete: they have
    positive remaining time, are not in the completed list and have no
    completion time.  A unit by which every task has completed still gets
    its history entry, an idle one. *)
Theorem loop_stops_at_max_time pol σ tasks max_time :
  well_formed σ tasks → 0 ≤ max_time →
  ∃ o, run pol σ Scheduler_init tasks max_time = Ok o ∧
    time (out_sched o) = max_time ∧
    length (out_history o) = Z.to_nat max_time ∧
    (∀ r, r ∈ tasks → remaining_time (out_store o r) ≠ 0 →
       0 < remaining_time (out_store o r) ∧
       (r ∉ completed_tasks (out_sched o)) ∧
       completion_time (out_store o r) = -1) ∧
    (∀ i, (i < Z.to_nat max_time)%nat →
       (∀ r, r ∈ tasks → completion_time (out_store o r) ≠ -1 ∧
                          completion_time (out_store o r) ≤ Z.of_nat i) →
       out_history o !! i = Some (Z.of_nat i, Z.of_nat i + 1, IDLE)).
Proof.
  intros Hwf Hmax.
  destruct (run_well_formed pol σ tasks max_time Hwf)
    as (o & idx & Hrun & Hperm & Hh & Ht & Hst & Hinv).
  destruct (run_history_shape pol σ tasks max_time) as (o' & Hrun' & Hlen & _).
  rewrite Hrun in Hrun'. injection Hrun' as <-.
  exists o. split; [exact Hrun |]. split; [lia |]. split; [done |]. split.
  - destruct Hinv as (_ & _ & _ & _ & _ & _ & Hnn & Hcomp & Hct & _).
    intros r Hr Hne. rewrite <- Hperm in Hr.
    specialize (Hnn r Hr). split; [lia |].
    split; [by rewrite <- (Hcomp r Hr) |].
    destruct (decide (completion_time (out_store o r) = -1)) as [| Hc]; [done |].
    apply (Hct r Hr), (Hcomp r Hr) in Hc. done.
  - intros i Hi Hdone.
    destruct (run_well_formed pol σ tasks (Z.of_nat i) Hwf)
      as (oi & idxi & Hruni & Hpermi & Hhi & Hti & _ & Hinvi).
    destruct (run_history_shape pol σ tasks (Z.of_nat i)) as (oi' & Hruni' & Hleni & _).
    rewrite Hruni in Hruni'. injection Hruni' as <-.
    destruct (run_prefix pol σ tasks (Z.of_nat i) max_time oi) as
      (o2 & idx1 & idx2 & Hrun2 & _ & Hsorted & Hruns1 & Hruns); [lia | done |].
    rewrite Hrun in Hrun2. injection Hrun2 as <-.
    assert (run_inv (out_tasks oi) (out_store oi) (out_sched oi) idx1) as Hinv1.
    { eapply runs_run_inv; [exact Hruns1 |]. apply run_inv_init.
      eapply well_formed_perm; [| exact Hwf]. rewrite Hsorted. apply sort_by_key_perm. }
    clear Hinvi. rename Hinv1 into Hinvi.
    assert (time (out_sched oi) = Z.of_nat i) as Hti' by lia.
    assert (∀ r, r ∈ out_tasks oi → remaining_time (out_store oi r) = 0) as Hall.
    { intros r Hr.
      destruct Hinvi as (_ & _ & _ & _ & _ & _ & _ & Hcomp & Hct & _).
      apply (Hcomp r Hr), (Hct r Hr).
      rewrite Hpermi in Hr. destruct (Hdone r Hr) as [Hne Hle].
      destruct (runs_ctime _ _ _ _ _ _ _ _ _ r Hruns) as [Heq | Hlt]; [congruence | lia]. }
    inversion Hruns as [| ? ? ? σ1 s1 idx3 ? ? ? Hlt Hsteps Hruns']; subst; [lia |].
    pose proof (steps_all_done _ _ _ _ _ _ _ _ Hsteps Hinvi Hall) as Hh1.
    destruct (runs_history _ _ _ _ _ _ _ _ _ Hruns') as (rest & Hrest).
    rewrite Hh, Hrest, Hh1, <- Hhi, Hti', <- app_assoc.
    rewrite lookup_app_r by lia.
    replace (i - length (out_history oi))%nat with 0%nat by lia. done.
Qed.

Lemma loop_stops_at_max_time_witness :
  well_formed (store_of [T1; T2]) [0; 1]%nat ∧ 0 ≤ 8 ∧
  ∃ o, run EDF (store_of [T1; T2]) Scheduler_init [0; 1]%nat 8 = Ok o ∧
       time (out_sched o) = 8 ∧ length (out_history o) = Z.to_nat 8.
Proof.
  split; [exact well_formed_T1_T2 |]. split; [lia |].
  destruct (loop_stops_at_max_time EDF (store_of [T1; T2]) [0; 1]%nat 8
              well_formed_T1_T2 ltac:(lia)) as (o & Hrun & Ht & Hlen & _).
  exists o. split; [exact Hrun |]. split; [exact Ht | exact Hlen].
Defined.


(** ** Runs on corresponding task objects proceed in lockstep *)

Lemma bind_rel {A1 A2 B1 B2 : Type} (P : A1 → A2 → Prop) (Q : B1 → B2 → Prop)
    (c1 : result A1) (c2 : result A2) (k1 : A1 → result B1) (k2 : A2 → result B2) :
  result_rel P c1 c2 →
  (∀ a1 a2, P a1 a2 → result_rel Q (k1 a1) (k2 a2)) →
  result_rel Q (bind c1 k1) (bind c2 k2).
Proof. intros [a b Hab | e] Hk; simpl; [by apply Hk | constructor]. Qed.

Lemma result_rel_eq {A : Type} (c : result A) : result_rel eq c c.
Proof. destruct c; by constructor. Qed.

Section heapq_rel.
Context {A B : Type} (E : A → B → Prop).
Context (lt1 : A → A → result bool) (lt2 : B → B → result bool).
Hypothesis lt_rel : ∀ x x' y y', E x y → E x' y' → lt1 x x' = lt2 y y'.

Lemma getitem_rel h1 h2 i :
  Forall2 E h1 h2 → result_rel E (getitem h1 i) (getitem h2 i).
Proof.
  intros Hh. unfold getitem.
  destruct (h1 !! i) as [x |] eqn:H1.
  - destruct (Forall2_lookup_l _ _ _ _ _ Hh H1) as (y & -> & Hxy). by constructor.
  - assert (h2 !! i = None) as ->; [| constructor].
    apply lookup_ge_None. rewrite <- (Forall2_length _ _ _ Hh).
    by apply lookup_ge_None.
Qed.

Lemma setitem_rel h1 h2 i x y :
  Forall2 E h1 h2 → E x y →
  result_rel (Forall2 E) (setitem h1 i x) (setitem h2 i y).
Proof.
  intros Hh Hxy. unfold setitem. rewrite <- (Forall2_length _ _ _ Hh).
  destruct (i <? length h1)%nat; constructor. by apply Forall2_insert.
Qed.

Lemma lt_result_rel x x' y y' :
  E x y → E x' y' → result_rel eq (lt1 x x') (lt2 y y').
Proof. intros Hxy Hxy'. rewrite (lt_rel _ _ _ _ Hxy Hxy'). apply result_rel_eq. Qed.

Lemma siftdown_loop_rel fuel : ∀ h1 h2 startpos pos x y,
  Forall2 E h1 h2 → E x y →
  result_rel (Forall2 E) (siftdown_loop lt1 fuel h1 startpos pos x)
                         (siftdown_loop lt2 fuel h2 startpos pos y).
Proof.
  induction fuel as [|fuel IH]; intros h1 h2 startpos pos x y Hh Hxy; simpl.
  - by apply setitem_rel.
  - destruct (startpos <? pos)%nat; [| by apply setitem_rel].
    eapply bind_rel; [by apply getitem_rel |]. intros p1 p2 Hp.
    eapply bind_rel; [by apply lt_result_rel |]. intros b ? <-.
    destruct b; [| by apply setitem_rel].
    eapply bind_rel; [by apply setitem_rel |]. intros h1' h2' Hh'.
    by apply IH.
Qed.

Lemma _siftdown_rel h1 h2 startpos pos :
  Forall2 E h1 h2 →
  result_rel (Forall2 E) (_siftdown lt1 h1 startpos pos) (_siftdown lt2 h2 startpos pos).
Proof.
  intros Hh. unfold _siftdown.
  eapply bind_rel; [by apply getitem_rel |]. intros x y Hxy.
  by apply siftdown_loop_rel.
Qed.

Lemma smaller_child_rel h1 h2 endpos childpos :
  Forall2 E h1 h2 →
  result_rel eq (smaller_child lt1 h1 endpos childpos)
                (smaller_child lt2 h2 endpos childpos).
Proof.
  intros Hh. unfold smaller_child.
  destruct (childpos + 1 <? endpos)%nat; [| by constructor].
  eapply bind_rel; [by apply getitem_rel |]. intros l1 l2 Hl.
  eapply bind_rel; [by apply getitem_rel |]. intros r1 r2 Hr.
  eapply bind_rel; [by apply lt_result_rel |]. intros b ? <-.
  by constructor.
Qed.

Lemma siftup_loop_rel fuel : ∀ h1 h2 endpos pos childpos,
  Forall2 E h1 h2 →
  result_rel (λ a b, Forall2 E a.1 b.1 ∧ a.2 = b.2)
    (siftup_loop lt1 fuel h1 endpos pos childpos)
    (siftup_loop lt2 fuel h2 endpos pos childpos).
Proof.
  induction fuel as [|fuel IH]; intros h1 h2 endpos pos childpos Hh; simpl.
  - by constructor.
  - destruct (childpos <? endpos)%nat; [| by constructor].
    eapply bind_rel; [by apply smaller_child_rel |]. intros c ? <-.
    eapply bind_rel; [by apply getitem_rel |]. intros x y Hxy.
    eapply bind_rel; [by apply setitem_rel |]. intros h1' h2' Hh'.
    by apply IH.
Qed.

Lemma _siftup_rel h1 h2 pos :
  Forall2 E h1 h2 →
  result_rel (Forall2 E) (_siftup lt1 h1 pos) (_siftup lt2 h2 pos).
Proof.
  intros Hh. unfold _siftup. rewrite <- (Forall2_length _ _ _ Hh).
  eapply bind_rel; [by apply getitem_rel |]. intros x y Hxy.
  eapply bind_rel; [by apply siftup_loop_rel |].
  intros [h1' p1] [h2' p2] [Hh' Hp]. simpl in *. subst p2.
  eapply bind_rel; [by apply setitem_rel |]. intros h1'' h2'' Hh''.
  by apply _siftdown_rel.
Qed.

Lemma heappush_rel h1 h2 x y :
  Forall2 E h1 h2 → E x y →
  result_rel (Forall2 E) (heappush lt1 h1 x) (heappush lt2 h2 y).
Proof.
  intros Hh Hxy. unfold heappush.
  rewrite !length_app, <- (Forall2_length _ _ _ Hh). simpl.
  apply _siftdown_rel. apply Forall2_app; [done | by constructor].
Qed.

Lemma list_pop_rel h1 h2 :
  Forall2 E h1 h2 →
  result_rel (λ a b, E a.1 b.1 ∧ Forall2 E a.2 b.2) (list_pop h1) (list_pop h2).
Proof.
  intros Hh.
  destruct (snoc_cases h1) as [-> | (l1 & x & ->)].
  - apply Forall2_nil_inv_l in Hh as ->. constructor.
  - apply Forall2_app_inv_l in Hh as (l2 & k2 & Hl & Hk & ->).
    apply Forall2_cons_inv_l in Hk as (y & k2' & Hxy & Hnil & ->).
    apply Forall2_nil_inv_l in Hnil as ->.
    rewrite !list_pop_app. by constructor.
Qed.

Lemma heappop_rel h1 h2 :
  Forall2 E h1 h2 →
  result_rel (λ a b, E a.1 b.1 ∧ Forall2 E a.2 b.2) (heappop lt1 h1) (heappop lt2 h2).
Proof.
  intros Hh. unfold heappop.
  eapply bind_rel; [by apply list_pop_rel |].
  intros [x1 l1] [x2 l2] [Hx Hl]. simpl in *.
  destruct Hl as [| a b l1 l2 Hab Hl]; [by constructor |].
  eapply bind_rel; [apply getitem_rel; by constructor |]. intros r1 r2 Hr.
  eapply bind_rel; [apply setitem_rel; [by constructor | done] |]. intros h1' h2' Hh'.
  eapply bind_rel; [by apply _siftup_rel |]. intros h1'' h2'' Hh''.
  by constructor.
Qed.
End heapq_rel.

Section scheduler_rel.
Context (R : ref → ref → Prop).
Hypothesis R_one_to_one : one_to_one R.

Lemma entry_lt_rel x x' y y' :
  entry_rel R x y → entry_rel R x' y' → entry_lt x x' = entry_lt y y'.
Proof.
  destruct x as [[[p1 a1] c1] t1], x' as [[[p1' a1'] c1'] t1'],
    y as [[[p2 a2] c2] t2], y' as [[[p2' a2'] c2'] t2'].
  unfold entry_rel, entry_priority, entry_arrival, entry_counter, entry_task. simpl.
  intros (-> & -> & -> & Ht) (-> & -> & -> & Ht'). unfold entry_lt.
  destruct (negb (p2 =?  p2')); [done |].
  destruct (negb (a2 =?  a2')); [done |].
  destruct (negb (c2 =?  c2')); [done |].
  destruct R_one_to_one as [Hfun Hinj].
  destruct (decide (t1 = t1')) as [-> | Hne], (decide (t2 = t2')) as [-> | Hne'];
    try done.
  - exfalso. apply Hne'. by eapply Hfun.
  - exfalso. apply Hne. by eapply Hinj.
Qed.

Lemma store_set_rel σ1 σ2 r1 r2 t :
  store_rel R σ1 σ2 → R r1 r2 →
  store_rel R (store_set σ1 r1 t) (store_set σ2 r2 t).
Proof.
  intros Hσ Hr a b Hab. unfold store_set.
  destruct R_one_to_one as [Hfun Hinj].
  destruct (decide (a = r1)) as [-> | Hne], (decide (b = r2)) as [-> | Hne'];
    try done.
  - exfalso. apply Hne'. by eapply Hfun.
  - exfalso. apply Hne. by eapply Hinj.
  - by apply Hσ.
Qed.

Lemma add_task_rel pol σ1 σ2 s1 s2 r1 r2 :
  store_rel R σ1 σ2 → sched_rel R s1 s2 → R r1 r2 →
  result_rel (state_rel R) (add_task pol σ1 s1 r1) (add_task pol σ2 s2 r2).
Proof.
  intros Hσ (Ht & Hq & Hh & Hc & Hm & Hn) Hr. unfold add_task.
  rewrite !store_set_eq, (Hσ _ _ Hr), Hn.
  eapply bind_rel.
  - apply (heappush_rel (entry_rel R) entry_lt entry_lt entry_lt_rel); [done |].
    by repeat split.
  - intros q1 q2 Hq'. constructor. split; simpl.
    + rewrite <- (Hσ _ _ Hr). by apply store_set_rel.
    + by repeat split.
Qed.

Lemma get_next_task_rel s1 s2 :
  sched_rel R s1 s2 →
  result_rel (λ a b, option_Forall2 R a.1 b.1 ∧ sched_rel R a.2 b.2)
    (get_next_task s1) (get_next_task s2).
Proof.
  intros Hs. pose proof Hs as (Ht & Hq & Hh & Hc & Hm & Hn). unfold get_next_task.
  destruct (ready_queue s1) as [| e1 q1] eqn:E1;
    destruct (ready_queue s2) as [| e2 q2] eqn:E2;
    try (by inversion Hq).
  - constructor. split; [constructor | exact Hs].
  - eapply bind_rel.
    + apply (heappop_rel (entry_rel R) entry_lt entry_lt entry_lt_rel).
      exact Hq.
    + intros [x1 l1] [x2 l2] [Hx Hl]. simpl in *. constructor. split; simpl.
      * constructor. apply Hx.
      * by repeat split.
Qed.

Lemma loop_rel_intro σ1 σ2 s1 s2 (idx : nat) :
  store_rel R σ1 σ2 → sched_rel R s1 s2 →
  loop_rel R (σ1, s1, idx) (σ2, s2, idx).
Proof. intros Hσ Hs. by split. Qed.

Lemma arrivals_rel pol tasks1 tasks2 fuel : ∀ σ1 σ2 s1 s2 idx,
  Forall2 R tasks1 tasks2 → store_rel R σ1 σ2 → sched_rel R s1 s2 →
  result_rel (loop_rel R) (arrivals fuel pol tasks1 σ1 s1 idx)
                         (arrivals fuel pol tasks2 σ2 s2 idx).
Proof.
  induction fuel as [|fuel IH]; intros σ1 σ2 s1 s2 idx Htasks Hσ Hs; simpl.
  - constructor. by apply loop_rel_intro.
  - rewrite <- (Forall2_length _ _ _ Htasks).
    destruct (idx <? length tasks1)%nat; [| constructor; by apply loop_rel_intro].
    eapply bind_rel; [by apply (getitem_rel R) |]. intros r1 r2 Hr.
    rewrite (Hσ _ _ Hr). pose proof Hs as (Ht & _). rewrite Ht.
    destruct (arrival_time (σ2 r2) <=? time s2);
      [| constructor; by apply loop_rel_intro].
    eapply bind_rel; [by apply add_task_rel |].
    intros [σ1' s1'] [σ2' s2'] [Hσ' Hs']. simpl in *. by apply IH.
Qed.

Lemma append_history_rel s1 s2 h :
  sched_rel R s1 s2 → sched_rel R (append_history s1 h) (append_history s2 h).
Proof.
  intros (Ht & Hq & Hh & Hc & Hm & Hn). unfold sched_rel. simpl.
  rewrite Hh. by split_and!.
Qed.

Lemma advance_time_rel s1 s2 :
  sched_rel R s1 s2 → sched_rel R (advance_time s1) (advance_time s2).
Proof.
  intros (Ht & Hq & Hh & Hc & Hm & Hn). unfold sched_rel. simpl.
  rewrite Ht. by split_and!.
Qed.

Lemma execute_unit_rel σ1 σ2 s1 s2 r1 r2 :
  store_rel R σ1 σ2 → sched_rel R s1 s2 → R r1 r2 →
  state_rel R (execute_unit σ1 s1 r1) (execute_unit σ2 s2 r2).
Proof.
  intros Hσ Hs Hr. pose proof Hs as (Ht & _). unfold execute_unit.
  rewrite (Hσ _ _ Hr), Ht.
  destruct (start_time (σ2 r2) =? -1).
  - rewrite !store_set_eq. split; simpl.
    + apply store_set_rel; [| done]. by apply store_set_rel.
    + by apply append_history_rel.
  - rewrite (Hσ _ _ Hr). split; simpl.
    + by apply store_set_rel.
    + by apply append_history_rel.
Qed.

Lemma complete_task_rel σ1 σ2 s1 s2 r1 r2 :
  store_rel R σ1 σ2 → sched_rel R s1 s2 → R r1 r2 →
  state_rel R (complete_task σ1 s1 r1) (complete_task σ2 s2 r2).
Proof.
  intros Hσ (Ht & Hq & Hh & Hc & Hm & Hn) Hr. unfold complete_task.
  rewrite !store_set_eq, (Hσ _ _ Hr), Ht, Hm.
  assert (Forall2 R (completed_tasks s1 ++ [r1]) (completed_tasks s2 ++ [r2])) as Hc'
    by (apply Forall2_app; [done | by constructor]).
  destruct (completion_time _ >? absolute_deadline _).
  - split; simpl.
    + apply store_set_rel; [| done]. by apply store_set_rel.
    + unfold sched_rel. simpl. by split_and!.
  - split; simpl.
    + by apply store_set_rel.
    + unfold sched_rel. simpl. by split_and!.
Qed.

Lemma execute_rel pol σ1 σ2 s1 s2 r1 r2 :
  store_rel R σ1 σ2 → sched_rel R s1 s2 → R r1 r2 →
  result_rel (state_rel R) (execute pol σ1 s1 r1) (execute pol σ2 s2 r2).
Proof.
  intros Hσ Hs Hr. unfold execute.
  pose proof (execute_unit_rel σ1 σ2 s1 s2 r1 r2 Hσ Hs Hr) as Hu.
  destruct (execute_unit σ1 s1 r1) as [σ1' s1'], (execute_unit σ2 s2 r2) as [σ2' s2'].
  destruct Hu as [Hσ' Hs']. simpl in Hσ', Hs'. rewrite (Hσ' _ _ Hr).
  destruct (remaining_time (σ2' r2) =? 0).
  - constructor. by apply complete_task_rel.
  - by apply add_task_rel.
Qed.

Lemma step_rel pol tasks1 tasks2 σ1 σ2 s1 s2 idx :
  Forall2 R tasks1 tasks2 → store_rel R σ1 σ2 → sched_rel R s1 s2 →
  result_rel (loop_rel R) (step pol tasks1 σ1 s1 idx) (step pol tasks2 σ2 s2 idx).
Proof.
  intros Htasks Hσ Hs. unfold step. rewrite <- (Forall2_length _ _ _ Htasks).
  eapply bind_rel; [by apply arrivals_rel |].
  intros [[σ1' s1'] i1] [[σ2' s2'] i2] [[Hσ' Hs'] Hi]. simpl in Hσ', Hs', Hi. subst i2.
  eapply bind_rel; [by apply get_next_task_rel |].
  intros [o1 s1''] [o2 s2''] [Ho Hs'']. simpl in Ho, Hs''.
  eapply (bind_rel (state_rel R)).
  - destruct Ho as [r1 r2 Hr |]; [by apply execute_rel |].
    constructor. pose proof Hs'' as (Ht & _). rewrite Ht.
    split; simpl; [done | by apply append_history_rel].
  - intros [σ1f s1f] [σ2f s2f] [Hσf Hsf]. simpl in Hσf, Hsf.
    constructor. apply loop_rel_intro; [done | by apply advance_time_rel].
Qed.

Lemma run_loop_rel pol tasks1 tasks2 max_time fuel : ∀ σ1 σ2 s1 s2 idx,
  Forall2 R tasks1 tasks2 → store_rel R σ1 σ2 → sched_rel R s1 s2 →
  result_rel (loop_rel R) (run_loop fuel pol tasks1 max_time σ1 s1 idx)
                         (run_loop fuel pol tasks2 max_time σ2 s2 idx).
Proof.
  induction fuel as [|fuel IH]; intros σ1 σ2 s1 s2 idx Htasks Hσ Hs; simpl.
  - constructor. by apply loop_rel_intro.
  - pose proof Hs as (Ht & _). rewrite Ht.
    destruct (time s2 <? max_time); [| constructor; by apply loop_rel_intro].
    eapply bind_rel; [by apply step_rel |].
    intros [[σ1' s1'] i1] [[σ2' s2'] i2] [[Hσ' Hs'] Hi]. simpl in Hσ', Hs', Hi. subst i2.
    by apply IH.
Qed.

Lemma insert_by_key_rel key1 key2 x y l1 l2 :
  (∀ a b, R a b → key1 a = key2 b) → R x y → Forall2 R l1 l2 →
  Forall2 R (insert_by_key key1 x l1) (insert_by_key key2 y l2).
Proof.
  intros Hkey Hxy. induction 1 as [| a b l1 l2 Hab Hl IH]; simpl.
  - by repeat constructor.
  - rewrite (Hkey _ _ Hxy), (Hkey _ _ Hab).
    destruct (key2 y <=? key2 b); by repeat constructor.
Qed.

Lemma sort_by_key_rel key1 key2 l1 l2 :
  (∀ a b, R a b → key1 a = key2 b) → Forall2 R l1 l2 →
  Forall2 R (sort_by_key key1 l1) (sort_by_key key2 l2).
Proof.
  intros Hkey. induction 1 as [| a b l1 l2 Hab Hl IH]; simpl; [constructor |].
  by apply insert_by_key_rel.
Qed.

Lemma fmap_store_rel σ1 σ2 l1 l2 :
  store_rel R σ1 σ2 → Forall2 R l1 l2 → σ1 <$> l1 = σ2 <$> l2.
Proof.
  intros Hσ. induction 1 as [| a b l1 l2 Hab Hl IH]; [done |].
  rewrite !fmap_cons. by rewrite (Hσ _ _ Hab), IH.
Qed.
End scheduler_rel.

Lemma paired_one_to_one l1 l2 : NoDup l1 → NoDup l2 → one_to_one (paired l1 l2).
Proof.
  intros Hnd1 Hnd2. split.
  - intros a b b' (i & Ha & Hb) (j & Ha' & Hb').
    assert (i = j) as -> by apply (NoDup_lookup l1 i j a Hnd1 Ha Ha'). congruence.
  - intros a a' b (i & Ha & Hb) (j & Ha' & Hb').
    assert (i = j) as -> by apply (NoDup_lookup l2 i j b Hnd2 Hb Hb'). congruence.
Qed.

Lemma paired_Forall2 l1 l2 : length l1 = length l2 → Forall2 (paired l1 l2) l1 l2.
Proof.
  intros Hlen. apply Forall2_same_length_lookup. split; [done |].
  intros i x y Hx Hy. by exists i.
Qed.

(** C7. Two runs under the same policy and the same [max_time] on task sets
    whose tasks have the same contents in the same order (each set made of
    distinct task objects, whatever their identity) return the same
    history, count the same number of missed deadlines, and leave the same
    completed tasks and the same task list behind. *)
Theorem run_deterministic pol σ1 σ2 tasks1 tasks2 max_time :
  NoDup tasks1 → NoDup tasks2 → σ1 <$> tasks1 = σ2 <$> tasks2 →
  ∃ o1 o2,
    run pol σ1 Scheduler_init tasks1 max_time = Ok o1 ∧
    run pol σ2 Scheduler_init tasks2 max_time = Ok o2 ∧
    out_history o1 = out_history o2 ∧
    missed_deadlines (out_sched o1) = missed_deadlines (out_sched o2) ∧
    out_store o1 <$> completed_tasks (out_sched o1) =
      out_store o2 <$> completed_tasks (out_sched o2) ∧
    out_store o1 <$> out_tasks o1 = out_store o2 <$> out_tasks o2.
Proof.
  intros Hnd1 Hnd2 Heq.
  set (R := paired tasks1 tasks2).
  pose proof (paired_one_to_one _ _ Hnd1 Hnd2 : one_to_one R) as HR.
  assert (length tasks1 = length tasks2) as Hlen
    by (rewrite <- (length_fmap σ1 tasks1), Heq; apply length_fmap).
  assert (store_rel R σ1 σ2) as Hσ.
  { intros r1 r2 (i & H1 & H2).
    assert ((σ1 <$> tasks1) !! i = (σ2 <$> tasks2) !! i) as Hi by by rewrite Heq.
    rewrite !list_lookup_fmap, H1, H2 in Hi. by injection Hi. }
  assert (Forall2 R (sort_by_key (λ x, arrival_time (σ1 x)) tasks1)
                    (sort_by_key (λ x, arrival_time (σ2 x)) tasks2)) as Hsorted.
  { apply sort_by_key_rel; [| by apply paired_Forall2].
    intros a b Hab. by rewrite (Hσ _ _ Hab). }
  assert (sched_rel R Scheduler_init Scheduler_init) as Hs
    by (repeat split; constructor).
  pose proof (run_loop_rel R HR pol _ _ max_time (Z.to_nat (max_time - time Scheduler_init))
                σ1 σ2 Scheduler_init Scheduler_init 0 Hsorted Hσ Hs) as Hloop.
  destruct (run_spec pol σ1 Scheduler_init tasks1 max_time (queue_ok_nil _))
    as (σ1' & s1' & idx1 & Hrun1 & _).
  destruct (run_spec pol σ2 Scheduler_init tasks2 max_time (queue_ok_nil _))
    as (σ2' & s2' & idx2 & Hrun2 & _).
  eexists _, _. split; [exact Hrun1 |]. split; [exact Hrun2 |].
  unfold run in Hrun1, Hrun2.
  destruct Hloop as [[[σa sa] ia] [[σb sb] ib] [[Hσ' Hs'] _] | e]; [| done].
  simpl in Hrun1, Hrun2. injection Hrun1 as <- <-. injection Hrun2 as <- <-.
  destruct Hs' as (_ & _ & Hh & Hc & Hm & _). simpl in *.
  split; [done |]. split; [done |].
  split; by eapply fmap_store_rel.
Qed.

Lemma run_deterministic_witness :
  NoDup [0; 1]%nat ∧ NoDup [1; 0]%nat ∧
  store_of [T1; T2] <$> [0; 1]%nat = store_of [T2; T1] <$> [1; 0]%nat ∧
  ∃ o1 o2,
    run EDF (store_of [T1; T2]) Scheduler_init [0; 1]%nat 6 = Ok o1 ∧
    run EDF (store_of [T2; T1]) Scheduler_init [1; 0]%nat 6 = Ok o2 ∧
    out_history o1 = out_history o2 ∧
    missed_deadlines (out_sched o1) = missed_deadlines (out_sched o2).
Proof.
  assert (NoDup [0; 1]%nat) as H1
    by (apply NoDup_cons; split;
        [rewrite list_elem_of_singleton; discriminate | apply NoDup_singleton]).
  assert (NoDup [1; 0]%nat) as H2
    by (apply NoDup_cons; split;
        [rewrite list_elem_of_singleton; discriminate | apply NoDup_singleton]).
  split; [exact H1 |]. split; [exact H2 |]. split; [reflexivity |].
  destruct (run_deterministic EDF (store_of [T1; T2]) (store_of [T2; T1])
              [0; 1]%nat [1; 0]%nat 6 H1 H2 eq_refl)
    as (o1 & o2 & Hr1 & Hr2 & Hh & Hm & _).
  exists o1, o2. split; [exact Hr1 |]. split; [exact Hr2 |].
  split; [exact Hh | exact Hm].
Defined.


(** ** Construction of tasks *)

(** The claim of C2 fails: a task with arrival time -1, burst time 0 and
    relative deadline 0 is constructed without an error. *)
Lemma construction_accepts_invalid_parameters :
  ¬ (∀ id a b d p, b ≤ 0 ∨ d ≤ 0 ∨ a < 0 → ∃ e, Task_init id a b d p = Raise e).
Proof.
  intros H. destruct (H "T"%string (-1) 0 0 0) as [e He]; [lia | discriminate].
Qed.

(** C2, amended. Constructing a task never fails: whatever the burst time,
    relative deadline and arrival time, non-positive and negative ones
    included, the constructor returns a task that carries them.  No error
    is raised afterwards either: [run] on a fresh scheduler returns for
    every task list. *)
Theorem construction_and_run_never_raise :
  (∀ id a b d p, ∃ t,
     Task_init id a b d p = Ok t ∧
     task_id t = id ∧ arrival_time t = a ∧ burst_time t = b ∧
     remaining_time t = b ∧ deadline t = d ∧ period t = p ∧
     absolute_deadline t = a + d) ∧
  (∀ pol σ tasks max_time, succeeds (run pol σ Scheduler_init tasks max_time)).
Proof.
  split.
  - intros id a b d p. eexists. split; [reflexivity |]. by repeat split.
  - intros pol σ tasks max_time.
    destruct (run_spec pol σ Scheduler_init tasks max_time (queue_ok_nil _))
      as (σ' & s' & idx' & Hrun & _).
    by eexists.
Qed.

(** ** Missed deadlines *)

(** X1. What [Scheduler.run] records about missed deadlines on a well-formed
    task set: a task is flagged exactly when it has completed after its
    absolute deadline, and the counter is the number of flagged tasks. *)
Lemma missed_flag_characterisation pol σ tasks max_time :
  well_formed σ tasks →
  ∃ o, run pol σ Scheduler_init tasks max_time = Ok o ∧
    (∀ r, r ∈ tasks →
       (missed_deadline (out_store o r) = true ↔
        r ∈ completed_tasks (out_sched o) ∧
        absolute_deadline (σ r) < completion_time (out_store o r))) ∧
    missed_deadlines (out_sched o) = count_missed (out_store o) tasks.
Proof.
  intros Hwf.
  destruct (run_well_formed pol σ tasks max_time Hwf)
    as (o & idx & Hrun & Hperm & Hh & _ & Hst & Hinv).
  exists o. split; [exact Hrun |].
  destruct Hinv as (_ & Hids & _ & _ & _ & _ & _ & _ & _ & _ & Hmiss & Hcnd & Hcsub & Hmc).
  split.
  - intros r Hr. rewrite <- Hperm in Hr.
    destruct (Hst r) as (_ & _ & _ & _ & _ & Ha). rewrite <- Ha. by apply Hmiss.
  - rewrite Hmc. unfold count_missed. apply (f_equal Z.of_nat).
    apply Permutation_length, NoDup_Permutation.
    + by apply NoDup_filter.
    + apply NoDup_filter. rewrite <- Hperm. by eapply ids_NoDup_refs.
    + intros r. rewrite !list_elem_of_filter, <- Hperm. split.
      * intros [Hm Hc]. split; [done | by apply Hcsub].
      * intros [Hm Hr]. split; [done |]. by apply (Hmiss r Hr).
Qed.

Lemma missed_flag_characterisation_witness :
  ∃ o, run EDF (store_of [T1; T2]) Scheduler_init [0; 1]%nat 6 = Ok o ∧
    missed_deadlines (out_sched o) = count_missed (out_store o) [0; 1]%nat.
Proof.
  destruct (missed_flag_characterisation EDF (store_of [T1; T2]) [0; 1]%nat 6
              well_formed_T1_T2) as (o & Hrun & _ & Hcount).
  exists o. split; [exact Hrun | exact Hcount].
Defined.

Definition gapA : Task := fresh_task "A" 0 30 3 0.
Definition gapB : Task := fresh_task "B" 0 1 5 0.
Definition cliA : Cli.Task := Cli.Task_init 1 3 1 0.
Definition cliB : Cli.Task := Cli.Task_init 2 1 10 0.

(** C1 at its failing inputs.  In [Scheduler.run], task A (burst 30,
    absolute deadline 3) runs during all of the 25 units and task B (burst 1,
    absolute deadline 5) is never selected: both still have work left after
    their deadlines have passed, yet neither is flagged and the counter is 0.
    In the engine of [main.py], which does scan for overdue tasks, task 1
    (3 units of work, deadline 1) is flagged once but counted twice. *)
Theorem missed_deadline_detection_gap :
  (∃ o, run EDF (store_of [gapA; gapB]) Scheduler_init [0; 1]%nat 25 = Ok o ∧
        time (out_sched o) = 25 ∧
        absolute_deadline (out_store o 0%nat) = 3 ∧
        absolute_deadline (out_store o 1%nat) = 5 ∧
        remaining_time (out_store o 0%nat) = 5 ∧
        remaining_time (out_store o 1%nat) = 1 ∧
        start_time (out_store o 1%nat) = -1 ∧
        missed_deadline (out_store o 0%nat) = false ∧
        missed_deadline (out_store o 1%nat) = false ∧
        missed_deadlines (out_sched o) = 0) ∧
  (∃ σ s, Cli.run_scheduler (Cli.store_of [cliA; cliB])
            (Cli.mkScheduler [0; 1]%nat 0 [] 0 []) = (σ, s) ∧
          Cli.missed_deadline (σ 0%nat) = true ∧
          Cli.missed_deadline (σ 1%nat) = false ∧
          Cli.missed_deadlines_count s = 2).
Proof.
  split.
  - destruct (run EDF (store_of [gapA; gapB]) Scheduler_init [0; 1]%nat 25)
      as [o | e] eqn:Hrun; [| vm_compute in Hrun; discriminate].
    exists o. split; [reflexivity |].
    assert (Ok o = run EDF (store_of [gapA; gapB]) Scheduler_init [0; 1]%nat 25)
      as Ho by (symmetry; exact Hrun).
    vm_compute in Ho. injection Ho as ->. vm_compute. by repeat split.
  - destruct (Cli.run_scheduler (Cli.store_of [cliA; cliB])
                (Cli.mkScheduler [0; 1]%nat 0 [] 0 [])) as [σ s] eqn:Hrun.
    exists σ, s. split; [reflexivity |].
    assert ((σ, s) = Cli.run_scheduler (Cli.store_of [cliA; cliB])
                       (Cli.mkScheduler [0; 1]%nat 0 [] 0 []))
      as Ho by (symmetry; exact Hrun).
    vm_compute in Ho. injection Ho as -> ->. vm_compute. by repeat split.
Qed.


(** * Further properties of the engine *)

(** ** One unit in detail *)

Lemma execute_unit_start σ s r σ' s' :
  execute_unit σ s r = (σ', s') →
  start_time (σ' r) = (if start_time (σ r) =? -1 then time s else start_time (σ r)).
Proof.
  unfold execute_unit. intros [= <- <-].
  destruct (start_time (σ r) =? -1) eqn:E; rewrite !store_set_eq; simpl; [done |].
  done.
Qed.

Lemma complete_task_start σ s r σ' s' r' :
  complete_task σ s r = (σ', s') → start_time (σ' r') = start_time (σ r').
Proof.
  unfold complete_task. rewrite !store_set_eq. simpl.
  destruct (time s + 1 >? absolute_deadline (σ r)); intros [= <- <-];
    (destruct (decide (r' = r)) as [-> | Hne];
     [by rewrite !store_set_eq | by rewrite !store_set_ne]).
Qed.

Lemma admits_start pol tasks σ s idx σ1 s1 idx1 r :
  admits pol tasks σ s idx σ1 s1 idx1 → start_time (σ1 r) = start_time (σ r).
Proof.
  intros Hadm. apply admits_frame in Hadm as (_ & _ & _ & Hst).
  by destruct (Hst r) as [c ->].
Qed.

Theorem steps_unit_step pol tasks σ s idx σ' s' idx' :
  steps pol tasks σ s idx σ' s' idx' →
  ∃ σ1 s1, admits pol tasks σ s idx σ1 s1 idx' ∧ unit_step pol σ1 s1 σ' s'.
Proof.
  destruct 1 as [? ? ? σ1 s1 ? Hadm Hnil
                | ? ? ? σ1 s1 ? e q σ2 s2 σ3 s3 Hadm Hperm Hmin _ Hunit Hrem Hcomp
                | ? ? ? σ1 s1 ? e q σ2 s2 q' Hadm Hperm Hmin _ Hunit Hrem Hperm' _];
    exists σ1, s1; (split; [exact Hadm |]).
  - apply unit_idle; first [done | intros r; split; [apply untouched_refl | done]].
  - pose proof (execute_unit_start _ _ _ _ _ Hunit) as Hst.
    pose proof (complete_task_start _ _ _ _ _ (entry_task e) Hcomp) as Hst3.
    pose proof (execute_unit_sched _ _ _ _ _ Hunit) as (Ht & Hrq & _ & Hct & Hmd).
    apply execute_unit_store in Hunit as (Hu1 & Hu2 & Hu3 & Hu4 & Hu5 & Hu6).
    pose proof (λ r', complete_task_start _ _ _ _ _ r' Hcomp) as Hst3'.
    apply complete_task_effect in Hcomp
      as (Hc1 & Hc2 & Hc3 & Hc4 & Hc5 & Hc6 & Hc7 & Hc8 & Hc9 & Hc10 & _).
    simpl in *.
    apply (unit_run pol _ _ _ _ e q); simpl.
    + exact Hperm.
    + exact Hmin.
    + intros r Hne. rewrite Hc1, Hu1 by done. split; [apply untouched_refl | done].
    + by eapply same_static_trans.
    + lia.
    + by rewrite Hst3.
    + by rewrite Hc8, Hu6.
    + lia.
    + left. split; [lia |]. split; [by rewrite Hc10, Hrq |].
      split; [lia |]. by rewrite Hc7, Hct.
  - pose proof (execute_unit_start _ _ _ _ _ Hunit) as Hst.
    pose proof (execute_unit_sched _ _ _ _ _ Hunit) as (Ht & Hrq & _ & Hct & Hmd).
    apply execute_unit_store in Hunit as (Hu1 & Hu2 & Hu3 & Hu4 & Hu5 & Hu6).
    simpl in *.
    apply (unit_run pol _ _ _ _ e q); simpl; rewrite ?store_set_eq.
    + exact Hperm.
    + exact Hmin.
    + intros r Hne. rewrite store_set_ne, Hu1 by done.
      split; [apply untouched_refl | done].
    + eapply same_static_trans; [exact Hu2 | by repeat split].
    + exact Hu3.
    + exact Hst.
    + exact Hu6.
    + lia.
    + right. split; [simpl; lia |]. split.
      * exists (_task_counter s2). rewrite Hperm', Hrq.
        unfold entry_of. by rewrite priority_set_counter.
      * split; [exact Hu4 | exact Hct].
Qed.

(** ** Arrivals, the queue and elapsed time *)

Lemma priority_static pol t t' : same_static t t' → priority pol t' = priority pol t.
Proof. intros (_ & _ & _ & Hd & Hp & Ha). destruct pol; simpl; by rewrite ?Hd, ?Hp, ?Ha. Qed.

Lemma take_succ_elem {A} (l : list A) i x y :
  l !! i = Some x → y ∈ take (i + 1) l ↔ y ∈ take i l ∨ y = x.
Proof.
  intros Hx. rewrite Nat.add_1_r, (take_S_r _ _ _ Hx), elem_of_app, list_elem_of_singleton.
  done.
Qed.

Lemma admits_arr_inv pol σ0 tasks σ s idx σ1 s1 idx1 :
  admits pol tasks σ s idx σ1 s1 idx1 →
  arr_inv pol σ0 tasks σ s idx → arr_inv pol σ0 tasks σ1 s1 idx1.
Proof.
  induction 1 as [σ s idx _ | σ s idx r q σ' s' idx' Hr Harr Hq Hok _ IH]; [done |].
  intros (Hst & Harrd & Hqueued & Hkeys & Hel). apply IH. clear IH.
  assert (∀ r', untouched (σ r')
            (store_set σ r (set_counter (σ r) (_task_counter s)) r')) as Hun.
  { intros r'. destruct (decide (r' = r)) as [-> | Hne].
    - rewrite store_set_eq. apply untouched_set_counter.
    - rewrite store_set_ne by done. apply untouched_refl. }
  destruct (Hst r) as (_ & Ha & _).
  split_and!; simpl.
  - intros r'. eapply same_static_trans; [apply Hst | apply Hun].
  - intros r' Hr'. apply (take_succ_elem _ _ _ _ Hr) in Hr' as [Hr' | ->].
    + by apply Harrd.
    + lia.
  - intros r' Hr' Hpos. destruct (Hun r') as (_ & Hrem & _). rewrite Hrem in Hpos.
    apply (take_succ_elem _ _ _ _ Hr) in Hr' as [Hr' | ->].
    + destruct (Hqueued r' Hr' Hpos) as (e & He & Het). exists e.
      split; [| done]. rewrite Hq. by apply list_elem_of_further.
    + exists (entry_of pol σ (_task_counter s) r). split; [| done].
      rewrite Hq. apply list_elem_of_here.
  - intros e He. rewrite Hq in He. apply elem_of_cons in He as [-> | He].
    + unfold entry_of, entry_priority, entry_arrival, entry_task. simpl.
      split; [by apply priority_static | done].
    + by apply Hkeys.
  - intros r' Hr'. destruct (Hun r') as (_ & -> & _). by apply Hel.
Qed.

Lemma unit_step_arr_inv pol σ0 tasks σ s σ' s' idx :
  unit_step pol σ s σ' s' →
  run_inv tasks σ s idx →
  arr_inv pol σ0 tasks σ s idx → arr_inv pol σ0 tasks σ' s' idx.
Proof.
  intros Hstep Hinv (Hst & Harrd & Hqueued & Hkeys & Hel).
  destruct Hinv as (Ht & _ & _ & Hqnd & Hq & _).
  destruct Hstep
    as [σ s σ' s' Hnil Hnil' Hun Hh' Hc' Ht'
       | σ s σ' s' e q Hperm Hmin Hun Hsame Hrem' Hstart Hh' Ht' Hcase].
  - split_and!.
    + intros r. eapply same_static_trans; [apply Hst | apply Hun].
    + intros r Hr. specialize (Harrd r Hr). lia.
    + intros r Hr Hpos. destruct (Hun r) as ((_ & Hrem & _) & _). rewrite Hrem in Hpos.
      destruct (Hqueued r Hr Hpos) as (e & He & _). rewrite Hnil in He.
      by apply elem_of_nil in He.
    + intros e He. rewrite Hnil' in He. by apply elem_of_nil in He.
    + intros r Hr. destruct (Hun r) as ((_ & -> & _) & _). specialize (Hel r Hr). lia.
  - assert (e ∈ ready_queue s) as He by (rewrite Hperm; apply list_elem_of_here).
    destruct (Hq e He) as [Hrtake Hrpos].
    assert (entry_task e ∈ tasks) as Hrin by by eapply subseteq_take.
    rewrite Hperm, fmap_cons in Hqnd. apply NoDup_cons in Hqnd as [Hrq Hqnd].
    assert (∀ y, y ∈ q → y ∈ ready_queue s') as Hsub.
    { intros y Hy. destruct Hcase as [(_ & -> & _) | (_ & (c & ->) & _)];
        [done | by apply list_elem_of_further]. }
    split_and!.
    + intros r. eapply same_static_trans; [apply Hst |].
      destruct (decide (r = entry_task e)) as [-> | Hne]; [done | apply (Hun r Hne)].
    + intros r Hr. specialize (Harrd r Hr). lia.
    + intros r Hr Hpos. destruct (decide (r = entry_task e)) as [-> | Hne].
      * destruct Hcase as [(H0 & _) | (_ & (c & Hq') & _)]; [lia |].
        eexists. split; [rewrite Hq'; apply list_elem_of_here | done].
      * destruct (Hun r Hne) as ((_ & Hrem & _) & _). rewrite Hrem in Hpos.
        destruct (Hqueued r Hr Hpos) as (e1 & He1 & Het). exists e1. split; [| done].
        apply Hsub. rewrite Hperm in He1. apply elem_of_cons in He1 as [-> | He1]; done.
    + intros e1 He1.
      assert (e1 ∈ q → entry_priority e1 = priority pol (σ0 (entry_task e1)) ∧
                       entry_arrival e1 = arrival_time (σ0 (entry_task e1))) as Hold.
      { intros Hin. apply Hkeys. rewrite Hperm. by apply list_elem_of_further. }
      destruct Hcase as [(_ & Hq' & _) | (_ & (c & Hq') & _)]; rewrite Hq' in He1.
      * by apply Hold.
      * apply elem_of_cons in He1 as [-> | He1]; [| by apply Hold].
        unfold entry_priority, entry_arrival, entry_task. simpl.
        pose proof (same_static_trans _ _ _ (Hst (entry_task e)) Hsame) as Hs0.
        split; [by apply priority_static | apply Hs0].
    + intros r Hr. destruct (decide (r = entry_task e)) as [-> | Hne].
      * specialize (Hel _ Hr). specialize (Harrd _ Hrtake). lia.
      * destruct (Hun r Hne) as ((_ & -> & _) & _). specialize (Hel r Hr). lia.
Qed.

(** ** Start times *)

Lemma admits_start_inv pol σ0 tasks σ s idx σ1 s1 idx1 :
  admits pol tasks σ s idx σ1 s1 idx1 →
  start_inv σ0 tasks σ s → start_inv σ0 tasks σ1 s1.
Proof.
  intros Hadm Hinv r Hr.
  pose proof (admits_start _ _ _ _ _ _ _ _ r Hadm) as Hst.
  pose proof (admits_time _ _ _ _ _ _ _ _ Hadm) as Ht.
  pose proof (admits_frame _ _ _ _ _ _ _ _ Hadm) as (Hh & _).
  rewrite Hst, Hh, Ht. by apply Hinv.
Qed.

(** A unit that belongs to another task, or to none, leaves the start-time
    clauses of a task intact. *)
Lemma start_clauses_other (σ0 σ σ' : store) (s s' : Scheduler) r x :
  x ≠ task_id (σ0 r) →
  start_time (σ' r) = start_time (σ r) →
  history s' = history s ++ [(time s, time s + 1, x)] →
  time s' = time s + 1 →
  length (history s) = Z.to_nat (time s) →
  ((start_time (σ r) = -1 →
      ∀ j h, history s !! j = Some h → h.2 ≠ task_id (σ0 r)) ∧
   (start_time (σ r) ≠ -1 →
      arrival_time (σ0 r) ≤ start_time (σ r) ∧
      0 ≤ start_time (σ r) < time s ∧
      (∃ h, history s !! Z.to_nat (start_time (σ r)) = Some h ∧
            h.2 = task_id (σ0 r)) ∧
      ∀ j h, history s !! j = Some h → h.2 = task_id (σ0 r) →
             start_time (σ r) ≤ Z.of_nat j)) →
  (start_time (σ' r) = -1 →
     ∀ j h, history s' !! j = Some h → h.2 ≠ task_id (σ0 r)) ∧
  (start_time (σ' r) ≠ -1 →
     arrival_time (σ0 r) ≤ start_time (σ' r) ∧
     0 ≤ start_time (σ' r) < time s' ∧
     (∃ h, history s' !! Z.to_nat (start_time (σ' r)) = Some h ∧
           h.2 = task_id (σ0 r)) ∧
     ∀ j h, history s' !! j = Some h → h.2 = task_id (σ0 r) →
            start_time (σ' r) ≤ Z.of_nat j).
Proof.
  intros Hx Hst Hh Ht Hlen [H1 H2]. rewrite Hst, Hh, Ht. split.
  - intros Hm j h Hj. apply lookup_snoc_Some in Hj as [[_ Hj] | [_ <-]].
    + by apply (H1 Hm j).
    + done.
  - intros Hm. destruct (H2 Hm) as (Ha & Hb & (h & Hl & Hid) & Hfirst).
    split; [done |]. split; [lia |]. split.
    + exists h. split; [| done]. rewrite lookup_app_l; [done | lia].
    + intros j h' Hj Hid'. apply lookup_snoc_Some in Hj as [[_ Hj] | [_ <-]].
      * by apply (Hfirst j h').
      * done.
Qed.

Lemma unit_step_start_inv pol σ0 tasks σ s σ' s' idx :
  unit_step pol σ s σ' s' →
  run_inv tasks σ s idx →
  arr_inv pol σ0 tasks σ s idx →
  length (history s) = Z.to_nat (time s) →
  start_inv σ0 tasks σ s → start_inv σ0 tasks σ' s'.
Proof.
  intros Hstep Hinv (Hst0 & Harrd & _) Hlen Hsi.
  destruct Hinv as (Ht & Hids & Hidle & _ & Hq & _).
  assert (∀ r, task_id (σ r) = task_id (σ0 r)) as Hid0 by (intros r; apply Hst0).
  destruct Hstep
    as [σ s σ' s' Hnil Hnil' Hun Hh' Hc' Ht'
       | σ s σ' s' e q Hperm Hmin Hun Hsame Hrem' Hstart Hh' Ht' Hcase].
  - intros r Hr. destruct (Hun r) as [_ Hs].
    apply (start_clauses_other σ0 σ σ' s s' r IDLE); try done.
    + rewrite <- Hid0. intros Heq. by apply (Hidle r Hr).
    + by apply Hsi.
  - assert (e ∈ ready_queue s) as He by (rewrite Hperm; apply list_elem_of_here).
    destruct (Hq e He) as [Hrtake _].
    assert (entry_task e ∈ tasks) as Hrin by by eapply subseteq_take.
    intros r Hr. destruct (decide (r = entry_task e)) as [-> | Hne].
    + destruct (Hsi _ Hrin) as [H1 H2]. rewrite Hstart, Hh', Ht', Hid0.
      specialize (Harrd _ Hrtake).
      destruct (Z.eqb_spec (start_time (σ (entry_task e))) (-1)) as [Hm | Hm].
      * split; [lia |]. intros _. split; [done |]. split; [lia |]. split.
        -- exists (time s, time s + 1, task_id (σ0 (entry_task e))).
           split; [| reflexivity].
           rewrite lookup_app_r by lia.
           by replace (Z.to_nat (time s) - length (history s))%nat with 0%nat by lia.
        -- intros j h Hj Hid. apply lookup_snoc_Some in Hj as [[_ Hj] | [Hj _]].
           ++ by destruct (H1 Hm j h Hj).
           ++ lia.
      * split; [done |]. intros _.
        destruct (H2 Hm) as (Ha & Hb & (h & Hl & Hid) & Hfirst).
        split; [done |]. split; [lia |]. split.
        -- exists h. split; [| done]. rewrite lookup_app_l; [done | lia].
        -- intros j h' Hj Hid'. apply lookup_snoc_Some in Hj as [[_ Hj] | [Hj _]].
           ++ by apply (Hfirst j h').
           ++ lia.
    + destruct (Hun r Hne) as [_ Hs].
      apply (start_clauses_other σ0 σ σ' s s' r (task_id (σ (entry_task e)))); try done.
      * rewrite <- Hid0. intros Heq. apply Hne. symmetry.
        by apply (NoDup_fmap_inj_on (λ r, task_id (σ r)) tasks).
      * by apply Hsi.
Qed.

(** ** Completions *)

Lemma StronglySorted_ext {A} (R R' : A → A → Prop) (l : list A) :
  (∀ a b, a ∈ l → b ∈ l → R a b → R' a b) →
  StronglySorted R l → StronglySorted R' l.
Proof.
  intros Himp Hs. induction Hs as [| x l Hs IH Hall]; [constructor |].
  constructor.
  - apply IH. intros a b Ha Hb. apply Himp; by apply list_elem_of_further.
  - apply Forall_forall. intros y Hy. apply Himp;
      [apply list_elem_of_here | by apply list_elem_of_further |].
    by apply (proj1 (Forall_forall _ _) Hall).
Qed.

(** The completion clauses of a completed task survive a unit that belongs
    to another task, or to none. *)
Lemma comp_clauses_other (σ0 σ σ' : store) (s s' : Scheduler) r x :
  x ≠ task_id (σ0 r) →
  completion_time (σ' r) = completion_time (σ r) →
  history s' = history s ++ [(time s, time s + 1, x)] →
  time s' = time s + 1 →
  length (history s) = Z.to_nat (time s) →
  (arrival_time (σ0 r) + burst_time (σ0 r) ≤ completion_time (σ r) ∧
   completion_time (σ r) ≤ time s ∧
   (∃ h, history s !! Z.to_nat (completion_time (σ r) - 1) = Some h ∧
         h.2 = task_id (σ0 r)) ∧
   ∀ j h, history s !! j = Some h → h.2 = task_id (σ0 r) →
          Z.of_nat j < completion_time (σ r)) →
  arrival_time (σ0 r) + burst_time (σ0 r) ≤ completion_time (σ' r) ∧
  completion_time (σ' r) ≤ time s' ∧
  (∃ h, history s' !! Z.to_nat (completion_time (σ' r) - 1) = Some h ∧
        h.2 = task_id (σ0 r)) ∧
  ∀ j h, history s' !! j = Some h → h.2 = task_id (σ0 r) →
         Z.of_nat j < completion_time (σ' r).
Proof.
  intros Hx Hc Hh Ht Hlen (Ha & Hb & (h & Hl & Hid) & Hlast). rewrite Hc, Hh, Ht.
  split; [done |]. split; [lia |]. split.
  - exists h. split; [| done]. apply lookup_app_l_Some. exact Hl.
  - intros j h' Hj Hid'. apply lookup_snoc_Some in Hj as [[_ Hj] | [_ <-]].
    + by apply (Hlast j h').
    + done.
Qed.

Lemma admits_comp_inv pol σ0 tasks σ s idx σ1 s1 idx1 :
  admits pol tasks σ s idx σ1 s1 idx1 → comp_inv σ0 σ s → comp_inv σ0 σ1 s1.
Proof.
  intros Hadm [Hsorted Hall].
  pose proof (admits_time _ _ _ _ _ _ _ _ Hadm) as Ht.
  pose proof (admits_frame _ _ _ _ _ _ _ _ Hadm) as (Hh & Hc & _).
  assert (∀ r, completion_time (σ1 r) = completion_time (σ r)) as Hct
    by (intros r; apply (admits_untouched _ _ _ _ _ _ _ _ r Hadm)).
  unfold comp_inv. rewrite Hc, Hh, Ht. split.
  - eapply StronglySorted_ext; [| exact Hsorted]. intros a b _ _. by rewrite !Hct.
  - intros r Hr. rewrite Hct. by apply Hall.
Qed.

Lemma unit_step_comp_inv pol σ0 tasks σ s σ' s' idx :
  unit_step pol σ s σ' s' →
  run_inv tasks σ s idx →
  arr_inv pol σ0 tasks σ s idx →
  length (history s) = Z.to_nat (time s) →
  comp_inv σ0 σ s → comp_inv σ0 σ' s'.
Proof.
  intros Hstep Hinv (Hst0 & Harrd & _ & _ & Hel) Hlen [Hsorted Hall].
  destruct Hinv as (Ht & Hids & Hidle & _ & Hq & _ & _ & Hcomp & _ & Hhist & _ & _ & Hcsub & _).
  assert (∀ r, task_id (σ r) = task_id (σ0 r)) as Hid0 by (intros r; apply Hst0).
  destruct Hstep
    as [σ s σ' s' Hnil Hnil' Hun Hh' Hc' Ht'
       | σ s σ' s' e q Hperm Hmin Hun Hsame Hrem' Hstart Hh' Ht' Hcase].
  - assert (∀ r, completion_time (σ' r) = completion_time (σ r)) as Hct
      by (intros r; apply (Hun r)).
    unfold comp_inv. rewrite Hc'. split.
    + eapply StronglySorted_ext; [| exact Hsorted]. intros a b _ _. by rewrite !Hct.
    + intros r Hr.
      apply (comp_clauses_other σ0 σ σ' s s' r IDLE); try done.
      * rewrite <- Hid0. intros Heq. apply (Hidle r); [by apply Hcsub | done].
      * by apply Hall.
  - assert (e ∈ ready_queue s) as He by (rewrite Hperm; apply list_elem_of_here).
    destruct (Hq e He) as [Hrtake Hrpos].
    assert (entry_task e ∈ tasks) as Hrin by by eapply subseteq_take.
    assert (entry_task e ∉ completed_tasks s) as Hrc
      by (intros Hin; apply Hcomp in Hin; [lia | done]).
    assert (∀ r, r ∈ completed_tasks s →
              completion_time (σ' r) = completion_time (σ r) ∧
              task_id (σ (entry_task e)) ≠ task_id (σ0 r)) as Hold.
    { intros r Hr. assert (r ≠ entry_task e) as Hne by by intros ->.
      split; [apply (Hun r Hne) |].
      rewrite <- Hid0. intros Heq. apply Hne.
      apply (NoDup_fmap_inj_on (λ r, task_id (σ r)) tasks); [done | | done | done].
      by apply Hcsub. }
    assert (∀ r, r ∈ completed_tasks s →
              arrival_time (σ0 r) + burst_time (σ0 r) ≤ completion_time (σ' r) ∧
              completion_time (σ' r) ≤ time s' ∧
              (∃ h, history s' !! Z.to_nat (completion_time (σ' r) - 1) = Some h ∧
                    h.2 = task_id (σ0 r)) ∧
              ∀ j h, history s' !! j = Some h → h.2 = task_id (σ0 r) →
                     Z.of_nat j < completion_time (σ' r)) as Hkeep.
    { intros r Hr. destruct (Hold r Hr) as [Hct Hidne].
      apply (comp_clauses_other σ0 σ σ' s s' r (task_id (σ (entry_task e)))); try done.
      by apply Hall. }
    assert (StronglySorted (λ a b, completion_time (σ' a) < completion_time (σ' b))
              (completed_tasks s)) as Hsorted'.
    { eapply StronglySorted_ext; [| exact Hsorted]. intros a b Ha Hb.
      destruct (Hold a Ha) as [-> _], (Hold b Hb) as [-> _]. done. }
    destruct Hcase as [(H0 & _ & Hct' & Hc') | (_ & _ & _ & Hc')];
      unfold comp_inv; rewrite Hc'; [| by split].
    split.
    + apply StronglySorted_app. split_and!; [| done | repeat constructor].
      intros a b Ha ->%list_elem_of_singleton.
      destruct (Hold a Ha) as [-> _]. destruct (Hall a Ha) as (_ & Hle & _). lia.
    + intros r. rewrite elem_of_app, list_elem_of_singleton.
      intros [Hr | ->]; [by apply Hkeep |].
      specialize (Hel _ Hrin). specialize (Harrd _ Hrtake).
      destruct (Hst0 (entry_task e)) as (_ & _ & Hb & _).
      specialize (Hhist _ Hrin). rewrite Hb in Hhist.
      assert (0 ≤ count_id (task_id (σ (entry_task e))) (history s)) as Hcnt
        by (unfold count_id; lia).
      rewrite Hct', Hh', Ht'. split; [lia |]. split; [lia |]. split.
      * exists (time s, time s + 1, task_id (σ (entry_task e))).
        split; [| by rewrite Hid0].
        rewrite lookup_app_r by lia.
        by replace (Z.to_nat (time s + 1 - 1) - length (history s))%nat
          with 0%nat by lia.
      * intros j h Hj _. apply lookup_lt_Some in Hj.
        rewrite length_app in Hj. simpl in Hj. lia.
Qed.


(** ** The invariants together *)

Lemma steps_engine_inv pol σ0 tasks σ s idx σ' s' idx' :
  steps pol tasks σ s idx σ' s' idx' →
  engine_inv pol σ0 tasks σ s idx → engine_inv pol σ0 tasks σ' s' idx'.
Proof.
  intros Hsteps (Hinv & Hlen & Harr & Hstart & Hcomp).
  pose proof (steps_run_inv _ _ _ _ _ _ _ _ Hsteps Hinv) as Hinv'.
  destruct (steps_history _ _ _ _ _ _ _ _ Hsteps) as (x & Hh).
  pose proof (steps_time _ _ _ _ _ _ _ _ Hsteps) as Ht.
  destruct (steps_unit_step _ _ _ _ _ _ _ _ Hsteps) as (σ1 & s1 & Hadm & Hunit).
  pose proof (admits_run_inv _ _ _ _ _ _ _ _ Hadm Hinv) as Hinv1.
  pose proof (admits_arr_inv _ σ0 _ _ _ _ _ _ _ Hadm Harr) as Harr1.
  pose proof (admits_start_inv _ σ0 _ _ _ _ _ _ _ Hadm Hstart) as Hstart1.
  pose proof (admits_comp_inv _ σ0 _ _ _ _ _ _ _ Hadm Hcomp) as Hcomp1.
  assert (length (history s1) = Z.to_nat (time s1)) as Hlen1.
  { pose proof (admits_frame _ _ _ _ _ _ _ _ Hadm) as (-> & _).
    by rewrite (admits_time _ _ _ _ _ _ _ _ Hadm). }
  split; [done |]. split.
  - destruct Hinv as (Ht0 & _). rewrite Hh, length_app, Hlen, Ht. simpl. lia.
  - split; [by eapply unit_step_arr_inv |].
    split; [by eapply unit_step_start_inv | by eapply unit_step_comp_inv].
Qed.

Lemma runs_engine_inv pol σ0 tasks max_time σ s idx σ' s' idx' :
  runs pol tasks max_time σ s idx σ' s' idx' →
  engine_inv pol σ0 tasks σ s idx → engine_inv pol σ0 tasks σ' s' idx'.
Proof.
  induction 1 as [| ? ? ? ? ? ? ? ? ? _ Hsteps _ IH]; [done |].
  intros Hinv. apply IH. by eapply steps_engine_inv.
Qed.

Lemma engine_inv_init pol σ tasks :
  well_formed σ tasks → engine_inv pol σ tasks σ Scheduler_init 0.
Proof.
  intros Hwf. split; [by apply run_inv_init |]. split; [done |].
  destruct Hwf as (_ & Hall). split; [| split].
  - split_and!.
    + intros r. apply same_static_refl.
    + intros r Hr. by apply elem_of_nil in Hr.
    + intros r Hr. by apply elem_of_nil in Hr.
    + intros e He. by apply elem_of_nil in He.
    + intros r Hr. destruct (Hall r Hr) as (Hc & _).
      destruct (constructed_fields _ Hc) as (-> & _). simpl. lia.
  - intros r Hr. destruct (Hall r Hr) as (Hc & _).
    destruct (constructed_fields _ Hc) as (_ & _ & _ & -> & _).
    split; [| done]. intros _ j h Hj. by destruct j.
  - split; [constructor |]. intros r Hr. by apply elem_of_nil in Hr.
Qed.

(** A run on a well-formed task set leaves a state that satisfies all the
    invariants; a run to a later bound continues it. *)
Theorem run_engine_inv pol σ tasks m1 m2 :
  well_formed σ tasks → m1 ≤ m2 →
  ∃ o1 o2 idx1 idx2,
    run pol σ Scheduler_init tasks m1 = Ok o1 ∧
    run pol σ Scheduler_init tasks m2 = Ok o2 ∧
    out_tasks o1 ≡ₚ tasks ∧ out_tasks o2 = out_tasks o1 ∧
    out_tasks o1 = sort_by_key (λ x, arrival_time (σ x)) tasks ∧
    out_history o1 = history (out_sched o1) ∧
    out_history o2 = history (out_sched o2) ∧
    time (out_sched o1) = Z.max 0 m1 ∧ time (out_sched o2) = Z.max 0 m2 ∧
    engine_inv pol σ (out_tasks o1) (out_store o1) (out_sched o1) idx1 ∧
    engine_inv pol σ (out_tasks o1) (out_store o2) (out_sched o2) idx2 ∧
    runs pol (out_tasks o1) m2 (out_store o1) (out_sched o1) idx1
      (out_store o2) (out_sched o2) idx2.
Proof.
  intros Hwf Hm.
  destruct (run_spec pol σ Scheduler_init tasks m1 (queue_ok_nil _))
    as (σ1 & s1 & i1 & Hrun1 & _).
  destruct (run_prefix pol σ tasks m1 m2 _ Hm Hrun1)
    as (o2 & idx1 & idx2 & Hrun2 & Htasks2 & Hsorted & Hruns1 & Hruns2).
  eexists _, o2, idx1, idx2. split; [exact Hrun1 |]. split; [exact Hrun2 |].
  simpl in *.
  assert (well_formed σ (sort_by_key (λ x, arrival_time (σ x)) tasks)) as Hwf'
    by (eapply well_formed_perm; [apply sort_by_key_perm | done]).
  pose proof (runs_engine_inv _ σ _ _ _ _ _ _ _ _ Hruns1 (engine_inv_init pol _ _ Hwf'))
    as Hinv1.
  pose proof (runs_engine_inv _ σ _ _ _ _ _ _ _ _ Hruns2 Hinv1) as Hinv2.
  pose proof (runs_time _ _ _ _ _ _ _ _ _ Hruns1) as Ht1.
  pose proof (runs_time _ _ _ _ _ _ _ _ _ Hruns2) as Ht2. simpl in Ht1.
  split_and!; try done.
  - apply sort_by_key_perm.
  - by apply (run_out_history _ _ _ _ _ _ Hrun2).
  - lia.
Qed.

(** ** Start times, arrivals and completions of a run *)

Lemma steps_start_stable pol tasks σ s idx σ' s' idx' r :
  steps pol tasks σ s idx σ' s' idx' →
  start_time (σ r) ≠ -1 → start_time (σ' r) = start_time (σ r).
Proof.
  intros Hsteps Hne.
  destruct (steps_unit_step _ _ _ _ _ _ _ _ Hsteps) as (σ1 & s1 & Hadm & Hunit).
  rewrite <- (admits_start _ _ _ _ _ _ _ _ r Hadm) in *.
  destruct Hunit as [σa sa σb sb _ _ Hun | σa sa σb sb e q _ _ Hun _ _ Hst].
  - apply Hun.
  - destruct (decide (r = entry_task e)) as [-> | Hr]; [| by apply Hun].
    rewrite Hst. by destruct (Z.eqb_spec (start_time (σa (entry_task e))) (-1)).
Qed.

Lemma runs_start_stable pol tasks max_time σ s idx σ' s' idx' r :
  runs pol tasks max_time σ s idx σ' s' idx' →
  start_time (σ r) ≠ -1 → start_time (σ' r) = start_time (σ r).
Proof.
  induction 1 as [| ? ? ? ? ? ? ? ? ? _ Hsteps _ IH]; [done |].
  intros Hne. pose proof (steps_start_stable _ _ _ _ _ _ _ _ r Hsteps Hne) as Heq.
  rewrite IH; [done | by rewrite Heq].
Qed.

(** X2. Arrival gating.  In a run on a well-formed task set no task
    executes before it has arrived: a history entry that bears the
    identifier of a task is for a unit at or after its arrival time.  If no
    task arrives before [max_time], every entry is idle. *)
Theorem no_unit_before_arrival pol σ tasks max_time :
  well_formed σ tasks →
  ∃ o, run pol σ Scheduler_init tasks max_time = Ok o ∧
    (∀ r j h, r ∈ tasks → out_history o !! j = Some h → h.2 = task_id (σ r) →
       arrival_time (σ r) ≤ Z.of_nat j) ∧
    ((∀ r, r ∈ tasks → max_time ≤ arrival_time (σ r)) →
     ∀ j h, out_history o !! j = Some h → h = (Z.of_nat j, Z.of_nat j + 1, IDLE)).
Proof.
  intros Hwf.
  destruct (run_engine_inv pol σ tasks max_time max_time Hwf (Z.le_refl _))
    as (o & o2 & idx1 & idx2 & Hrun & _ & Hperm & _ & _ & Hh & _ & _ & _ & Hinv & _).
  destruct Hinv as (_ & _ & _ & Hstart & _).
  assert (∀ r j h, r ∈ tasks → out_history o !! j = Some h → h.2 = task_id (σ r) →
                   arrival_time (σ r) ≤ Z.of_nat j) as Hgate.
  { intros r j h Hr Hj Hid. rewrite <- Hperm in Hr. rewrite Hh in Hj.
    destruct (Hstart r Hr) as [H1 H2].
    destruct (decide (start_time (out_store o r) = -1)) as [Hm | Hm].
    - by destruct (H1 Hm j h Hj).
    - destruct (H2 Hm) as (Ha & _ & _ & Hfirst). specialize (Hfirst j h Hj Hid). lia. }
  exists o. split; [exact Hrun |]. split; [exact Hgate |].
  intros Hlate j h Hj.
  destruct (run_history_shape pol σ tasks max_time) as (o' & Hrun' & Hlen & Hshape).
  rewrite Hrun in Hrun'. injection Hrun' as <-.
  pose proof (lookup_lt_Some _ _ _ Hj) as Hlt. rewrite Hlen in Hlt.
  destruct (Hshape j Hlt) as (x & Hx & [-> | (r & Hr & ->)]).
  - congruence.
  - exfalso. rewrite Hj in Hx. injection Hx as ->.
    specialize (Hgate r j _ Hr Hj eq_refl). specialize (Hlate r Hr). lia.
Qed.

Lemma no_unit_before_arrival_witness :
  well_formed (store_of [T1; T2]) [0; 1]%nat ∧
  ∃ o, run EDF (store_of [T1; T2]) Scheduler_init [0; 1]%nat 6 = Ok o ∧
       ∀ r j h, r ∈ [0; 1]%nat → out_history o !! j = Some h →
         h.2 = task_id (store_of [T1; T2] r) →
         arrival_time (store_of [T1; T2] r) ≤ Z.of_nat j.
Proof.
  split; [exact well_formed_T1_T2 |].
  destruct (no_unit_before_arrival EDF (store_of [T1; T2]) [0; 1]%nat 6
              well_formed_T1_T2) as (o & Hrun & Hgate & _).
  exists o. split; [exact Hrun | exact Hgate].
Defined.

(** X3. Start times.  After a run on a well-formed task set the start time
    of a task is [-1] exactly when no history entry bears its identifier;
    otherwise it is the unit of the task's first history entry and is not
    before the arrival time.  Once set it never changes: a run to a later
    bound leaves it as the run to an earlier bound set it. *)
Theorem start_time_is_first_unit pol σ tasks max_time :
  well_formed σ tasks →
  ∃ o, run pol σ Scheduler_init tasks max_time = Ok o ∧
    (∀ r, r ∈ tasks →
       (start_time (out_store o r) = -1 ↔
        ∀ j h, out_history o !! j = Some h → h.2 ≠ task_id (σ r)) ∧
       (start_time (out_store o r) ≠ -1 →
        arrival_time (σ r) ≤ start_time (out_store o r) ∧
        out_history o !! Z.to_nat (start_time (out_store o r)) =
          Some (start_time (out_store o r), start_time (out_store o r) + 1,
                task_id (σ r)) ∧
        ∀ j h, out_history o !! j = Some h → h.2 = task_id (σ r) →
               start_time (out_store o r) ≤ Z.of_nat j)) ∧
    (∀ m o' r, m ≤ max_time → run pol σ Scheduler_init tasks m = Ok o' →
       start_time (out_store o' r) ≠ -1 →
       start_time (out_store o r) = start_time (out_store o' r)).
Proof.
  intros Hwf.
  destruct (run_engine_inv pol σ tasks max_time max_time Hwf (Z.le_refl _))
    as (o & o2 & idx1 & idx2 & Hrun & _ & Hperm & _ & _ & Hh & _ & Ht & _ & Hinv & _).
  destruct Hinv as (_ & _ & _ & Hstart & _).
  destruct (run_history_shape pol σ tasks max_time) as (o' & Hrun' & Hlen & Hshape).
  rewrite Hrun in Hrun'. injection Hrun' as <-.
  exists o. split; [exact Hrun |]. split.
  - intros r Hr. rewrite <- Hperm in Hr. destruct (Hstart r Hr) as [H1 H2].
    rewrite Hh. split; [split |].
    + exact H1.
    + intros Hnone. destruct (decide (start_time (out_store o r) = -1)) as [| Hm]; [done |].
      destruct (H2 Hm) as (_ & _ & (h & Hl & Hid) & _). by destruct (Hnone _ _ Hl).
    + intros Hm. destruct (H2 Hm) as (Ha & Hb & (h & Hl & Hid) & Hfirst).
      split; [done |]. split; [| done].
      assert (Z.to_nat (start_time (out_store o r)) < Z.to_nat max_time)%nat as Hlt
        by (rewrite <- Hlen, Hh; by eapply lookup_lt_Some).
      destruct (Hshape _ Hlt) as (x & Hx & _). rewrite Hh in Hx.
      rewrite Hl in Hx. injection Hx as ->. simpl in Hid. subst x.
      rewrite Hl. by rewrite Z2Nat.id by lia.
  - intros m o' r Hm Hrun' Hne.
    destruct (run_prefix _ _ _ _ _ _ Hm Hrun')
      as (o3 & i1 & i2 & Hrun3 & _ & _ & _ & Hruns).
    rewrite Hrun in Hrun3. injection Hrun3 as <-.
    by eapply runs_start_stable.
Qed.

Lemma start_time_is_first_unit_witness :
  well_formed (store_of [T1; T2]) [0; 1]%nat ∧
  ∃ o, run EDF (store_of [T1; T2]) Scheduler_init [0; 1]%nat 6 = Ok o ∧
       ∀ m o' r, m ≤ 6 →
         run EDF (store_of [T1; T2]) Scheduler_init [0; 1]%nat m = Ok o' →
         start_time (out_store o' r) ≠ -1 →
         start_time (out_store o r) = start_time (out_store o' r).
Proof.
  split; [exact well_formed_T1_T2 |].
  destruct (start_time_is_first_unit EDF (store_of [T1; T2]) [0; 1]%nat 6
              well_formed_T1_T2) as (o & Hrun & _ & Hstable).
  exists o. split; [exact Hrun | exact Hstable].
Defined.

(** X4. Completions.  After a run on a well-formed task set the completed
    list has no duplicates and is in strictly increasing order of
    completion time; every completed task belongs to the task set, has no
    remaining time, completed no earlier than its arrival time plus its
    burst time and no later than [max_time], and its last unit is the one
    just before its completion time. *)
Theorem completions_in_order pol σ tasks max_time :
  well_formed σ tasks →
  ∃ o, run pol σ Scheduler_init tasks max_time = Ok o ∧
    NoDup (completed_tasks (out_sched o)) ∧
    StronglySorted
      (λ a b, completion_time (out_store o a) < completion_time (out_store o b))
      (completed_tasks (out_sched o)) ∧
    ∀ r, r ∈ completed_tasks (out_sched o) →
      r ∈ tasks ∧
      remaining_time (out_store o r) = 0 ∧
      arrival_time (σ r) + burst_time (σ r) ≤ completion_time (out_store o r) ∧
      completion_time (out_store o r) ≤ max_time ∧
      (∃ h, out_history o !! Z.to_nat (completion_time (out_store o r) - 1) = Some h ∧
            h.2 = task_id (σ r)) ∧
      ∀ j h, out_history o !! j = Some h → h.2 = task_id (σ r) →
             Z.of_nat j < completion_time (out_store o r).
Proof.
  intros Hwf.
  destruct (run_engine_inv pol σ tasks max_time max_time Hwf (Z.le_refl _))
    as (o & o2 & idx1 & idx2 & Hrun & _ & Hperm & _ & _ & Hh & _ & Ht & _ & Hinv & _).
  destruct Hinv as (Hinv & Hlen & _ & _ & Hsorted & Hall).
  destruct Hinv as (_ & _ & _ & _ & _ & _ & _ & Hcomp & _ & _ & _ & Hcnd & Hcsub & _).
  exists o. split; [exact Hrun |]. split; [done |]. split; [done |].
  intros r Hr. pose proof (Hcsub r Hr) as Hin.
  destruct (Hall r Hr) as (Ha & Hb & Hlast & Hnone).
  rewrite Hh. split_and!; try done.
  - by rewrite <- Hperm.
  - by apply Hcomp.
  - destruct Hlast as (h & Hl & _). apply lookup_lt_Some in Hl. lia.
Qed.

Lemma completions_in_order_witness :
  well_formed (store_of [T1; T2]) [0; 1]%nat ∧
  ∃ o, run EDF (store_of [T1; T2]) Scheduler_init [0; 1]%nat 6 = Ok o ∧
       NoDup (completed_tasks (out_sched o)).
Proof.
  split; [exact well_formed_T1_T2 |].
  destruct (completions_in_order EDF (store_of [T1; T2]) [0; 1]%nat 6
              well_formed_T1_T2) as (o & Hrun & Hnd & _).
  exists o. split; [exact Hrun | exact Hnd].
Defined.

(** ** Which task a unit goes to *)

Lemma admits_pending pol σ0 tasks σ s idx σ1 s1 idx1 :
  admits pol tasks σ s idx σ1 s1 idx1 →
  (∀ r, same_static (σ0 r) (σ r)) →
  StronglySorted (λ a b, arrival_time (σ0 a) ≤ arrival_time (σ0 b)) tasks →
  ∀ r, r ∈ drop idx1 tasks → time s1 < arrival_time (σ0 r).
Proof.
  induction 1 as [σ s idx Hstop | σ s idx r0 q σ' s' idx' Hr0 Harr Hq Hok _ IH];
    intros Hst Hsorted.
  - destruct Hstop as [Hnone | (r0 & Hr0 & Hlt)].
    + apply lookup_ge_None in Hnone. rewrite drop_ge by done.
      intros r Hr. by apply elem_of_nil in Hr.
    + rewrite (drop_S _ _ _ Hr0).
      rewrite <- (take_drop idx tasks), (drop_S _ _ _ Hr0) in Hsorted.
      apply StronglySorted_app_1_r, StronglySorted_cons in Hsorted as [Hall _].
      destruct (Hst r0) as (_ & Ha & _).
      intros r [-> | Hr]%elem_of_cons; [lia |].
      pose proof (proj1 (Forall_forall _ _) Hall r Hr) as Hle. simpl in Hle. lia.
  - apply IH; [| done]. intros r. eapply same_static_trans; [apply Hst |].
    destruct (decide (r = r0)) as [-> | Hne].
    + rewrite store_set_eq. by repeat split.
    + rewrite store_set_ne by done. apply same_static_refl.
Qed.

(** The unit [i] of a run on a well-formed task set: it is idle and no
    arrived task has work left, or it goes to an arrived task with work
    left whose priority key (then arrival time) is least among the arrived
    tasks with work left. *)
Lemma unit_selection pol σ tasks i :
  well_formed σ tasks → 0 ≤ i →
  ∃ o o' x,
    run pol σ Scheduler_init tasks i = Ok o ∧
    run pol σ Scheduler_init tasks (i + 1) = Ok o' ∧
    out_history o' = out_history o ++ [(i, i + 1, x)] ∧
    length (out_history o) = Z.to_nat i ∧
    ((x = IDLE ∧
      (∀ r, r ∈ tasks → arrival_time (σ r) ≤ i → remaining_time (out_store o r) = 0) ∧
      (∀ r, remaining_time (out_store o' r) = remaining_time (out_store o r)))
     ∨
     (∃ r, r ∈ tasks ∧ x = task_id (σ r) ∧
           arrival_time (σ r) ≤ i ∧ 0 < remaining_time (out_store o r) ∧
           remaining_time (out_store o' r) = remaining_time (out_store o r) - 1 ∧
           (∀ r', r' ≠ r →
              remaining_time (out_store o' r') = remaining_time (out_store o r')) ∧
           ∀ r', r' ∈ tasks → arrival_time (σ r') ≤ i →
             0 < remaining_time (out_store o r') →
             priority pol (σ r) < priority pol (σ r') ∨
             (priority pol (σ r) = priority pol (σ r') ∧
              arrival_time (σ r) ≤ arrival_time (σ r')))).
Proof.
  intros Hwf Hi.
  destruct (run_engine_inv pol σ tasks i (i + 1) Hwf ltac:(lia))
    as (o & o' & idx1 & idx2 & Hrun & Hrun' & Hperm & _ & Hsorted & Hh & Hh' & Ht & _
        & Hinv & _ & Hruns).
  exists o, o'.
  destruct Hinv as (Hinv & Hlen & Harr & _).
  inversion Hruns as [| ? ? ? σ1 s1 idx3 ? ? ? _ Hsteps Hruns']; subst; [lia |].
  pose proof (steps_time _ _ _ _ _ _ _ _ Hsteps) as Ht1.
  inversion Hruns' as [| ? ? ? ? ? ? ? ? ? Hlt _ _]; subst; [| lia].
  assert (time (out_sched o) = i) as Hti by lia.
  destruct (steps_unit_step _ _ _ _ _ _ _ _ Hsteps) as (σa & sa & Hadm & Hunit).
  pose proof (admits_run_inv _ _ _ _ _ _ _ _ Hadm Hinv) as Hinva.
  pose proof (admits_arr_inv _ σ _ _ _ _ _ _ _ Hadm Harr) as Harra.
  pose proof (admits_time _ _ _ _ _ _ _ _ Hadm) as Hta.
  pose proof (admits_frame _ _ _ _ _ _ _ _ Hadm) as (Hha & _).
  assert (∀ r, remaining_time (σa r) = remaining_time (out_store o r)) as Hrema
    by (intros r; apply (admits_untouched _ _ _ _ _ _ _ _ r Hadm)).
  assert (∀ r, r ∈ drop idx2 (out_tasks o) → time sa < arrival_time (σ r)) as Hpend.
  { apply (admits_pending _ σ _ _ _ _ _ _ _ Hadm); [apply Harr |].
    rewrite Hsorted. apply (sort_by_key_sorted (λ x, arrival_time (σ x))). }
  destruct Harra as (Hst & Harrd & Hqueued & Hkeys & _).
  destruct Hinva as (_ & Hids & Hidle & _ & Hq & _ & Hnn & _).
  assert (∀ r, r ∈ tasks → arrival_time (σ r) ≤ i →
            0 < remaining_time (out_store o r) →
            ∃ e, e ∈ ready_queue sa ∧ entry_task e = r) as Hready.
  { intros r Hr Ha Hpos. rewrite <- Hperm in Hr.
    rewrite <- (take_drop idx2 (out_tasks o)) in Hr.
    apply elem_of_app in Hr as [Hr | Hr].
    - apply Hqueued; [done | by rewrite Hrema].
    - specialize (Hpend r Hr). lia. }
  destruct Hunit
    as [σa sa σ' s' Hnil Hnil' Hun Hhist Hc' Ht'
       | σa sa σ' s' e q Hpermq Hmin Hun Hsame Hrem' Hstart Hhist Ht' Hcase].
  - exists IDLE. split; [done |]. split; [done |].
    split; [by rewrite Hh', Hhist, Hha, Hh, Hta, Hti |]. split; [by rewrite Hh, Hlen, Hti |].
    left. split; [done |]. split.
    + intros r Hr Ha.
      destruct (decide (0 < remaining_time (out_store o r))) as [Hpos | Hnpos].
      * destruct (Hready r Hr Ha Hpos) as (e & He & _). rewrite Hnil in He.
        by apply elem_of_nil in He.
      * rewrite <- Hperm in Hr. specialize (Hnn r Hr). rewrite Hrema in Hnn. lia.
    + intros r. destruct (Hun r) as [(_ & Hr' & _) _]. by rewrite Hr', Hrema.
  - assert (e ∈ ready_queue sa) as He by (rewrite Hpermq; apply list_elem_of_here).
    destruct (Hq e He) as [Hrtake Hrpos].
    assert (entry_task e ∈ out_tasks o) as Hrin by by eapply subseteq_take.
    destruct (Hst (entry_task e)) as (Hid & _).
    exists (task_id (σ (entry_task e))). split; [done |]. split; [done |].
    split; [by rewrite Hh', Hhist, Hha, Hh, Hta, Hti, Hid |].
    split; [by rewrite Hh, Hlen, Hti |].
    right. exists (entry_task e).
    split; [by rewrite <- Hperm |]. split; [done |].
    split; [specialize (Harrd _ Hrtake); lia |].
    split; [by rewrite <- Hrema |]. split; [by rewrite Hrem', Hrema |].
    split.
    { intros r' Hne. destruct (Hun r' Hne) as [(_ & Hr' & _) _]. by rewrite Hr', Hrema. }
    intros r' Hr' Ha' Hpos'.
    destruct (Hready r' Hr' Ha' Hpos') as (e' & He' & <-).
    destruct (Hkeys e He) as [Hp1 Ha1]. destruct (Hkeys e' He') as [Hp2 Ha2].
    specialize (Hmin e' He'). unfold lex_le, lex_lt in Hmin. lia.
Qed.

(** X5. Work conservation.  Unit [i] of a run on a well-formed task set is
    idle exactly when no task that has arrived by [i] has work left; every
    run that covers unit [i] records that unit in the same way. *)
Theorem idle_iff_nothing_ready pol σ tasks i :
  well_formed σ tasks → 0 ≤ i →
  ∃ o o' x,
    run pol σ Scheduler_init tasks i = Ok o ∧
    run pol σ Scheduler_init tasks (i + 1) = Ok o' ∧
    out_history o' = out_history o ++ [(i, i + 1, x)] ∧
    (x = IDLE ↔
     ∀ r, r ∈ tasks → arrival_time (σ r) ≤ i → remaining_time (out_store o r) = 0) ∧
    (∀ m om, i + 1 ≤ m → run pol σ Scheduler_init tasks m = Ok om →
       out_history om !! Z.to_nat i = Some (i, i + 1, x)).
Proof.
  intros Hwf Hi.
  destruct (unit_selection pol σ tasks i Hwf Hi)
    as (o & o' & x & Hrun & Hrun' & Hh & Hlen & Hcase).
  exists o, o', x. split; [done |]. split; [done |]. split; [done |]. split.
  - destruct Hcase as [(-> & Hdone & _) | (r & Hr & -> & Ha & Hpos & _)].
    + done.
    + split.
      * intros Hidle. exfalso. by apply (proj2 Hwf r Hr).
      * intros Hdone. specialize (Hdone r Hr Ha). lia.
  - intros m om Hm Hrunm.
    destruct (run_prefix _ _ _ _ _ _ Hm Hrun')
      as (o3 & i1 & i2 & Hrun3 & _ & _ & _ & Hruns).
    rewrite Hrunm in Hrun3. injection Hrun3 as <-.
    destruct (runs_history _ _ _ _ _ _ _ _ _ Hruns) as (rest & Hrest).
    rewrite (run_out_history _ _ _ _ _ _ Hrunm), Hrest.
    rewrite <- (run_out_history _ _ _ _ _ _ Hrun'), Hh, <- app_assoc.
    rewrite lookup_app_r by lia.
    by replace (Z.to_nat i - length (out_history o))%nat with 0%nat by lia.
Qed.

Lemma idle_iff_nothing_ready_witness :
  well_formed (store_of [T1; T2]) [0; 1]%nat ∧ 0 ≤ 5 ∧
  ∃ o o' x,
    run EDF (store_of [T1; T2]) Scheduler_init [0; 1]%nat 5 = Ok o ∧
    run EDF (store_of [T1; T2]) Scheduler_init [0; 1]%nat (5 + 1) = Ok o' ∧
    out_history o' = out_history o ++ [(5, 5 + 1, x)].
Proof.
  split; [exact well_formed_T1_T2 |]. split; [lia |].
  destruct (idle_iff_nothing_ready EDF (store_of [T1; T2]) [0; 1]%nat 5
              well_formed_T1_T2 ltac:(lia)) as (o & o' & x & Hrun & Hrun' & Hh & _).
  exists o, o', x. split; [exact Hrun |]. split; [exact Hrun' | exact Hh].
Defined.

(** X6. The policy is followed.  If unit [i] of a run on a well-formed task
    set goes to task [r], then [r] has arrived and has work left, its
    remaining time drops by one, and among the tasks that have arrived
    with work left none has a smaller priority key (absolute deadline under
    EDF, period under RMS), nor the same key and an earlier arrival. *)
Theorem selected_task_has_least_key pol σ tasks i :
  well_formed σ tasks → 0 ≤ i →
  ∃ o o' x,
    run pol σ Scheduler_init tasks i = Ok o ∧
    run pol σ Scheduler_init tasks (i + 1) = Ok o' ∧
    out_history o' = out_history o ++ [(i, i + 1, x)] ∧
    ∀ r, r ∈ tasks → x = task_id (σ r) →
      arrival_time (σ r) ≤ i ∧ 0 < remaining_time (out_store o r) ∧
      remaining_time (out_store o' r) = remaining_time (out_store o r) - 1 ∧
      ∀ r', r' ∈ tasks → arrival_time (σ r') ≤ i →
        0 < remaining_time (out_store o r') →
        priority pol (σ r) < priority pol (σ r') ∨
        (priority pol (σ r) = priority pol (σ r') ∧
         arrival_time (σ r) ≤ arrival_time (σ r')).
Proof.
  intros Hwf Hi.
  destruct (unit_selection pol σ tasks i Hwf Hi)
    as (o & o' & x & Hrun & Hrun' & Hh & Hlen & Hcase).
  exists o, o', x. split; [done |]. split; [done |]. split; [done |].
  intros r Hr ->.
  destruct Hcase as [[Hidle _] | (r0 & Hr0 & Hid & Ha & Hpos & Hrem & _ & Hmin)].
  - exfalso. by apply (proj2 Hwf r Hr).
  - assert (r = r0) as ->; [| done].
    by apply (NoDup_fmap_inj_on (λ r, task_id (σ r)) tasks); [apply Hwf | | |].
Qed.

Lemma selected_task_has_least_key_witness :
  well_formed (store_of [T1; T2]) [0; 1]%nat ∧ 0 ≤ 1 ∧
  ∃ o o' x,
    run EDF (store_of [T1; T2]) Scheduler_init [0; 1]%nat 1 = Ok o ∧
    run EDF (store_of [T1; T2]) Scheduler_init [0; 1]%nat (1 + 1) = Ok o' ∧
    out_history o' = out_history o ++ [(1, 1 + 1, x)].
Proof.
  split; [exact well_formed_T1_T2 |]. split; [lia |].
  destruct (selected_task_has_least_key EDF (store_of [T1; T2]) [0; 1]%nat 1
              well_formed_T1_T2 ltac:(lia)) as (o & o' & x & Hrun & Hrun' & Hh & _).
  exists o, o', x. split; [exact Hrun |]. split; [exact Hrun' | exact Hh].
Defined.

(** ** Every task completes *)

Lemma sum_over_le (f g : ref → Z) l :
  (∀ r, r ∈ l → f r ≤ g r) → sum_over f l ≤ sum_over g l.
Proof.
  induction l as [| a l IH]; intros H; simpl; [lia |].
  pose proof (H a (list_elem_of_here _ _)).
  specialize (IH (λ r Hr, H r (list_elem_of_further _ _ _ Hr))). lia.
Qed.

Lemma sum_over_nonneg (f : ref → Z) l :
  (∀ r, r ∈ l → 0 ≤ f r) → 0 ≤ sum_over f l.
Proof.
  induction l as [| a l IH]; intros H; simpl; [lia |].
  pose proof (H a (list_elem_of_here _ _)).
  specialize (IH (λ r Hr, H r (list_elem_of_further _ _ _ Hr))). lia.
Qed.

Lemma sum_over_elem (f : ref → Z) l r :
  (∀ r, r ∈ l → 0 ≤ f r) → r ∈ l → f r ≤ sum_over f l.
Proof.
  induction l as [| a l IH]; intros H Hr; [by apply elem_of_nil in Hr |].
  simpl. pose proof (H a (list_elem_of_here _ _)).
  pose proof (sum_over_nonneg f l (λ r Hr, H r (list_elem_of_further _ _ _ Hr))).
  apply elem_of_cons in Hr as [-> | Hr]; [lia |].
  specialize (IH (λ r Hr, H r (list_elem_of_further _ _ _ Hr)) Hr). lia.
Qed.

Lemma sum_over_ext (f g : ref → Z) l :
  (∀ r, r ∈ l → f r = g r) → sum_over f l = sum_over g l.
Proof.
  induction l as [| a l IH]; intros H; simpl; [done |].
  rewrite (H a (list_elem_of_here _ _)).
  by rewrite (IH (λ r Hr, H r (list_elem_of_further _ _ _ Hr))).
Qed.

Lemma sum_over_dec (f g : ref → Z) l r :
  NoDup l → r ∈ l → f r = g r - 1 → (∀ r', r' ≠ r → f r' = g r') →
  sum_over f l = sum_over g l - 1.
Proof.
  induction l as [| a l IH]; intros Hnd Hr Hf Hother; [by apply elem_of_nil in Hr |].
  apply NoDup_cons in Hnd as [Ha Hnd]. simpl.
  apply elem_of_cons in Hr as [-> | Hr].
  - rewrite Hf. rewrite (sum_over_ext f g l); [lia |].
    intros r' Hr'. apply Hother. by intros ->.
  - rewrite (Hother a) by (by intros ->). rewrite (IH Hnd Hr Hf Hother). lia.
Qed.

(** The history of a run is a prefix of the history of a run to a later
    bound. *)
Lemma run_history_prefix pol σ tasks m1 m2 o1 o2 :
  m1 ≤ m2 →
  run pol σ Scheduler_init tasks m1 = Ok o1 →
  run pol σ Scheduler_init tasks m2 = Ok o2 →
  ∃ rest, out_history o2 = out_history o1 ++ rest.
Proof.
  intros Hm Hrun1 Hrun2.
  destruct (run_prefix _ _ _ _ _ _ Hm Hrun1)
    as (o3 & i1 & i2 & Hrun3 & _ & _ & _ & Hruns).
  rewrite Hrun2 in Hrun3. injection Hrun3 as <-.
  destruct (runs_history _ _ _ _ _ _ _ _ _ Hruns) as (rest & Hrest).
  exists rest.
  by rewrite (run_out_history _ _ _ _ _ _ Hrun1), (run_out_history _ _ _ _ _ _ Hrun2).
Qed.

(** What a run leaves of every task: a remaining time between zero and the
    burst time. *)
Lemma run_remaining_bounds pol σ tasks max_time :
  well_formed σ tasks →
  ∃ o, run pol σ Scheduler_init tasks max_time = Ok o ∧
    (∀ r, r ∈ tasks →
       0 ≤ remaining_time (out_store o r) ≤ burst_time (σ r) ∧
       (remaining_time (out_store o r) = 0 ↔ r ∈ completed_tasks (out_sched o))).
Proof.
  intros Hwf.
  destruct (run_well_formed pol σ tasks max_time Hwf)
    as (o & idx & Hrun & Hperm & _ & _ & Hst & Hinv).
  exists o. split; [exact Hrun |].
  destruct Hinv as (_ & _ & _ & _ & _ & _ & Hnn & Hdone & _ & Hacc & _).
  intros r Hr. rewrite <- Hperm in Hr.
  destruct (Hst r) as (_ & _ & Hb & _).
  split; [| by apply Hdone].
  split; [by apply Hnn |].
  rewrite (Hacc r Hr), Hb. unfold count_id. lia.
Qed.

(** From the time [A] by which every task has arrived, the work left
    shrinks by one per unit until none is left. *)
Lemma remaining_work_bound pol σ tasks A :
  well_formed σ tasks → 0 ≤ A →
  (∀ r, r ∈ tasks → arrival_time (σ r) ≤ A) →
  ∀ k : nat, ∃ o,
    run pol σ Scheduler_init tasks (A + Z.of_nat k) = Ok o ∧
    sum_over (λ r, remaining_time (out_store o r)) tasks ≤
      Z.max 0 (sum_over (λ r, burst_time (σ r)) tasks - Z.of_nat k).
Proof.
  intros Hwf HA Harr k. induction k as [| k (o & Hrun & IH)].
  - destruct (run_remaining_bounds pol σ tasks (A + Z.of_nat 0) Hwf) as (o & Hrun & Hb).
    exists o. split; [exact Hrun |].
    etrans; [apply (sum_over_le _ (λ r, burst_time (σ r))); intros r Hr; apply Hb, Hr |].
    lia.
  - destruct (unit_selection pol σ tasks (A + Z.of_nat k) Hwf ltac:(lia))
      as (o1 & o' & x & Hrun1 & Hrun' & _ & _ & Hcase).
    rewrite Hrun in Hrun1. injection Hrun1 as <-.
    replace (A + Z.of_nat (S k)) with (A + Z.of_nat k + 1) by lia.
    exists o'. split; [exact Hrun' |].
    destruct (run_remaining_bounds pol σ tasks (A + Z.of_nat k + 1) Hwf)
      as (o2 & Hrun2 & Hb').
    rewrite Hrun' in Hrun2. injection Hrun2 as <-.
    destruct Hcase as [(_ & Hdone & Hsame) | (r & Hr & _ & _ & Hpos & Hrem & Hother & _)].
    + rewrite (sum_over_ext _ (λ _, 0) tasks).
      * assert (∀ l, sum_over (λ _, 0) l = 0) as ->; [| lia].
        intros l. induction l as [| a l IHl]; simpl; lia.
      * intros r Hr. rewrite Hsame. apply Hdone; [done |].
        specialize (Harr r Hr). lia.
    + pose proof (sum_over_dec (λ r, remaining_time (out_store o' r))
                    (λ r, remaining_time (out_store o r)) tasks r
                    (ids_NoDup_refs _ _ (proj1 Hwf)) Hr Hrem Hother) as Hdec.
      pose proof (sum_over_nonneg (λ r, remaining_time (out_store o' r)) tasks
                    (λ r Hr, proj1 (proj1 (Hb' r Hr)))) as Hnn.
      lia.
Qed.

(** Once every task has arrived and as many further units as the burst
    times add up to have passed, no task has work left. *)
Lemma all_done_after pol σ tasks A max_time :
  well_formed σ tasks → 0 ≤ A →
  (∀ r, r ∈ tasks → arrival_time (σ r) ≤ A) →
  A + sum_over (λ r, burst_time (σ r)) tasks ≤ max_time →
  ∃ o, run pol σ Scheduler_init tasks max_time = Ok o ∧
    ∀ r, r ∈ tasks →
      remaining_time (out_store o r) = 0 ∧ r ∈ completed_tasks (out_sched o).
Proof.
  intros Hwf HA Harr Hmax.
  pose proof (sum_over_nonneg (λ r, burst_time (σ r)) tasks) as HB.
  assert (0 ≤ sum_over (λ r, burst_time (σ r)) tasks) as HB'.
  { apply HB. intros r Hr. destruct (proj2 Hwf r Hr) as (_ & Hb & _). lia. }
  destruct (remaining_work_bound pol σ tasks A Hwf HA Harr (Z.to_nat (max_time - A)))
    as (o & Hrun & Hsum).
  replace (A + Z.of_nat (Z.to_nat (max_time - A))) with max_time in Hrun by lia.
  destruct (run_remaining_bounds pol σ tasks max_time Hwf) as (o2 & Hrun2 & Hb).
  rewrite Hrun in Hrun2. injection Hrun2 as <-.
  exists o. split; [exact Hrun |]. intros r Hr.
  assert (remaining_time (out_store o r) = 0) as Hz.
  { pose proof (sum_over_elem (λ r, remaining_time (out_store o r)) tasks r
                  (λ r Hr, proj1 (proj1 (Hb r Hr))) Hr) as Hle.
    simpl in Hle. pose proof (proj1 (proj1 (Hb r Hr))). lia. }
  split; [done |]. by apply (Hb r Hr).
Qed.

(** X7. No starvation.  Let every task of a well-formed task set arrive by
    time [A].  A run whose bound is at least [A] plus the sum of the burst
    times completes every task, each no later than [A] plus that sum. *)
Theorem every_task_completes pol σ tasks A max_time :
  well_formed σ tasks → 0 ≤ A →
  (∀ r, r ∈ tasks → arrival_time (σ r) ≤ A) →
  A + sum_over (λ r, burst_time (σ r)) tasks ≤ max_time →
  ∃ o, run pol σ Scheduler_init tasks max_time = Ok o ∧
    ∀ r, r ∈ tasks →
      remaining_time (out_store o r) = 0 ∧
      r ∈ completed_tasks (out_sched o) ∧
      completion_time (out_store o r) ≤
        A + sum_over (λ r, burst_time (σ r)) tasks.
Proof.
  intros Hwf HA Harr Hmax.
  destruct (all_done_after pol σ tasks A max_time Hwf HA Harr Hmax) as (o & Hrun & Hdone).
  exists o. split; [exact Hrun |]. intros r Hr.
  destruct (Hdone r Hr) as [Hz Hc]. split; [done |]. split; [done |].
  destruct (run_engine_inv pol σ tasks max_time max_time Hwf (Z.le_refl _))
    as (o1 & o2 & idx1 & idx2 & Hrun1 & _ & _ & _ & _ & Hh & _ & Ht & _ & Hinv & _).
  rewrite Hrun in Hrun1. injection Hrun1 as <-.
  destruct Hinv as (_ & Hlen & _ & _ & _ & Hall).
  destruct (Hall r Hc) as (_ & Hle & (h & Hl & Hid) & _).
  assert (0 ≤ sum_over (λ r, burst_time (σ r)) tasks) as HB.
  { apply sum_over_nonneg. intros r' Hr'. destruct (proj2 Hwf r' Hr') as (_ & Hb & _). lia. }
  remember (sum_over (λ r, burst_time (σ r)) tasks) as B eqn:HeqB.
  destruct (decide (completion_time (out_store o r) ≤ A + B)) as [| Hlate]; [done |].
  exfalso.
  pose proof (lookup_lt_Some _ _ _ Hl) as Hlt.
  remember (completion_time (out_store o r) - 1) as j eqn:Hj.
  rewrite HeqB in Hmax, Hlate.
  destruct (unit_selection pol σ tasks j Hwf ltac:(lia))
    as (oj & oj' & x & Hrunj & Hrunj' & Hhj & Hlenj & Hcase).
  destruct (all_done_after pol σ tasks A j Hwf HA Harr ltac:(lia)) as (oj2 & Hrunj2 & Hdonej).
  rewrite Hrunj in Hrunj2. injection Hrunj2 as <-.
  destruct (run_history_prefix pol σ tasks (j + 1) max_time oj' o ltac:(lia) Hrunj' Hrun)
    as (rest & Hrest).
  rewrite <- Hh, Hrest, Hhj, <- app_assoc, lookup_app_r in Hl by lia.
  replace (Z.to_nat j - length (out_history oj))%nat with 0%nat in Hl by lia.
  simpl in Hl. injection Hl as <-. simpl in Hid.
  destruct Hcase as [(-> & _) | (r' & Hr' & _ & _ & Hpos & _)].
  - by apply (proj2 Hwf r Hr).
  - destruct (Hdonej r' Hr') as [Hz' _]. lia.
Qed.

Lemma every_task_completes_witness :
  ∃ o, run EDF (store_of [T1; T2]) Scheduler_init [0; 1]%nat 7 = Ok o ∧
    ∀ r, r ∈ [0; 1]%nat →
      remaining_time (out_store o r) = 0 ∧
      r ∈ completed_tasks (out_sched o) ∧
      completion_time (out_store o r) ≤
        1 + sum_over (λ r, burst_time (store_of [T1; T2] r)) [0; 1]%nat.
Proof.
  apply (every_task_completes EDF (store_of [T1; T2]) [0; 1]%nat 1 7 well_formed_T1_T2).
  - lia.
  - intros r Hr. apply elem_of_cons in Hr as [-> | Hr]; [vm_compute; discriminate |].
    apply elem_of_cons in Hr as [-> | Hr]; [vm_compute; discriminate |].
    by apply elem_of_nil in Hr.
  - vm_compute. discriminate.
Defined.

(** ** When the running task changes *)

(** X8. Preemption.  In a run on a well-formed task set, let unit [i] go to
    task [r], let [r] still have work left after it, and let unit [i + 1] go
    to another task [r'].  Then [r'] arrived at time [i + 1] and its
    priority key is strictly smaller than that of [r], or [r'] has the same
    priority key and the same arrival time as [r]. *)
Theorem switch_only_on_arrival_or_tie pol σ tasks i :
  well_formed σ tasks → 0 ≤ i →
  ∃ o0 o1 o2 x y,
    run pol σ Scheduler_init tasks i = Ok o0 ∧
    run pol σ Scheduler_init tasks (i + 1) = Ok o1 ∧
    run pol σ Scheduler_init tasks (i + 2) = Ok o2 ∧
    out_history o1 = out_history o0 ++ [(i, i + 1, x)] ∧
    out_history o2 = out_history o1 ++ [(i + 1, i + 2, y)] ∧
    ∀ r r', r ∈ tasks → r' ∈ tasks →
      x = task_id (σ r) → y = task_id (σ r') → r' ≠ r →
      0 < remaining_time (out_store o1 r) →
      (arrival_time (σ r') = i + 1 ∧ priority pol (σ r') < priority pol (σ r)) ∨
      (priority pol (σ r') = priority pol (σ r) ∧
       arrival_time (σ r') = arrival_time (σ r)).
Proof.
  intros Hwf Hi.
  destruct (unit_selection pol σ tasks i Hwf Hi)
    as (o0 & o1 & x & Hrun0 & Hrun1 & Hh1 & _ & Hcase0).
  destruct (unit_selection pol σ tasks (i + 1) Hwf ltac:(lia))
    as (o1' & o2 & y & Hrun1' & Hrun2 & Hh2 & _ & Hcase1).
  rewrite Hrun1 in Hrun1'. injection Hrun1' as <-.
  replace (i + 1 + 1) with (i + 2) in * by lia.
  exists o0, o1, o2, x, y. split_and!; try done.
  intros r r' Hr Hr' -> -> Hne Hleft.
  assert (∀ a b, a ∈ tasks → b ∈ tasks → task_id (σ a) = task_id (σ b) → a = b) as Hinj.
  { intros a b Ha Hb. by apply (NoDup_fmap_inj_on (λ r, task_id (σ r)) tasks); [apply Hwf | |]. }
  destruct Hcase0 as [(Hidle & _) | (r0 & Hr0 & Hid0 & Ha0 & Hpos0 & _ & Hoth0 & Hmin0)].
  { exfalso. by apply (proj2 Hwf r Hr). }
  apply (Hinj _ _ Hr Hr0) in Hid0 as <-.
  destruct Hcase1 as [(Hidle & _) | (r1 & Hr1 & Hid1 & Ha1 & Hpos1 & _ & _ & Hmin1)].
  { exfalso. by apply (proj2 Hwf r' Hr'). }
  apply (Hinj _ _ Hr' Hr1) in Hid1 as <-.
  specialize (Hmin1 r Hr ltac:(lia) Hleft).
  destruct (decide (arrival_time (σ r') ≤ i)) as [Hold | Hnew]; [| lia].
  rewrite (Hoth0 r' Hne) in Hpos1.
  specialize (Hmin0 r' Hr' Hold Hpos1). lia.
Qed.

Lemma switch_only_on_arrival_or_tie_witness :
  well_formed (store_of [T1; T2]) [0; 1]%nat ∧ 0 ≤ 0 ∧
  ∃ o0 o1 o2 x y,
    run EDF (store_of [T1; T2]) Scheduler_init [0; 1]%nat 0 = Ok o0 ∧
    run EDF (store_of [T1; T2]) Scheduler_init [0; 1]%nat (0 + 1) = Ok o1 ∧
    run EDF (store_of [T1; T2]) Scheduler_init [0; 1]%nat (0 + 2) = Ok o2 ∧
    out_history o1 = out_history o0 ++ [(0, 0 + 1, x)] ∧
    out_history o2 = out_history o1 ++ [(0 + 1, 0 + 2, y)].
Proof.
  split; [exact well_formed_T1_T2 |]. split; [lia |].
  destruct (switch_only_on_arrival_or_tie EDF (store_of [T1; T2]) [0; 1]%nat 0
              well_formed_T1_T2 ltac:(lia))
    as (o0 & o1 & o2 & x & y & H0 & H1 & H2 & H3 & H4 & _).
  exists o0, o1, o2, x, y.
  split; [exact H0 |]. split; [exact H1 |]. split; [exact H2 |].
  split; [exact H3 | exact H4].
Defined.

(** ** The order in which the caller lists the tasks *)

Lemma sort_by_key_unique {A : Type} (key : A → Z) (l1 l2 : list A) :
  l1 ≡ₚ l2 →
  (∀ a b, a ∈ l1 → b ∈ l1 → key a = key b → a = b) →
  sort_by_key key l1 = sort_by_key key l2.
Proof.
  intros Hperm Hinj.
  apply (StronglySorted_unique_strong (λ a b, key a ≤ key b)).
  - intros a b Ha Hb Hab Hba.
    rewrite sort_by_key_perm in Ha. rewrite sort_by_key_perm, <- Hperm in Hb.
    apply Hinj; [done | done | lia].
  - apply sort_by_key_sorted.
  - apply sort_by_key_sorted.
  - by rewrite !sort_by_key_perm.
Qed.

(** X9. Listing order.  When no two tasks arrive at the same time, the
    result of [run] (every task object, the scheduler and the history) is
    the same whatever the order in which the caller lists the tasks. *)
Theorem run_independent_of_listing_order pol σ s tasks1 tasks2 max_time :
  tasks1 ≡ₚ tasks2 →
  (∀ a b, a ∈ tasks1 → b ∈ tasks1 →
     arrival_time (σ a) = arrival_time (σ b) → a = b) →
  run pol σ s tasks1 max_time = run pol σ s tasks2 max_time.
Proof.
  intros Hperm Hinj. unfold run.
  by rewrite (sort_by_key_unique (λ x, arrival_time (σ x)) tasks1 tasks2 Hperm Hinj).
Qed.

Lemma run_independent_of_listing_order_witness :
  run EDF (store_of [T1; T2]) Scheduler_init [0; 1]%nat 6 =
  run EDF (store_of [T1; T2]) Scheduler_init [1; 0]%nat 6.
Proof.
  apply (run_independent_of_listing_order EDF (store_of [T1; T2]) Scheduler_init
           [0; 1]%nat [1; 0]%nat 6).
  - apply perm_swap.
  - intros a b Ha Hb.
    apply elem_of_cons in Ha as [-> | Ha]; [| apply elem_of_cons in Ha as [-> | Ha]];
      [| | by apply elem_of_nil in Ha];
      (apply elem_of_cons in Hb as [-> | Hb]; [| apply elem_of_cons in Hb as [-> | Hb]];
       [| | by apply elem_of_nil in Hb]);
      first [reflexivity | vm_compute; discriminate].
Defined.

(** ** The chart of [GUI.py]: merged segments *)

Lemma expand_all_app l1 l2 : expand_all (l1 ++ l2) = expand_all l1 ++ expand_all l2.
Proof.
  induction l1 as [| a l1 IH]; simpl; [done |]. by rewrite IH, app_assoc.
Qed.

Lemma expand_all_singleton a : expand_all [a] = expand a.
Proof. unfold expand_all. simpl. by rewrite app_nil_r. Qed.

Lemma expand_unit s t : expand (s, s + 1, t) = [(s, s + 1, t)].
Proof.
  unfold expand. replace (Z.to_nat (s + 1 - s)) with 1%nat by lia. simpl.
  by replace (s + Z.of_nat 0) with s by lia.
Qed.

Lemma expand_extend s e t :
  s ≤ e → expand (s, e + 1, t) = expand (s, e, t) ++ [(e, e + 1, t)].
Proof.
  intros Hle. unfold expand.
  replace (Z.to_nat (e + 1 - s)) with (Z.to_nat (e - s) + 1)%nat by lia.
  rewrite seq_app, fmap_app. simpl.
  by replace (s + Z.of_nat (Z.to_nat (e - s))) with e by lia.
Qed.

Lemma maximal_snoc l a b :
  maximal (l ++ [a]) → ¬ continues a b → maximal ((l ++ [a]) ++ [b]).
Proof.
  induction l as [| c l IH]; simpl; intros Hmax Hab; [done |].
  destruct Hmax as [Hc Hmax]. split; [| by apply IH].
  destruct l; simpl in *; done.
Qed.

Lemma maximal_last l a a' :
  maximal (l ++ [a]) → a'.1.1 = a.1.1 → a'.2 = a.2 → maximal (l ++ [a']).
Proof.
  induction l as [| c l IH]; simpl; intros Hmax Hs Ht; [done |].
  destruct Hmax as [Hc Hmax]. split; [| by apply IH].
  destruct l; simpl in *; [| done].
  unfold continues in *. by rewrite Hs, Ht.
Qed.

Lemma merge_fold_spec rest : ∀ merged curr,
  Forall (λ h, h.1.2 = h.1.1 + 1) rest →
  curr.1.1 < curr.1.2 →
  maximal (merged ++ [curr]) →
  ∃ merged' curr',
    foldl Gui.merge_step (merged, curr) rest = (merged', curr') ∧
    curr'.1.1 < curr'.1.2 ∧
    maximal (merged' ++ [curr']) ∧
    expand_all (merged' ++ [curr']) = expand_all (merged ++ [curr]) ++ rest.
Proof.
  induction rest as [| [[s e] t] rest IH]; intros merged [[cs ce] ct] Hunit Hlt Hmax.
  - exists merged, (cs, ce, ct). by rewrite app_nil_r.
  - apply Forall_cons in Hunit as [He Hunit]. simpl in He, Hlt. subst e.
    simpl. destruct (bool_decide (t = ct) && (s =? ce)) eqn:Hm.
    + apply andb_true_iff in Hm as [Ht Hs].
      apply bool_decide_eq_true in Ht as ->. apply Z.eqb_eq in Hs as ->.
      destruct (IH merged (cs, ce + 1, ct) Hunit) as (m' & c' & Hf & Hlt' & Hmax' & Hexp).
      { simpl. lia. }
      { by apply (maximal_last merged (cs, ce, ct)). }
      exists m', c'. split; [done |]. split; [done |]. split; [done |].
      rewrite Hexp, !expand_all_app, !expand_all_singleton.
      rewrite (expand_extend cs ce ct) by lia.
      by rewrite <- !app_assoc.
    + destruct (IH (merged ++ [(cs, ce, ct)]) (s, s + 1, t) Hunit)
        as (m' & c' & Hf & Hlt' & Hmax' & Hexp).
      { simpl. lia. }
      { apply maximal_snoc; [done |]. unfold continues. simpl. intros [-> ->].
        rewrite bool_decide_eq_true_2, Z.eqb_refl in Hm by done. done. }
      exists m', c'. split; [done |]. split; [done |]. split; [done |].
      rewrite Hexp, !expand_all_app, !expand_all_singleton.
      by rewrite expand_unit, <- !app_assoc.
Qed.

(** X10. The chart.  The merging loop of [draw_gantt] loses nothing and
    merges all it can: on a history of unit entries, replacing every merged
    segment by its unit entries gives the history back, and no merged
    segment continues the one before it (same task, starting where the
    other ends). *)
Theorem gantt_merge_lossless_and_maximal (history : list hist_entry) :
  Forall (λ h, h.1.2 = h.1.1 + 1) history →
  expand_all (Gui.merge_contiguous history) = history ∧
  maximal (Gui.merge_contiguous history).
Proof.
  intros Hunit. destruct history as [| [[s e] t] rest]; [done |].
  apply Forall_cons in Hunit as [He Hunit]. simpl in He. subst e.
  unfold Gui.merge_contiguous.
  destruct (merge_fold_spec rest [] (s, s + 1, t) Hunit)
    as (m' & c' & Hf & _ & Hmax & Hexp); [simpl; lia | done |].
  rewrite Hf. split; [| done].
  by rewrite Hexp, app_nil_l, expand_all_singleton, expand_unit.
Qed.

Lemma gantt_merge_lossless_and_maximal_witness :
  expand_all (Gui.merge_contiguous
                [(0, 1, "T1"); (1, 2, "T2"); (2, 3, "T2"); (3, 4, "T1"); (4, 5, "T1")]%string)
  = [(0, 1, "T1"); (1, 2, "T2"); (2, 3, "T2"); (3, 4, "T1"); (4, 5, "T1")]%string ∧
  maximal (Gui.merge_contiguous
             [(0, 1, "T1"); (1, 2, "T2"); (2, 3, "T2"); (3, 4, "T1"); (4, 5, "T1")]%string).
Proof.
  apply (gantt_merge_lossless_and_maximal
           [(0, 1, "T1"); (1, 2, "T2"); (2, 3, "T2"); (3, 4, "T1"); (4, 5, "T1")]%string).
  repeat (apply Forall_cons; split; [reflexivity |]). apply Forall_nil_2.
Defined.

(** ** The results window of [GUI.py]: late entries *)








(** ** The engine of [main.py]: selection *)

Lemma filter_head_split {A : Type} (Q : A → Prop) `{!∀ x, Decision (Q x)}
    (l : list A) x t :
  filter Q l = x :: t → ∃ l1 l2, l = l1 ++ x :: l2 ∧ ∀ y, y ∈ l1 → ¬ Q y.
Proof.
  induction l as [| a l IH]; [done |]. rewrite filter_cons.
  destruct (decide (Q a)) as [Ha | Ha].
  - intros [= -> _]. exists [], l. split; [done |]. intros y Hy. by apply elem_of_nil in Hy.
  - intros Hf. destruct (IH Hf) as (l1 & l2 & -> & Hl1).
    exists (a :: l1), l2. split; [done |].
    intros y [-> | Hy]%elem_of_cons; [done | by apply Hl1].
Qed.

(** X12. Selection in [main.py].  [get_next_ready_task] returns nothing
    exactly when no task is ready (arrived, not completed, with work left).
    Otherwise it returns a ready task whose deadline is the least among the
    ready tasks, and the first such task of the list: every ready task
    before it in the list has a strictly later deadline. *)
Theorem cli_next_ready_task_is_earliest σ s :
  match Cli.get_next_ready_task σ s with
  | None => ∀ r, r ∈ Cli.tasks s → ¬ cli_ready σ s r
  | Some r =>
      r ∈ Cli.tasks s ∧ cli_ready σ s r ∧
      (∀ r', r' ∈ Cli.tasks s → cli_ready σ s r' →
         Cli.deadline (σ r) ≤ Cli.deadline (σ r')) ∧
      ∃ l1 l2, Cli.tasks s = l1 ++ r :: l2 ∧
        ∀ r', r' ∈ l1 → cli_ready σ s r' → Cli.deadline (σ r) < Cli.deadline (σ r')
  end.
Proof.
  unfold Cli.get_next_ready_task.
  change (λ r, Cli.arrival_time (σ r) ≤ Cli.current_time s ∧
               Cli.is_completed (σ r) = false ∧ Cli.remaining_time (σ r) > 0)
    with (cli_ready σ s).
  set (key := λ r, Cli.deadline (σ r)).
  set (L := filter (cli_ready σ s) (Cli.tasks s)).
  pose proof (sort_by_key_perm key L) as Hperm.
  pose proof (sort_by_key_sorted key L) as Hsorted.
  pose proof (sort_by_key_stable key) as Hstable.
  destruct (sort_by_key key L) as [| r rest] eqn:E.
  - apply Permutation_nil in Hperm. intros r Hr Hready.
    assert (r ∈ L) as Hin by (by apply list_elem_of_filter).
    rewrite Hperm in Hin. by apply elem_of_nil in Hin.
  - apply StronglySorted_cons in Hsorted as [Hall _].
    assert (r ∈ L) as Hr by (rewrite <- Hperm; apply list_elem_of_here).
    apply list_elem_of_filter in Hr as [Hready Hr].
    assert (∀ r', r' ∈ Cli.tasks s → cli_ready σ s r' → key r ≤ key r') as Hmin.
    { intros r' Hr' Hready'.
      assert (r' ∈ r :: rest) as Hin by (rewrite Hperm; by apply list_elem_of_filter).
      apply elem_of_cons in Hin as [-> | Hin]; [lia |].
      by apply (proj1 (Forall_forall _ _) Hall). }
    split; [done |]. split; [done |]. split; [exact Hmin |].
    specialize (Hstable (key r) L). rewrite E, filter_cons in Hstable.
    destruct (decide (key r = key r)) as [_ |]; [| done].
    unfold L in Hstable. rewrite list_filter_filter in Hstable.
    symmetry in Hstable.
    destruct (filter_head_split _ _ _ _ Hstable) as (l1 & l2 & Hsplit & Hl1).
    exists l1, l2. split; [done |]. intros r' Hr' Hready'.
    assert (key r ≤ key r') as Hle.
    { apply Hmin; [| done]. rewrite Hsplit. apply elem_of_app. by left. }
    destruct (decide (key r' = key r)) as [Heq | Hneq].
    + by destruct (Hl1 r' Hr').
    + unfold key in *. lia.
Qed.

(** ** The engine of [main.py]: the scan for overdue tasks *)

Lemma cli_set_missed_same (t : Cli.Task) :
  Cli.missed_deadline t = true → Cli.set_missed_deadline t true = t.
Proof. destruct t. simpl. by intros ->. Qed.

Lemma cli_store_set_eq (σ : Cli.store) r t : Cli.store_set σ r t r = t.
Proof. unfold Cli.store_set. by rewrite decide_True. Qed.

Lemma cli_store_set_ne (σ : Cli.store) r t r' : r' ≠ r → Cli.store_set σ r t r' = σ r'.
Proof. intros Hne. unfold Cli.store_set. by rewrite decide_False. Qed.

Lemma length_filter_iff {A : Type} (P Q : A → Prop)
    `{!∀ x, Decision (P x)} `{!∀ x, Decision (Q x)} (l : list A) :
  (∀ x, x ∈ l → P x ↔ Q x) → length (filter P l) = length (filter Q l).
Proof.
  induction l as [| a l IH]; intros Hpq; [done |].
  rewrite !filter_cons.
  pose proof (Hpq a (list_elem_of_here _ _)) as Ha.
  specialize (IH (λ x Hx, Hpq x (list_elem_of_further _ _ _ Hx))).
  destruct (decide (P a)), (decide (Q a)); simpl; tauto || lia.
Qed.

(** A scan changes nothing when no task of the list is overdue and not yet
    flagged. *)
Lemma check_missed_fixed l now : ∀ σ c,
  (∀ r, r ∈ l → ¬ (cli_overdue now (σ r) = true ∧ Cli.missed_deadline (σ r) = false)) →
  Cli.check_missed l now σ c = (σ, c).
Proof.
  induction l as [| r l IH]; intros σ c H; simpl; [done |].
  pose proof (H r (list_elem_of_here _ _)) as Hr.
  specialize (IH σ c (λ x Hx, H x (list_elem_of_further _ _ _ Hx))).
  fold (cli_overdue now (σ r)).
  destruct (cli_overdue now (σ r)); [| done].
  destruct (Cli.missed_deadline (σ r)); simpl; [done |].
  by destruct Hr.
Qed.

Lemma check_missed_spec l now : ∀ σ c,
  NoDup l →
  ∃ σ' c',
    Cli.check_missed l now σ c = (σ', c') ∧
    (∀ r, σ' r = if decide (r ∈ l ∧ cli_overdue now (σ r) = true)
                 then Cli.set_missed_deadline (σ r) true else σ r) ∧
    c' = c + Z.of_nat (length (filter
           (λ r, cli_overdue now (σ r) = true ∧ Cli.missed_deadline (σ r) = false) l)).
Proof.
  induction l as [| r l IH]; intros σ c Hnd.
  - exists σ, c. split; [done |]. split; [| simpl; lia].
    intros r. rewrite decide_False; [done |]. intros [Hr _]. by apply elem_of_nil in Hr.
  - apply NoDup_cons in Hnd as [Hfresh Hnd]. simpl.
    fold (cli_overdue now (σ r)). rewrite filter_cons.
    destruct (cli_overdue now (σ r)) eqn:Hover;
      [destruct (Cli.missed_deadline (σ r)) eqn:Hflag |]; simpl.
    + destruct (IH σ c Hnd) as (σ' & c' & Hrun & Hσ' & Hc').
      exists σ', c'. split; [done |]. split.
      * intros x. rewrite Hσ'. destruct (decide (x = r)) as [-> | Hne].
        -- rewrite decide_False by (by intros [? _]).
           rewrite decide_True by (split; [apply list_elem_of_here | done]).
           by rewrite cli_set_missed_same.
        -- destruct (decide (x ∈ l ∧ cli_overdue now (σ x) = true)) as [[Hx Ho] | Hn].
           ++ by rewrite decide_True by (split; [by apply list_elem_of_further | done]).
           ++ rewrite decide_False; [done |].
              intros [[-> | Hx]%elem_of_cons Ho]; [done | by apply Hn].
      * done.
    + set (σ1 := Cli.store_set σ r (Cli.set_missed_deadline (σ r) true)).
      destruct (IH σ1 (c + 1) Hnd) as (σ' & c' & Hrun & Hσ' & Hc').
      exists σ', c'. split; [done |].
      assert (∀ x, x ≠ r → σ1 x = σ x) as Hother
        by (intros x Hx; unfold σ1; by rewrite cli_store_set_ne).
      split.
      * intros x. rewrite Hσ'. destruct (decide (x = r)) as [-> | Hne].
        -- rewrite decide_False by (by intros [? _]).
           rewrite decide_True by (split; [apply list_elem_of_here | done]).
           unfold σ1. by rewrite cli_store_set_eq.
        -- rewrite (Hother x Hne).
           destruct (decide (x ∈ l ∧ cli_overdue now (σ x) = true)) as [[Hx Ho] | Hn].
           ++ by rewrite decide_True by (split; [by apply list_elem_of_further | done]).
           ++ rewrite decide_False; [done |].
              intros [[-> | Hx]%elem_of_cons Ho]; [done | by apply Hn].
      * rewrite Hc'.
        rewrite (length_filter_iff
                   (λ r0, cli_overdue now (σ1 r0) = true ∧ Cli.missed_deadline (σ1 r0) = false)
                   (λ r0, cli_overdue now (σ r0) = true ∧ Cli.missed_deadline (σ r0) = false) l).
        -- lia.
        -- intros x Hx. rewrite Hother; [done |]. by intros ->.
    + destruct (IH σ c Hnd) as (σ' & c' & Hrun & Hσ' & Hc').
      exists σ', c'. split; [done |]. split.
      * intros x. rewrite Hσ'. destruct (decide (x = r)) as [-> | Hne].
        -- rewrite decide_False by (by intros [? _]).
           rewrite decide_False; [done |]. intros [_ Ho]. congruence.
        -- destruct (decide (x ∈ l ∧ cli_overdue now (σ x) = true)) as [[Hx Ho] | Hn].
           ++ by rewrite decide_True by (split; [by apply list_elem_of_further | done]).
           ++ rewrite decide_False; [done |].
              intros [[-> | Hx]%elem_of_cons Ho]; [done | by apply Hn].
      * done.
Qed.

(** X13. The scan of [main.py] for overdue tasks.  On a list without
    repetitions, the scan at time [now] sets the [missed_deadline] flag of
    every task of the list that is overdue (not completed, with work left,
    deadline before [now]) and changes nothing else; it adds to the counter
    the number of overdue tasks that were not yet flagged; and a second scan
    at the same time changes neither the tasks nor the counter. *)
Theorem cli_scan_flags_overdue_once l now σ c :
  NoDup l →
  ∃ σ' c',
    Cli.check_missed l now σ c = (σ', c') ∧
    (∀ r, σ' r = if decide (r ∈ l ∧ cli_overdue now (σ r) = true)
                 then Cli.set_missed_deadline (σ r) true else σ r) ∧
    c' = c + Z.of_nat (length (filter
           (λ r, cli_overdue now (σ r) = true ∧ Cli.missed_deadline (σ r) = false) l)) ∧
    Cli.check_missed l now σ' c' = (σ', c').
Proof.
  intros Hnd.
  destruct (check_missed_spec l now σ c Hnd) as (σ' & c' & Hrun & Hσ' & Hc').
  exists σ', c'. split; [done |]. split; [done |]. split; [done |].
  apply check_missed_fixed. intros r Hr [Ho Hflag]. rewrite Hσ' in Ho, Hflag.
  destruct (decide (r ∈ l ∧ cli_overdue now (σ r) = true)) as [_ | Hn].
  - by destruct (σ r).
  - by apply Hn.
Qed.

Lemma cli_scan_flags_overdue_once_witness :
  ∃ σ' c',
    Cli.check_missed [0; 1]%nat 2 (Cli.store_of [cliA; cliB]) 0 = (σ', c') ∧
    Cli.check_missed [0; 1]%nat 2 σ' c' = (σ', c').
Proof.
  destruct (cli_scan_flags_overdue_once [0; 1]%nat 2 (Cli.store_of [cliA; cliB]) 0)
    as (σ' & c' & Hrun & _ & _ & Hagain).
  - apply NoDup_cons. split; [| apply NoDup_singleton].
    intros Hin. apply list_elem_of_singleton in Hin. discriminate.
  - exists σ', c'. split; [exact Hrun | exact Hagain].
Defined.

(** ** The engine of [main.py]: the timeline of a run *)

Lemma cli_step_spec σ s :
  ∃ σ' s' e,
    Cli.step σ s = (σ', s') ∧
    Cli.tasks s' = Cli.tasks s ∧
    Cli.current_time s' = Cli.current_time s + 1 ∧
    Cli.timeline s' = Cli.timeline s ++ [e] ∧
    Cli.tl_time e = Cli.current_time s ∧
    Cli.tl_executing e =
      match Cli.tl_task_id e with Cli.TaskId _ => true | Cli.Idle => false end.
Proof.
  unfold Cli.step.
  destruct (Cli.check_missed _ _ _ _) as [σ1 c1]. simpl.
  destruct (Cli.get_next_ready_task _ _) as [r |]; simpl;
    repeat case_match; simplify_eq; simpl;
    eexists _, _, _; (split; [reflexivity |]); simpl; done.
Qed.

Lemma cli_timeline_ok_step s s' e :
  cli_timeline_ok s → 0 ≤ Cli.current_time s →
  Cli.current_time s' = Cli.current_time s + 1 →
  Cli.timeline s' = Cli.timeline s ++ [e] →
  Cli.tl_time e = Cli.current_time s →
  Cli.tl_executing e =
    match Cli.tl_task_id e with Cli.TaskId _ => true | Cli.Idle => false end →
  cli_timeline_ok s'.
Proof.
  intros [Hlen Hent] Hct Hct' Htl Htime Hexec. split.
  - rewrite Htl, length_app, Hlen, Hct'. simpl. lia.
  - intros k e' Hk. rewrite Htl in Hk.
    apply lookup_app_Some in Hk as [Hk | [Hge Hk]]; [by apply Hent |].
    apply list_lookup_singleton_Some in Hk as [Hk ->].
    split; [lia | done].
Qed.

Lemma cli_loop_spec fuel max_time : ∀ σ s,
  cli_timeline_ok s → 0 ≤ Cli.current_time s →
  max_time + 1 - Cli.current_time s ≤ Z.of_nat fuel →
  ∃ σ' s',
    Cli.loop fuel max_time σ s = (σ', s') ∧
    Cli.tasks s' = Cli.tasks s ∧
    cli_timeline_ok s' ∧
    Cli.current_time s ≤ Cli.current_time s' ∧
    Cli.current_time s' ≤ Z.max (Cli.current_time s) (max_time + 1) ∧
    (Cli.all_tasks_completed σ' s' = true ∨ max_time < Cli.current_time s').
Proof.
  induction fuel as [| fuel IH]; intros σ s Hok Hct Hfuel.
  - exists σ, s. split; [done |]. split; [done |]. split; [done |].
    split; [lia |]. split; [lia |]. right. lia.
  - simpl.
    destruct ((Cli.current_time s <=? max_time) && negb (Cli.all_tasks_completed σ s))
      eqn:Hcond.
    + apply andb_true_iff in Hcond as [Hle _]. apply Z.leb_le in Hle.
      destruct (cli_step_spec σ s) as (σ1 & s1 & e & -> & Htasks & Hct1 & Htl & Htime & Hexec).
      destruct (IH σ1 s1) as (σ' & s' & Hloop & Htasks' & Hok' & Hge & Hle' & Hstop).
      { by eapply cli_timeline_ok_step. }
      { lia. }
      { lia. }
      exists σ', s'. split; [done |]. split; [congruence |]. split; [done |].
      split; [lia |]. split; [lia | done].
    + exists σ, s. split; [done |]. split; [done |]. split; [done |].
      split; [lia |]. split; [lia |].
      apply andb_false_iff in Hcond as [Hgt | Hdone].
      * right. apply Z.leb_gt in Hgt. lia.
      * left. by apply negb_false_iff in Hdone.
Qed.

Lemma foldl_max_spec {A : Type} (f : A → Z) (l : list A) : ∀ m0,
  m0 ≤ foldl (λ m r, Z.max m (f r)) m0 l ∧
  (∀ r, r ∈ l → f r ≤ foldl (λ m r, Z.max m (f r)) m0 l) ∧
  (foldl (λ m r, Z.max m (f r)) m0 l = m0 ∨
   ∃ r, r ∈ l ∧ foldl (λ m r, Z.max m (f r)) m0 l = f r).
Proof.
  induction l as [| a l IH]; intros m0; simpl.
  - split; [lia |]. split; [| by left]. intros r Hr. by apply elem_of_nil in Hr.
  - destruct (IH (Z.max m0 (f a))) as (Hge & Hall & Hatt). split; [lia |]. split.
    + intros r [-> | Hr]%elem_of_cons; [lia | by apply Hall].
    + destruct Hatt as [-> | (r & Hr & ->)].
      * destruct (Z.max_spec m0 (f a)) as [[_ ->] | [_ ->]].
        -- right. exists a. split; [apply list_elem_of_here | done].
        -- by left.
      * right. exists r. split; [by apply list_elem_of_further | done].
Qed.

(** X14. The timeline of [main.py].  [run_scheduler] sorts the tasks by
    deadline and produces one timeline entry per time unit from 0 up to the
    time at which it stops; entry [k] is for time [k] and is marked as
    executing exactly when it bears a task identifier.  It stops when every
    task is completed or the time has passed every deadline, and never
    later than one unit after the largest deadline. *)
Theorem cli_run_timeline σ s :
  ∃ σ' s',
    Cli.run_scheduler σ s = (σ', s') ∧
    Cli.tasks s' = sort_by_key (λ r, Cli.deadline (σ r)) (Cli.tasks s) ∧
    cli_timeline_ok s' ∧
    0 ≤ Cli.current_time s' ∧
    (Cli.all_tasks_completed σ' s' = true ∨
     ∀ r, r ∈ Cli.tasks s → Cli.deadline (σ r) < Cli.current_time s') ∧
    (Cli.current_time s' = 0 ∨
     ∃ r, r ∈ Cli.tasks s ∧ Cli.current_time s' ≤ Cli.deadline (σ r) + 1).
Proof.
  unfold Cli.run_scheduler.
  pose proof (sort_by_key_perm (λ r, Cli.deadline (σ r)) (Cli.tasks s)) as Hperm.
  remember (sort_by_key (λ r, Cli.deadline (σ r)) (Cli.tasks s)) as tasks1 eqn:Htasks1.
  remember (match tasks1 with
            | [] => 0
            | r :: rest =>
                foldl (λ m r', Z.max m (Cli.deadline (σ r'))) (Cli.deadline (σ r)) rest
            end) as max_time eqn:Hmax.
  assert ((∀ r, r ∈ Cli.tasks s → Cli.deadline (σ r) ≤ max_time) ∧
          (tasks1 = [] ∨ ∃ r, r ∈ Cli.tasks s ∧ max_time = Cli.deadline (σ r)))
    as [Hub Hatt].
  { destruct tasks1 as [| r rest].
    - split; [| by left]. intros r Hr. rewrite <- Hperm in Hr. by apply elem_of_nil in Hr.
    - destruct (foldl_max_spec (λ r', Cli.deadline (σ r')) rest (Cli.deadline (σ r)))
        as (Hge & Hall & Hatt). rewrite <- Hmax in Hge, Hall, Hatt. split.
      + intros r' Hr'. rewrite <- Hperm in Hr'.
        apply elem_of_cons in Hr' as [-> | Hr']; [lia | by apply Hall].
      + right. destruct Hatt as [-> | (r' & Hr' & ->)].
        * exists r. split; [| done]. rewrite <- Hperm. apply list_elem_of_here.
        * exists r'. split; [| done]. rewrite <- Hperm. by apply list_elem_of_further. }
  destruct (cli_loop_spec (Z.to_nat (max_time + 1)) max_time σ
              (Cli.mkScheduler tasks1 0 [] 0 []))
    as (σ' & s' & Hloop & Htasks & Hok & Hge & Hle & Hstop).
  { split; [done |]. intros k e Hk. simpl in Hk. by rewrite lookup_nil in Hk. }
  { simpl. lia. }
  { simpl. lia. }
  simpl in Htasks, Hge, Hle.
  exists σ', s'. split; [done |]. split; [done |]. split; [done |]. split; [lia |].
  split.
  - destruct Hstop as [Hdone | Hpast]; [by left | right].
    intros r Hr. specialize (Hub r Hr). lia.
  - destruct (decide (Cli.current_time s' = 0)) as [| Hpos]; [by left | right].
    destruct Hatt as [-> | (r & Hr & Hr')].
    + exfalso. subst max_time. vm_compute in Hloop. injection Hloop as <- <-.
      by apply Hpos.
    + exists r. split; [done |]. lia.
Qed.

(** ** When the two policies give the same schedule *)

Lemma policies_agree_set σ r t :
  policies_agree σ → priority EDF t = priority RMS t →
  policies_agree (store_set σ r t).
Proof.
  intros Hσ Ht r'. destruct (decide (r' = r)) as [-> | Hne].
  - by rewrite store_set_eq.
  - by rewrite store_set_ne.
Qed.

Lemma add_task_agree σ s r :
  policies_agree σ →
  add_task EDF σ s r = add_task RMS σ s r ∧
  ∀ pol σ' s', add_task pol σ s r = Ok (σ', s') → policies_agree σ'.
Proof.
  intros Hσ. split.
  - unfold add_task. rewrite store_set_eq.
    by rewrite (priority_set_counter EDF), (priority_set_counter RMS), (Hσ r).
  - intros pol σ' s'. unfold add_task.
    destruct (heappush _ _ _) as [q |]; simpl; [| done].
    intros [= <- _]. apply policies_agree_set; [done |].
    by rewrite (priority_set_counter EDF), (priority_set_counter RMS).
Qed.

Lemma arrivals_agree fuel tasks : ∀ σ s idx,
  policies_agree σ →
  arrivals fuel EDF tasks σ s idx = arrivals fuel RMS tasks σ s idx ∧
  ∀ pol σ' s' idx', arrivals fuel pol tasks σ s idx = Ok (σ', s', idx') →
    policies_agree σ'.
Proof.
  induction fuel as [| fuel IH]; intros σ s idx Hσ; simpl.
  - split; [done |]. by intros pol σ' s' idx' [= <- _ _].
  - destruct (idx <? length tasks)%nat; [| split; [done | by intros ???? [= <- _ _]]].
    destruct (getitem tasks idx) as [r |]; simpl; [| done].
    destruct (arrival_time (σ r) <=? time s); [| split; [done | by intros ???? [= <- _ _]]].
    destruct (add_task_agree σ s r Hσ) as [Heq Hpres]. rewrite Heq. split.
    + destruct (add_task RMS σ s r) as [[σ1 s1] |] eqn:E; simpl; [| done].
      by apply IH, (Hpres RMS σ1 s1).
    + intros pol σ' s' idx'.
      destruct (add_task pol σ s r) as [[σ1 s1] |] eqn:E; simpl; [| done].
      by apply IH, (Hpres pol σ1 s1).
Qed.

Lemma execute_unit_agree σ s r σ' s' :
  policies_agree σ → execute_unit σ s r = (σ', s') → policies_agree σ'.
Proof.
  intros Hσ. unfold execute_unit. intros [= <- _].
  apply policies_agree_set.
  - destruct (start_time (σ r) =? -1); [by apply policies_agree_set; [| apply Hσ] | done].
  - destruct (start_time (σ r) =? -1).
    + rewrite store_set_eq. apply Hσ.
    + apply Hσ.
Qed.

Lemma complete_task_agree σ s r σ' s' :
  policies_agree σ → complete_task σ s r = (σ', s') → policies_agree σ'.
Proof.
  intros Hσ. unfold complete_task.
  destruct (completion_time _ >? absolute_deadline _); intros [= <- _].
  - apply policies_agree_set; [apply policies_agree_set; [done | apply Hσ] |].
    rewrite store_set_eq. apply Hσ.
  - apply policies_agree_set; [done | apply Hσ].
Qed.

Lemma execute_agree σ s r :
  policies_agree σ →
  execute EDF σ s r = execute RMS σ s r ∧
  ∀ pol σ' s', execute pol σ s r = Ok (σ', s') → policies_agree σ'.
Proof.
  intros Hσ. unfold execute.
  destruct (execute_unit σ s r) as [σ1 s1] eqn:E.
  pose proof (execute_unit_agree _ _ _ _ _ Hσ E) as Hσ1.
  destruct (remaining_time (σ1 r) =? 0).
  - split; [done |]. intros pol σ' s' [= H].
    destruct (complete_task σ1 s1 r) as [σ2 s2] eqn:E2. injection H as <- _.
    by eapply complete_task_agree.
  - apply (add_task_agree σ1 s1 r Hσ1).
Qed.

Lemma step_agree tasks σ s idx :
  policies_agree σ →
  step EDF tasks σ s idx = step RMS tasks σ s idx ∧
  ∀ pol σ' s' idx', step pol tasks σ s idx = Ok (σ', s', idx') → policies_agree σ'.
Proof.
  intros Hσ. unfold step.
  destruct (arrivals_agree (length tasks - idx) tasks σ s idx Hσ) as [Heq Hpres].
  rewrite Heq. split.
  - destruct (arrivals _ RMS _ _ _ _) as [[[σ1 s1] idx1] |] eqn:E; simpl; [| done].
    destruct (get_next_task s1) as [[[r |] s2] |]; simpl; [| done | done].
    by rewrite (proj1 (execute_agree σ1 s2 r (Hpres RMS _ _ _ E))).
  - intros pol σ' s' idx'.
    destruct (arrivals _ pol _ _ _ _) as [[[σ1 s1] idx1] |] eqn:E; simpl; [| done].
    pose proof (Hpres pol _ _ _ E) as Hσ1.
    destruct (get_next_task s1) as [[[r |] s2] |]; simpl; [| | done].
    + destruct (execute pol σ1 s2 r) as [[σ3 s3] |] eqn:E3; simpl; [| done].
      intros [= <- _ _]. by apply (proj2 (execute_agree σ1 s2 r Hσ1) pol σ3 s3).
    + by intros [= <- _ _].
Qed.

Lemma run_loop_agree fuel tasks max_time : ∀ σ s idx,
  policies_agree σ →
  run_loop fuel EDF tasks max_time σ s idx = run_loop fuel RMS tasks max_time σ s idx.
Proof.
  induction fuel as [| fuel IH]; intros σ s idx Hσ; simpl; [done |].
  destruct (time s <? max_time); [| done].
  destruct (step_agree tasks σ s idx Hσ) as [Heq Hpres]. rewrite Heq.
  destruct (step RMS tasks σ s idx) as [[[σ1 s1] idx1] |] eqn:E; simpl; [| done].
  by apply IH, (Hpres RMS σ1 s1 idx1).
Qed.

(** X15. The two policies.  When every task object has the same priority
    key under both policies (its absolute deadline equals its period, or its
    relative deadline if the period is not positive), [EDFScheduler.run] and
    [RMSScheduler.run] give the same result: the same task objects, scheduler
    state and history. *)
Theorem edf_and_rms_agree σ s tasks max_time :
  policies_agree σ →
  run EDF σ s tasks max_time = run RMS σ s tasks max_time.
Proof.
  intros Hσ. unfold run. by rewrite (run_loop_agree _ _ _ σ s 0%nat Hσ).
Qed.

Lemma edf_and_rms_agree_witness :
  run EDF (store_of [fresh_task "A" 0 3 10 10; fresh_task "B" 0 2 4 4])
    Scheduler_init [0; 1]%nat 6 =
  run RMS (store_of [fresh_task "A" 0 3 10 10; fresh_task "B" 0 2 4 4])
    Scheduler_init [0; 1]%nat 6.
Proof.
  apply (edf_and_rms_agree
           (store_of [fresh_task "A" 0 3 10 10; fresh_task "B" 0 2 4 4])
           Scheduler_init [0; 1]%nat 6).
  intros r. destruct r as [| [| r]]; [reflexivity | reflexivity |].
  unfold store_of. simpl. by destruct r.
Defined.

(** ** A longer run keeps what a shorter run did *)

Lemma keeps_past_refl σ s : keeps_past σ s σ s.
Proof.
  split; [exists []; by rewrite app_nil_r |].
  split; [exists []; by rewrite app_nil_r |]. split; [intros r; lia | done].
Qed.

Lemma keeps_past_trans σ s σ1 s1 σ2 s2 :
  keeps_past σ s σ1 s1 → keeps_past σ1 s1 σ2 s2 → keeps_past σ s σ2 s2.
Proof.
  intros ((h1 & Hh1) & (c1 & Hc1) & Hr1 & Hd1) ((h2 & Hh2) & (c2 & Hc2) & Hr2 & Hd2).
  split; [exists (h1 ++ h2); by rewrite Hh2, Hh1, app_assoc |].
  split; [exists (c1 ++ c2); by rewrite Hc2, Hc1, app_assoc |].
  split.
  - intros r. specialize (Hr1 r). specialize (Hr2 r). lia.
  - intros r Hr. destruct (Hd1 r Hr) as (Ha & Hb & Hc).
    destruct (Hd2 r) as (Ha' & Hb' & Hc').
    { rewrite Hc1. apply elem_of_app. by left. }
    split; [congruence |]. split; congruence.
Qed.

Lemma steps_keeps_past pol tasks σ s idx σ' s' idx' :
  steps pol tasks σ s idx σ' s' idx' →
  run_inv tasks σ s idx → keeps_past σ s σ' s'.
Proof.
  intros Hsteps Hinv.
  destruct (steps_unit_step _ _ _ _ _ _ _ _ Hsteps) as (σ1 & s1 & Hadm & Hunit).
  pose proof (admits_run_inv _ _ _ _ _ _ _ _ Hadm Hinv) as Hinv1.
  pose proof (admits_frame _ _ _ _ _ _ _ _ Hadm) as (Hh & Hc & _).
  assert (∀ r, untouched (σ r) (σ1 r)) as Hun1
    by (intros r; apply (admits_untouched _ _ _ _ _ _ _ _ r Hadm)).
  destruct Hinv1 as (_ & _ & _ & _ & Hq & _ & _ & Hdone & _ & _ & _ & _ & Hcsub & _).
  unfold keeps_past. rewrite <- Hh, <- Hc.
  assert (∀ r, remaining_time (σ r) = remaining_time (σ1 r) ∧
               completion_time (σ r) = completion_time (σ1 r) ∧
               missed_deadline (σ r) = missed_deadline (σ1 r)) as Heq.
  { intros r. destruct (Hun1 r) as (_ & -> & -> & ->). done. }
  destruct Hunit
    as [σa sa σb sb _ _ Hun Hhist Hcomp _
       | σa sa σb sb e q Hperm _ Hun _ Hrem _ Hhist _ Hcase].
  - split; [by eexists |]. split; [exists []; by rewrite app_nil_r |]. split.
    + intros r. destruct (Hun r) as [(_ & Hr & _) _]. destruct (Heq r) as (-> & _). lia.
    + intros r _. destruct (Hun r) as [(_ & -> & -> & ->) _].
      destruct (Heq r) as (-> & -> & ->). done.
  - assert (e ∈ ready_queue sa) as He by (rewrite Hperm; apply list_elem_of_here).
    destruct (Hq e He) as [_ Hpos].
    split; [by eexists |]. split.
    { destruct Hcase as [(_ & _ & _ & ->) | (_ & _ & _ & ->)];
        [by eexists | exists []; by rewrite app_nil_r]. }
    split.
    + intros r. destruct (Heq r) as (-> & _).
      destruct (decide (r = entry_task e)) as [-> | Hne]; [lia |].
      destruct (Hun r Hne) as [(_ & -> & _) _]. lia.
    + intros r Hr. destruct (Heq r) as (-> & -> & ->).
      assert (r ≠ entry_task e) as Hne.
      { intros ->. pose proof (proj2 (Hdone _ (Hcsub _ Hr)) Hr). lia. }
      destruct (Hun r Hne) as [(_ & -> & -> & ->) _]. done.
Qed.

Lemma runs_keeps_past pol tasks max_time σ s idx σ' s' idx' :
  runs pol tasks max_time σ s idx σ' s' idx' →
  run_inv tasks σ s idx → keeps_past σ s σ' s'.
Proof.
  induction 1 as [| ? ? ? ? ? ? ? ? ? _ Hsteps _ IH]; intros Hinv.
  - apply keeps_past_refl.
  - eapply keeps_past_trans; [by eapply steps_keeps_past |].
    apply IH. by eapply steps_run_inv.
Qed.

(** X16. A longer run keeps the past.  For a well-formed task set and
    [m1 <= m2], the run up to [m2] extends the run up to [m1]: its history
    and its completed list begin with those of the shorter run, no task has
    more remaining time, and every task that the shorter run completed has
    the same completion time and the same [missed_deadline] flag. *)
Theorem longer_run_keeps_the_past pol σ tasks m1 m2 :
  well_formed σ tasks → m1 ≤ m2 →
  ∃ o1 o2,
    run pol σ Scheduler_init tasks m1 = Ok o1 ∧
    run pol σ Scheduler_init tasks m2 = Ok o2 ∧
    out_tasks o2 = out_tasks o1 ∧
    (∃ rest, out_history o2 = out_history o1 ++ rest) ∧
    keeps_past (out_store o1) (out_sched o1) (out_store o2) (out_sched o2).
Proof.
  intros Hwf Hm.
  destruct (run_engine_inv pol σ tasks m1 m2 Hwf Hm)
    as (o1 & o2 & idx1 & idx2 & Hrun1 & Hrun2 & _ & Htasks & _ & Hh1 & Hh2 & _ & _
        & Hinv & _ & Hruns).
  exists o1, o2. split; [done |]. split; [done |]. split; [done |].
  pose proof (runs_keeps_past _ _ _ _ _ _ _ _ _ Hruns (proj1 Hinv)) as Hkeep.
  split; [| done]. rewrite Hh1, Hh2. apply Hkeep.
Qed.

Lemma longer_run_keeps_the_past_witness :
  well_formed (store_of [T1; T2]) [0; 1]%nat ∧ 2 ≤ 6 ∧
  ∃ o1 o2,
    run EDF (store_of [T1; T2]) Scheduler_init [0; 1]%nat 2 = Ok o1 ∧
    run EDF (store_of [T1; T2]) Scheduler_init [0; 1]%nat 6 = Ok o2 ∧
    out_tasks o2 = out_tasks o1.
Proof.
  split; [exact well_formed_T1_T2 |]. split; [lia |].
  destruct (longer_run_keeps_the_past EDF (store_of [T1; T2]) [0; 1]%nat 2 6
              well_formed_T1_T2 ltac:(lia)) as (o1 & o2 & H1 & H2 & H3 & _).
  exists o1, o2. split; [exact H1 |]. split; [exact H2 | exact H3].
Defined.

(** ** The engine of [main.py]: running again *)

Lemma cli_all_completed_perm σ (l1 l2 : list ref) :
  l1 ≡ₚ l2 →
  forallb (λ r, Cli.is_completed (σ r)) l1 = forallb (λ r, Cli.is_completed (σ r)) l2.
Proof.
  induction 1 as [| x l1 l2 _ IH | x y l | l1 l2 l3 _ IH1 _ IH2]; simpl.
  - done.
  - by rewrite IH.
  - by destruct (Cli.is_completed (σ x)), (Cli.is_completed (σ y)).
  - by rewrite IH1.
Qed.

(** X17. Running [main.py]'s scheduler again.  [run_scheduler] resets the
    scheduler but not the tasks: when every task is already completed, as
    after an earlier run that finished them all, it executes nothing and
    returns an empty timeline, with the time and the count of missed
    deadlines back at zero and every task object as it was. *)
Theorem cli_rerun_after_completion σ s :
  Cli.all_tasks_completed σ s = true →
  Cli.run_scheduler σ s =
    (σ, Cli.mkScheduler (sort_by_key (λ r, Cli.deadline (σ r)) (Cli.tasks s)) 0 [] 0 []).
Proof.
  intros Hdone. unfold Cli.run_scheduler.
  destruct (Z.to_nat _) as [| fuel]; [done |]. simpl.
  unfold Cli.all_tasks_completed in *. simpl.
  rewrite (cli_all_completed_perm σ _ (Cli.tasks s)) by apply sort_by_key_perm.
  by rewrite Hdone, andb_false_r.
Qed.

Lemma cli_rerun_after_completion_witness :
  Cli.run_scheduler (Cli.store_of [Cli.set_completed (Cli.Task_init 1 3 5 0) 2])
    (Cli.mkScheduler [0%nat] 3 [0%nat] 1 []) =
  (Cli.store_of [Cli.set_completed (Cli.Task_init 1 3 5 0) 2],
   Cli.mkScheduler
     (sort_by_key
        (λ r, Cli.deadline (Cli.store_of [Cli.set_completed (Cli.Task_init 1 3 5 0) 2] r))
        [0%nat]) 0 [] 0 []).
Proof.
  apply (cli_rerun_after_completion
           (Cli.store_of [Cli.set_completed (Cli.Task_init 1 3 5 0) 2])
           (Cli.mkScheduler [0%nat] 3 [0%nat] 1 [])).
  reflexivity.
Defined.
